(** * postcode_flow_diagram.py: the swimlane diagram builder

    A shallow embedding of [src/address-lookup/documentation/postcode_flow_diagram.py]
    and of the part of CPython 3.11's [textwrap] module that [box_text] calls
    ([textwrap.fill] with the default options of [TextWrapper]).

    Modelling choices.
    - A Python [str] is a list of Unicode code points ([PyStr.str]); [len] counts
      code points, as in Python.
    - A coordinate is a Python float written as a decimal literal.  The model
      reads each literal as the rational number it denotes ([Q]); the facts
      proved below use only the order of these numbers and sums, differences
      and halves of them.
    - The drawing calls of matplotlib ([ax.plot], [ax.text], [ax.annotate]) are
      recorded, in call order, as the artists they add to the axes, and are
      taken to return normally.  [plt.subplots] and [fig.savefig] are embedded
      with the checks matplotlib makes before it draws or writes: the figure
      size, the file format named by the extension of the path, the default
      suffix of the file name.
    - Exceptions are results: [Raise e] stops the statements that follow. *)

From Stdlib Require Import String Ascii.
From Stdlib Require Import List NArith ZArith QArith Qround Bool Lia Lqa.
Import ListNotations.

(** ** Python strings *)

Module PyStr.

(** A code point. *)
Definition char : Set := N.

(** A Python [str]. *)
Definition str : Set := list char.

Definition TAB : char := 9%N.
Definition LF : char := 10%N.
Definition VT : char := 11%N.
Definition FF : char := 12%N.
Definition CR : char := 13%N.
Definition SPACE : char := 32%N.
Definition HYPHEN : char := 45%N.
Definition DOT : char := 46%N.
Definition SLASH : char := 47%N.
Definition BACKSLASH : char := 92%N.
Definition UNDERSCORE : char := 95%N.

(** [len(s)]. *)
Definition len (s : str) : Z := Z.of_nat (length s).

(** The escape [\n] of a string literal (the only escape the script uses). *)
Fixpoint unescape (bs : list N) : list N :=
  match bs with
  | [] => []
  | b :: rest =>
    match rest with
    | b' :: rest' =>
      if ((b =? BACKSLASH) && (b' =? 110))%N then LF :: unescape rest'
      else b :: unescape rest
    | [] => [b]
    end
  end.

(** The code points of a UTF-8 byte sequence (the script is a UTF-8 file). *)
Fixpoint utf8_decode (bs : list N) : str :=
  match bs with
  | [] => []
  | b0 :: r0 =>
    if (b0 <? 128)%N then b0 :: utf8_decode r0
    else
      match r0 with
      | [] => [b0]
      | b1 :: r1 =>
        if (b0 <? 224)%N then ((b0 - 192) * 64 + (b1 - 128))%N :: utf8_decode r1
        else
          match r1 with
          | [] => [b0; b1]
          | b2 :: r2 =>
            if (b0 <? 240)%N
            then ((b0 - 224) * 4096 + (b1 - 128) * 64 + (b2 - 128))%N :: utf8_decode r2
            else
              match r2 with
              | [] => [b0; b1; b2]
              | b3 :: r3 =>
                ((b0 - 240) * 262144 + (b1 - 128) * 4096
                 + (b2 - 128) * 64 + (b3 - 128))%N :: utf8_decode r3
              end
          end
      end
  end.

(** The value of the Python string literal whose body is written [s]. *)
Definition py (s : string) : str :=
  utf8_decode (unescape (map N_of_ascii (list_ascii_of_string s))).

(** [sep.join(parts)]. *)
Fixpoint join (sep : str) (parts : list str) : str :=
  match parts with
  | [] => []
  | [p] => p
  | p :: rest => p ++ sep ++ join sep rest
  end.

(** [c.isspace()], from the Unicode character database (bidirectional class
    WS, B or S, or category Zs). *)
Definition isspace (c : char) : bool :=
  (((9 <=? c) && (c <=? 13)) || ((28 <=? c) && (c <=? 32))
   || (c =? 133) || (c =? 160) || (c =? 5760)
   || ((8192 <=? c) && (c <=? 8202))
   || (c =? 8232) || (c =? 8233) || (c =? 8239) || (c =? 8287)
   || (c =? 12288))%N.

(** The characters of [s] that are not whitespace, in order. *)
Definition without_whitespace (s : str) : str :=
  filter (fun c => negb (isspace c)) s.

(** [s.strip() == ''] : every character of [s] is whitespace. *)
Definition strip_is_empty (s : str) : bool := forallb isspace s.

(** [s.expandtabs(tabsize)], started at column [col]. *)
Fixpoint expandtabs_from (tabsize col : N) (s : str) : str :=
  match s with
  | [] => []
  | c :: rest =>
    if (c =? TAB)%N then
      if (0 <? tabsize)%N then
        let incr := (tabsize - col mod tabsize)%N in
        repeat SPACE (N.to_nat incr) ++ expandtabs_from tabsize (col + incr)%N rest
      else expandtabs_from tabsize col rest
    else
      c :: expandtabs_from tabsize
             (if ((c =? LF) || (c =? CR))%N then 0%N else (col + 1)%N) rest
  end.

Definition expandtabs (tabsize : N) (s : str) : str := expandtabs_from tabsize 0 s.

(** The slice [s[:stop]]: a negative [stop] counts from the end. *)
Definition slice_to (s : str) (stop : Z) : str :=
  firstn (Z.to_nat (if (stop <? 0)%Z then len s + stop else stop)) s.

(** The slice [s[start:]]. *)
Definition slice_from (s : str) (start : Z) : str :=
  skipn (Z.to_nat (if (start <? 0)%Z then len s + start else start)) s.

(** Index of the last [c] among [s], counting from [i]; [found] when none. *)
Fixpoint rfind_from (c : char) (s : str) (i found : Z) : Z :=
  match s with
  | [] => found
  | x :: rest => rfind_from c rest (i + 1) (if (x =? c)%N then i else found)
  end.

(** [s.rfind(c, 0, stop)]: the highest index below [stop] holding [c], or -1. *)
Definition rfind (s : str) (c : char) (stop : Z) : Z :=
  rfind_from c (slice_to s stop) 0 (-1).

(** [s.split(sep)] for a one-character separator: the pieces of [s] between
    the occurrences of [sep]. *)
Fixpoint split_on (sep : char) (s : str) : list str :=
  match s with
  | [] => [[]]
  | c :: rest =>
    if (c =? sep)%N then [] :: split_on sep rest
    else
      match split_on sep rest with
      | piece :: pieces => (c :: piece) :: pieces
      | [] => [[c]]
      end
  end.

(** [a == b]. *)
Fixpoint eqb (a b : str) : bool :=
  match a, b with
  | [], [] => true
  | x :: a', y :: b' => (x =? y)%N && eqb a' b'
  | _, _ => false
  end.

(** [s.rstrip(c)] for one character [c]: [s] without the [c]s at its end. *)
Fixpoint rstrip (c : char) (s : str) : str :=
  match s with
  | [] => []
  | x :: rest =>
    match rstrip c rest with
    | [] => if (x =? c)%N then [] else [x]
    | kept => x :: kept
    end
  end.

(** [c.lower()] for a character of ASCII; the others are left as they are. *)
Definition ascii_lower (c : char) : char :=
  if ((65 <=? c) && (c <=? 90))%N then (c + 32)%N else c.

(** [s.lower() == target] for a [target] of lower-case ASCII letters other
    than i and k: no character outside ASCII has such a letter as its lower
    case (the Kelvin sign maps to k, the dotted capital I to an i with a
    combining dot), so only the ASCII capitals of [s] count. *)
Definition lower_is (s target : str) : bool := eqb (map ascii_lower s) target.

(** [os.path.splitext(p)] of [posixpath]: the extension starts at the last
    dot of the last component of the path, unless nothing but dots comes
    before that dot in the component ([genericpath._splitext]). *)
Definition splitext (p : str) : str * str :=
  let sepIndex := rfind p SLASH (len p) in
  let dotIndex := rfind p DOT (len p) in
  if (sepIndex <? dotIndex)%Z then
    (* skip all leading dots *)
    if forallb (fun c => (c =? DOT)%N)
               (slice_to (slice_from p (sepIndex + 1)) (dotIndex - (sepIndex + 1)))
    then (p, [])
    else (slice_to p dotIndex, slice_from p dotIndex)
  else (p, []).

End PyStr.

(** ** Outcomes of a call *)

Inductive exn : Set :=
| ValueError_invalid_width (width : Z)   (* textwrap: "invalid width %r (must be > 0)" *)
| StopIteration                          (* next() on an exhausted iterator *)
| OSError                                (* savefig could not write the file *)
| ValueError_figure_size                 (* Figure: "figure size must be positive finite not ..." *)
| ValueError_format (extension : PyStr.str).
    (* savefig: "Format %r is not supported ...", for the extension of the
       path, which the message shows in lower case *)

(** [OutOfFuel] is the model's own: a loop cut short by its fuel.  It is shown
    below never to occur. *)
Inductive result (A : Type) : Type :=
| Ok (a : A)
| Raise (e : exn)
| OutOfFuel.

Arguments Ok {A} a.
Arguments Raise {A} e.
Arguments OutOfFuel {A}.

(** ** textwrap.fill *)

Module TextWrap.
Import PyStr.

(** The two tables of the Unicode character database that the regular
    expression classes [\w] and [\d] consult for a code point outside ASCII:
    [isalnum] and [isdecimal]. *)
Record unicode_db : Set := {
  db_alnum : char -> bool;
  db_decimal : char -> bool
}.

(** [_whitespace = '\t\n\x0b\x0c\r '] *)
Definition is_whitespace (c : char) : bool :=
  ((c =? TAB) || (c =? LF) || (c =? VT) || (c =? FF) || (c =? CR) || (c =? SPACE))%N.

(** [text.translate(unicode_whitespace_trans)] *)
Definition translate_whitespace (text : str) : str :=
  map (fun c => if is_whitespace c then SPACE else c) text.

(** [_munge_whitespace], with [expand_tabs], [replace_whitespace] true and
    [tabsize] 8. *)
Definition munge_whitespace (text : str) : str :=
  translate_whitespace (expandtabs 8 text).

Section Wordsep.
Context (ucd : unicode_db).

(** [\w] *)
Definition is_word_char (c : char) : bool :=
  if (c <? 128)%N then
    (((48 <=? c) && (c <=? 57)) || ((65 <=? c) && (c <=? 90))
     || ((97 <=? c) && (c <=? 122)) || (c =? UNDERSCORE))%N
  else db_alnum ucd c.

(** [\d] *)
Definition is_decimal (c : char) : bool :=
  if (c <? 128)%N then ((48 <=? c) && (c <=? 57))%N else db_decimal ucd c.

(** [letter = [^\d\W]] *)
Definition is_letter (c : char) : bool := is_word_char c && negb (is_decimal c).

(** [word_punct]: a [\w] character or one of the exclamation mark, the
    double quote, the apostrophe, the ampersand, the full stop, the comma and
    the question mark. *)
Definition is_word_punct (c : char) : bool :=
  (is_word_char c
   || (c =? 33) || (c =? 34) || (c =? 39) || (c =? 38)
   || (c =? 46) || (c =? 44) || (c =? 63))%N.

(** The longest prefix of [s] whose characters satisfy [p], and the rest. *)
Fixpoint span (p : char -> bool) (s : str) : str * str :=
  match s with
  | c :: rest =>
    if p c then let '(run, after) := span p rest in (c :: run, after)
    else ([], s)
  | [] => ([], [])
  end.

Definition is_hyphen (c : char) : bool := (c =? HYPHEN)%N.

(** [-{2,}\w] matches at the head of [rest]. *)
Definition emdash_ahead (rest : str) : bool :=
  let '(run, after) := span is_hyphen rest in
  (2 <=? length run)%nat
  && match after with c :: _ => is_word_char c | [] => false end.

(** [(?<=word_punct)]: [before] holds the text to the left, nearest first. *)
Definition after_word_punct (before : str) : bool :=
  match before with b :: _ => is_word_punct b | [] => false end.

(** [-(?: (?<=letter{2}-) | (?<=letter-letter-)) (?= letter -? letter)]
    at the head of [rest]. *)
Definition hyphen_break (before rest : str) : bool :=
  match rest with
  | h :: after =>
    is_hyphen h
    && match before with
       | b1 :: b2 :: older =>
         (is_letter b2 && is_letter b1)
         || match older with
            | b3 :: _ => is_letter b3 && is_hyphen b2 && is_letter b1
            | [] => false
            end
       | _ => false
       end
    && match after with
       | a1 :: a2 :: later =>
         is_letter a1
         && (if is_hyphen a2
             then match later with a3 :: _ => is_letter a3 | [] => false end
             else is_letter a2)
       | _ => false
       end
  | [] => false
  end.

(** [(?=whitespace|\Z)] *)
Definition end_of_word (rest : str) : bool :=
  match rest with c :: _ => is_whitespace c | [] => true end.

(** The third alternative of [wordsep_re] once its lazy [nowhitespace+?] has
    taken at least one character: at each length, in order, the hyphenated
    word, the end of the word, the em-dash; else one more character.
    Returns what is still matched from here on, and the text after the match. *)
Fixpoint word_rest (before rest : str) {struct rest} : str * str :=
  if hyphen_break before rest then ([HYPHEN], tl rest)
  else if end_of_word rest then ([], rest)
  else if after_word_punct before && emdash_ahead rest then ([], rest)
  else
    match rest with
    | c :: rest' =>
      let '(m, after) := word_rest (c :: before) rest' in (c :: m, after)
    | [] => ([], [])
    end.

(** One match of [wordsep_re] at the head of the non-empty text [c :: rest]:
    the three alternatives in the order the pattern lists them. The pattern
    matches at every position, so the match is the next chunk. *)
Definition wordsep_match (before : str) (c : char) (rest : str) : str * str :=
  if is_whitespace c then span is_whitespace (c :: rest)
  else if after_word_punct before && emdash_ahead (c :: rest)
  then span is_hyphen (c :: rest)
  else let '(m, after) := word_rest (c :: before) rest in (c :: m, after).

(** [wordsep_re.split(text)] without its empty strings, [fuel] matches at most. *)
Fixpoint split_from (fuel : nat) (before text : str) : list str :=
  match fuel, text with
  | S fuel', c :: rest =>
    let '(chunk, after) := wordsep_match before c rest in
    chunk :: split_from fuel' (rev chunk ++ before) after
  | _, _ => []
  end.

(** [_split], with [break_on_hyphens] true.  A match is never empty, so
    [length text] matches reach the end of the text. *)
Definition split (text : str) : list str := split_from (length text) [] text.

(** [_split_chunks] *)
Definition split_chunks (text : str) : list str := split (munge_whitespace text).

End Wordsep.

(** The inner [while chunks:] of [_wrap_chunks]: chunks go to the current
    line while they fit.  The head of [chunks] is the top of the reversed
    stack of the source. Returns the line, its length and the chunks left. *)
Fixpoint take_fitting (width : Z) (chunks cur_line : list str) (cur_len : Z)
  : list str * Z * list str :=
  match chunks with
  | [] => (cur_line, cur_len, [])
  | c :: below =>
    let l := len c in
    if (cur_len + l <=? width)%Z
    then take_fitting width below (cur_line ++ [c]) (cur_len + l)
    else (cur_line, cur_len, chunks)
  end.

(** [_handle_long_word], with [break_long_words] and [break_on_hyphens] true.
    Returns the chunks and the current line. *)
Definition handle_long_word (reversed_chunks cur_line : list str) (cur_len width : Z)
  : list str * list str :=
  let space_left := if (width <? 1)%Z then 1%Z else (width - cur_len)%Z in
  match reversed_chunks with
  | [] => (reversed_chunks, cur_line)
  | chunk :: below =>
    let end_ :=
      if (len chunk >? space_left)%Z then
        let hyphen := rfind chunk HYPHEN space_left in
        if (hyphen >? 0)%Z
           && existsb (fun c => negb (c =? HYPHEN)%N) (slice_to chunk hyphen)
        then (hyphen + 1)%Z else space_left
      else space_left in
    (slice_from chunk end_ :: below, cur_line ++ [slice_to chunk end_])
  end.

(** [sum(map(len, cur_line))] *)
Definition sum_len (cur_line : list str) : Z :=
  fold_right (fun c acc => (len c + acc)%Z) 0%Z cur_line.

(** One turn of the outer [while chunks:] of [_wrap_chunks] on a non-empty
    stack of chunks; [started] is the truth value of [lines].  Returns the
    line to append, if any, and the chunks left. *)
Definition wrap_line (width : Z) (started : bool) (chunks : list str)
  : option str * list str :=
  let chunks :=
    match chunks with
    | top :: below => if strip_is_empty top && started then below else chunks
    | [] => chunks
    end in
  let '(cur_line, cur_len, chunks) := take_fitting width chunks [] 0 in
  let '(chunks, cur_line, cur_len) :=
    match chunks with
    | top :: _ =>
      if (len top >? width)%Z then
        let '(chunks', cur_line') := handle_long_word chunks cur_line cur_len width in
        (chunks', cur_line', sum_len cur_line')
      else (chunks, cur_line, cur_len)
    | [] => (chunks, cur_line, cur_len)
    end in
  let cur_line :=
    match rev cur_line with
    | last_chunk :: _ =>
      if strip_is_empty last_chunk then removelast cur_line else cur_line
    | [] => cur_line
    end in
  match cur_line with
  | [] => (None, chunks)
  | _ => (Some (concat cur_line), chunks)
  end.

(** The outer loop, [fuel] turns at most. *)
Fixpoint wrap_lines (fuel : nat) (width : Z) (chunks lines : list str)
  : option (list str) :=
  match chunks with
  | [] => Some lines
  | _ :: _ =>
    match fuel with
    | O => None
    | S fuel' =>
      let '(line, chunks') := wrap_line width (negb (Nat.eqb (length lines) 0)) chunks in
      wrap_lines fuel' width chunks'
        (match line with Some l => lines ++ [l] | None => lines end)
    end
  end.

(** Every turn pops a chunk or shortens one: this many turns suffice. *)
Definition turns (chunks : list str) : nat :=
  length chunks + length (concat chunks).

(** [_wrap_chunks], with [max_lines] None and empty indents. *)
Definition wrap_chunks (width : Z) (chunks : list str) : result (list str) :=
  if (width <=? 0)%Z then Raise (ValueError_invalid_width width)
  else
    match wrap_lines (turns chunks) width chunks [] with
    | Some lines => Ok lines
    | None => OutOfFuel
    end.

(** [TextWrapper(width=width).wrap(text)] *)
Definition wrap (ucd : unicode_db) (text : str) (width : Z) : result (list str) :=
  wrap_chunks width (split_chunks ucd text).

(** [textwrap.fill(text, width=width)] *)
Definition fill (ucd : unicode_db) (text : str) (width : Z) : result str :=
  match wrap ucd text width with
  | Ok lines => Ok (join [LF] lines)
  | Raise e => Raise e
  | OutOfFuel => OutOfFuel
  end.

(** The text [fill] returns; the empty string when it raises. *)
Definition fill_text (ucd : unicode_db) (text : str) (width : Z) : str :=
  match fill ucd text width with
  | Ok tx => tx
  | _ => []
  end.

(** [text.split()] on [_whitespace]: the words of a text, a word being a
    longest run of characters that are not whitespace; [word] holds the
    current word, last character first. *)
Fixpoint words_from (word : str) (text : str) : list str :=
  match text with
  | [] => match word with [] => [] | _ => [rev word] end
  | c :: rest =>
    if is_whitespace c then
      match word with
      | [] => words_from [] rest
      | _ => rev word :: words_from [] rest
      end
    else words_from (c :: word) rest
  end.

Definition words (text : str) : list str := words_from [] text.

(** The text with its whitespace normalized: the words, one space between. *)
Definition normalized (text : str) : str := join [SPACE] (words text).

(** Tables for a text whose characters outside ASCII are neither letters nor
    digits, as the arrows and bullets of the captions of the script. *)
Definition symbols_only : unicode_db :=
  {| db_alnum := fun _ => false; db_decimal := fun _ => false |}.

(** The contract the specification gives the wrapper (section 4.3): the
    lines break at whitespace only, so the words of the lines are the words
    of the text, and a line is within the width or is a single word. *)
Definition breaks_at_whitespace_only (ucd : unicode_db) (text : str) (width : Z) : Prop :=
  exists lines,
    wrap ucd text width = Ok lines
    /\ concat (map words lines) = words text
    /\ Forall (fun l => (len l <= width)%Z \/ words l = [l]) lines.

(** The round trip of the specification (section 8): the lines, rejoined
    with single spaces, are the text with its whitespace normalized. *)
Definition rejoins_to_normalized (ucd : unicode_db) (text : str) (width : Z) : Prop :=
  exists lines,
    wrap ucd text width = Ok lines /\ join [SPACE] lines = normalized text.

(** [text.replace(newline, space)] *)
Definition newlines_to_spaces (text : str) : str :=
  map (fun c => if (c =? LF)%N then SPACE else c) text.

(** The line breaks of a caption do not count: every whitespace character
    is replaced by one space, and the lines are those of the caption with
    its newlines replaced by spaces. *)
Definition line_breaks_ignored (ucd : unicode_db) (text : str) (width : Z) : Prop :=
  munge_whitespace text = translate_whitespace text
  /\ wrap ucd text width = wrap ucd (newlines_to_spaces text) width.

(** A chunk that is a run of spaces, and a chunk that is a word: it holds
    no whitespace. *)
Definition blank_chunk (c : str) : bool :=
  negb (Nat.eqb (length c) 0) && forallb (fun ch => (ch =? SPACE)%N) c.

Definition word_chunk (c : str) : bool :=
  negb (Nat.eqb (length c) 0) && forallb (fun ch => negb (isspace ch)) c.

(** The word chunks of a list of chunks. *)
Definition word_chunks (chunks : list str) : list str := filter word_chunk chunks.

(** Every chunk is a run of spaces or a word, and no word follows a word;
    [after_word] tells that a word comes just before the list. *)
Fixpoint alternating (after_word : bool) (chunks : list str) : Prop :=
  match chunks with
  | [] => True
  | c :: rest =>
    (blank_chunk c = true /\ alternating false rest)
    \/ (word_chunk c = true /\ after_word = false /\ alternating true rest)
  end.

(** A text whose whitespace is ASCII whitespace and which holds no hyphen. *)
Definition plain_text (text : str) : Prop :=
  Forall (fun c => (isspace c = true -> is_whitespace c = true) /\ c <> HYPHEN) text.

(** The word being read, last character first, as a list of words. *)
Definition flush (word : str) : list str :=
  match word with [] => [] | _ => [rev word] end.

(** A character of a plain text after [_munge_whitespace]: a space or no
    whitespace at all, and no hyphen. *)
Definition munged_plain (c : char) : Prop :=
  (c = SPACE \/ isspace c = false) /\ c <> HYPHEN.

(** The chunks of a normalized text: its words with one space between. *)
Fixpoint interleave (ws : list str) : list str :=
  match ws with
  | [] => []
  | w :: rest =>
    match rest with
    | [] => [w]
    | _ :: _ => w :: [SPACE] :: interleave rest
    end
  end.

(** Words and single spaces in strict turn; [after_word] tells that a word
    comes just before the list. *)
Fixpoint tight (after_word : bool) (chunks : list str) : Prop :=
  match chunks with
  | [] => True
  | c :: rest =>
    (if after_word then c = [SPACE] else word_chunk c = true)
    /\ tight (negb after_word) rest
  end.

(** Whether a word comes just before what follows the chunks. *)
Fixpoint after (after_word : bool) (chunks : list str) : bool :=
  match chunks with
  | [] => after_word
  | _ :: rest => after (negb after_word) rest
  end.

(** A line made of words with one space between, and no space at either end. *)
Definition tight_line (l : str) : Prop :=
  exists kept, l = concat kept /\ tight false kept /\ after false kept = true.

(** *** Where the lines break

    A stretch of the chunks, as the lines hold it: the pieces that make up
    one line, or a piece that is left out of the lines. *)
Inductive segment : Set :=
| Line (kept : list str)
| Dropped (blank : str).

(** The pieces of a layout, in order, and its lines: a line is its pieces
    put end to end. *)
Definition pieces (layout : list segment) : list str :=
  flat_map (fun s => match s with Line kept => kept | Dropped blank => [blank] end) layout.

Definition lines_of (layout : list segment) : list str :=
  flat_map (fun s => match s with Line kept => [concat kept] | Dropped _ => [] end) layout.

(** A line holds at least one piece; a piece left out is whitespace. *)
Definition segment_ok (s : segment) : Prop :=
  match s with
  | Line kept => kept <> []
  | Dropped blank => strip_is_empty blank = true
  end.

(** The pieces of a line as one segment, when there are any. *)
Definition line_segment (kept : list str) : list segment :=
  match kept with [] => [] | _ => [Line kept] end.

(** [cut_long width chunks ps]: the pieces [ps] are the chunks, in order,
    each one whole or, when it is longer than [width], cut into two or more
    pieces. *)
Inductive cut_long (width : Z) : list str -> list str -> Prop :=
| cut_nil : cut_long width [] []
| cut_whole (c : str) (chunks ps : list str) :
    cut_long width chunks ps -> cut_long width (c :: chunks) (c :: ps)
| cut_piece (a b : str) (chunks ps : list str) :
    a <> [] -> b <> [] -> (width < len (a ++ b))%Z ->
    cut_long width (b :: chunks) ps -> cut_long width ((a ++ b) :: chunks) (a :: ps).




End TextWrap.

(** ** The diagram builder *)

Module Diagram.
Import PyStr.

(** The caption of line 76 of the script. *)
Definition waf_caption : str :=
  py "WAF / Bot evaluation\nSkip via custom rule when CF-Access headers present".

(** What a matplotlib call adds to the axes, with the arguments of the call
    that differ from one call to the next (colours, line styles and
    alignments are constants of the script). *)
Inductive artist : Type :=
| Line2D (xs ys : Q * Q) (linewidth : Q)
    (* ax.plot([x, x], [0.02, 0.98], linestyle=(0, (6, 6)), linewidth, color) *)
| Text (x y : Q) (s : str) (fontsize : Z) (bold boxed : bool)
    (* ax.text(x, y, s, ha='center', fontsize, fontweight | bbox) *)
| Annotation (xy xytext : Q * Q) (lw mutation_scale : Q).
    (* ax.annotate(empty text, xy=head, xytext=tail, arrowprops{"-|>", lw, mutation_scale}) *)

(** A page dimension: a Python number, which as a float may be infinite or
    not a number ([main] reads the page size with [type=float]). *)
Inductive number : Set :=
| Finite (q : Q)
| Infinity (negative : bool)
| NaN.

Coercion Finite : Q >-> number.
Bind Scope Q_scope with number.

(** [fig, ax]: the figure and the artists of its axes, in drawing order. *)
Record figure : Type := {
  figsize : number * number;
  axes : list artist
}.

(** The arguments of [build_diagram]. *)
Record config : Type := {
  width : number;
  height : number;
  title_font : Z;
  label_font : Z;
  wrap : Z;
  output : str
}.

(** The defaults of [build_diagram]. *)
Definition default_config : config := {|
  width := 40; height := 28; title_font := 16; label_font := 12;
  wrap := 50; output := py "postcode-flow.pdf"
|}.

(** What the run depends on outside the script: the Unicode tables, whether
    a path can be written, and the file formats for which the installed
    matplotlib has registered a canvas class of another backend
    ([get_registered_canvas_class(format.lower())]). *)
Record environment : Type := {
  ucd : TextWrap.unicode_db;
  writable : str -> bool;
  registered : str -> bool
}.

(** The state a run of [build_diagram] reads and writes. *)
Record state : Type := {
  fig : figure;                   (* the figure being drawn *)
  ys : list Q;                    (* what the iterator [ys] has left *)
  files : list (str * figure);    (* the files written, oldest first *)
  stdout : list str               (* the lines printed, oldest first *)
}.

(** A statement: it runs from a state to an outcome and a state. *)
Definition M (A : Type) : Type := state -> result A * state.

Definition ret {A} (a : A) : M A := fun st => (Ok a, st).

Definition bind {A B} (m : M A) (k : A -> M B) : M B :=
  fun st =>
    match m st with
    | (Ok a, st') => k a st'
    | (Raise e, st') => (Raise e, st')
    | (OutOfFuel, st') => (OutOfFuel, st')
    end.

Declare Scope py_scope.
Delimit Scope py_scope with py.
Notation "x <- m ;; k" := (bind m (fun x => k))
  (at level 61, m at next level, right associativity) : py_scope.
Notation "m ;; k" := (bind m (fun _ => k))
  (at level 61, right associativity) : py_scope.
Open Scope py_scope.

(** The outcome of a pure call, as a statement. *)
Definition lift {A} (r : result A) : M A := fun st => (r, st).

(** One more artist on the axes. *)
Definition draw (a : artist) : M unit :=
  fun st =>
    (Ok tt,
     {| fig := {| figsize := figsize (fig st); axes := axes (fig st) ++ [a] |};
        ys := ys st; files := files st; stdout := stdout st |}).

(** The test of [Figure.__init__] on each dimension of [figsize]:
    [np.isfinite(figsize).all()] and not [(np.array(figsize) < 0).any()]. *)
Definition finite_not_negative (n : number) : bool :=
  match n with
  | Finite q => Qle_bool 0 q
  | Infinity _ | NaN => false
  end.

Definition figure_size_ok (size : number * number) : bool :=
  finite_not_negative (fst size) && finite_not_negative (snd size).

(** [fig, ax = plt.subplots(figsize=(width, height)); ax.set_axis_off()]:
    the figure is refused with ValueError when a dimension is negative,
    infinite or not a number. *)
Definition subplots (size : number * number) : M unit :=
  fun st =>
    if figure_size_ok size then
      (Ok tt,
       {| fig := {| figsize := size; axes := [] |};
          ys := ys st; files := files st; stdout := stdout st |})
    else (Raise ValueError_figure_size, st).

(** [ys = iter(values)] *)
Definition iter (values : list Q) : M unit :=
  fun st =>
    (Ok tt, {| fig := fig st; ys := values; files := files st; stdout := stdout st |}).

(** [next(ys)] *)
Definition next : M Q :=
  fun st =>
    match ys st with
    | y :: rest =>
      (Ok y, {| fig := fig st; ys := rest; files := files st; stdout := stdout st |})
    | [] => (Raise StopIteration, st)
    end.

(** [print(line)] *)
Definition print (line : str) : M unit :=
  fun st =>
    (Ok tt,
     {| fig := fig st; ys := ys st; files := files st; stdout := stdout st ++ [line] |}).

Section Build.
Context (env : environment) (cfg : config).

(** The file name and the format [FigureCanvasBase.print_figure] settles on
    for a path given as a string: the format is the extension of the path,
    [os.path.splitext(filename)[1][1:]]; without one it is the default file
    type of the canvas ([matplotlib.use("pdf")] at line 22 makes it pdf) and
    the file name becomes [filename.rstrip('.') + '.' + format]. *)
Definition default_filetype : str := py "pdf".

Definition print_target (path : str) : str * str :=
  match slice_from (snd (splitext path)) 1 with
  | [] => (rstrip DOT path ++ DOT :: default_filetype, default_filetype)
  | format => (path, format)
  end.

(** Whether a print method is found for the format: [print_pdf] of the pdf
    canvas itself, or the canvas class registered for the format in lower
    case ([_switch_canvas_and_return_print_method]). *)
Definition has_print_method (format : str) : bool :=
  lower_is format (py "pdf") || registered env format.

(** [fig.savefig(output, bbox_inches="tight")]: ValueError for a format with
    no print method, before the file is opened; else the figure is written
    under the file name settled on, or OSError when that cannot be written.
    The rendering itself is taken to return normally. *)
Definition savefig (path : str) : M unit :=
  fun st =>
    let (filename, format) := print_target path in
    if has_print_method format then
      if writable env filename then
        (Ok tt,
         {| fig := fig st; ys := ys st;
            files := files st ++ [(filename, fig st)]; stdout := stdout st |})
      else (Raise OSError, st)
    else (Raise (ValueError_format format), st).

(** The [for x, label in lanes:] loop. *)
Fixpoint draw_lanes (lanes : list (Q * str)) : M unit :=
  match lanes with
  | [] => ret tt
  | (x, label) :: rest =>
    draw (Line2D (x, x) (0.02, 0.98) 1.5) ;;
    draw (Text x 0.99 label (title_font cfg) true false) ;;
    draw_lanes rest
  end.

Definition box_text (x y : Q) (text : str) : M unit :=
  tx <- lift (TextWrap.fill (ucd env) text (wrap cfg)) ;;
  draw (Text x y tx (label_font cfg) false true).

Definition arrow (x0 x1 y : Q) (text : str) : M unit :=
  draw (Annotation (x1, y) (x0, y) 2.5 15) ;;
  box_text ((x0 + x1) / 2.0) (y - 0.006) text.

(** Lane x positions *)
Definition x_client : Q := 0.10.
Definition x_edge : Q := 0.37.
Definition x_worker : Q := 0.65.
Definition x_os : Q := 0.90.

Definition lanes : list (Q * str) := [
  (x_client, py "Frontend");
  (x_edge, py "Cloudflare Edge");
  (x_worker, py "Worker (Edge)");
  (x_os, py "OS Places API")
].

(** Vertical positions *)
Definition ys_values : list Q := [
  0.96; 0.93; 0.90; 0.87; 0.84;
  0.80; 0.76; 0.72; 0.68; 0.64;
  0.60; 0.56; 0.52; 0.48; 0.44;
  0.40; 0.36; 0.32; 0.28; 0.24;
  0.20; 0.16; 0.12; 0.08
].

(** Sequence steps: the statements of lines 73 to 109. *)
Definition sequence_steps : M unit :=
  y <- next ;; arrow x_client x_edge y (py "GET /api/address-lookup?pc=CB97XU&dataset=LPI&maxresults=100") ;;
  y <- next ;; box_text x_edge y (py "WAF / Bot evaluation\nSkip via custom rule when CF-Access headers present") ;;
  y <- next ;; arrow x_edge x_client y (py "If blocked → 403 Cloudflare challenge page") ;;
  y <- next ;; box_text x_edge y (py "Access policy: Action = Service Auth\nValidate CF-Access-Client-Id/Secret (service token)") ;;
  y <- next ;; arrow x_edge x_client y (py "If missing/invalid → 302 to /cdn-cgi/access/login") ;;
  y <- next ;; arrow x_edge x_worker y (py "Service Auth OK → Route match /api/address-lookup/* (invoke Worker)") ;;
  y <- next ;; arrow x_client x_worker y (py "OPTIONS preflight (CORS) → 204 No Content") ;;
  y <- next ;; box_text x_worker y (py "Validate OS_PLACES_KEY • Parse + normalise postcode • Strict regex validation") ;;
  y <- next ;; box_text x_worker y (py "Build cache key (pc/dataset/max + allow-list hash)\nCanonicalise path with trailing '/'") ;;
  y <- next ;; arrow x_worker x_edge y (py "Edge cache lookup (caches.default.match)") ;;
  y <- next ;; arrow x_edge x_client y (py "If HIT → 200 JSON (filtered)\nHeaders: x-edge-cache: HIT, x-allowlist-hash, server-timing") ;;
  y <- next ;; box_text x_worker y (py "MISS → Build OS URL\nfq: LOGICAL_STATUS_CODE:1; LPI_LOGICAL_STATUS_CODE:1\npostal=1 → POSTAL_ADDRESS_CODE:(D L)") ;;
  y <- next ;; arrow x_worker x_os y (py "GET /search/places/v1/postcode") ;;
  y <- next ;; arrow x_os x_worker y (py "200 OK → Full JSON payload") ;;
  y <- next ;; box_text x_worker y (py "Filter allow-list (CLASSIFICATION_CODE)\nProject to Slim (LPI/DPA) • Add LSB_PROPERTY_TYPE") ;;
  y <- next ;; arrow x_worker x_edge y (py "Store at edge (caches.default.put)") ;;
  y <- next ;; arrow x_edge x_client y (py "200 JSON (filtered, slim)\nHeaders: x-edge-cache: MISS; cache-control: s-maxage; server-timing") ;;
  y <- next ;; arrow x_os x_worker y (py "401/403 (auth error)") ;;
  y <- next ;; arrow x_worker x_edge y (py "Try STALE from edge cache") ;;
  y <- next ;; arrow x_edge x_client y (py "Serve STALE 200 or 502 os_auth_failed") ;;
  y <- next ;; arrow x_worker x_os y (py "Timeout/Other error on fetch") ;;
  y <- next ;; arrow x_worker x_edge y (py "Try STALE from edge cache") ;;
  y <- next ;; arrow x_edge x_client y (py "Serve STALE 200 or 504 os_timeout").

Definition build_diagram : M unit :=
  subplots (width cfg, height cfg) ;;
  draw_lanes lanes ;;
  iter ys_values ;;
  sequence_steps ;;
  savefig (output cfg) ;;
  print (py "Saved: " ++ output cfg).

End Build.

(** *** The step sequence as data

    The specification describes the statements of [sequence_steps] as an
    ordered list of steps, each an arrow between two lanes or an annotation
    on one lane.  The list below follows that description; the script names
    a lane by the variable that holds its x position. *)

Inductive step : Type :=
| ArrowStep (source destination : Q) (caption : str)
| AnnotationStep (lane : Q) (caption : str).

Definition steps : list step := [
  ArrowStep x_client x_edge (py "GET /api/address-lookup?pc=CB97XU&dataset=LPI&maxresults=100");
  AnnotationStep x_edge (py "WAF / Bot evaluation\nSkip via custom rule when CF-Access headers present");
  ArrowStep x_edge x_client (py "If blocked → 403 Cloudflare challenge page");
  AnnotationStep x_edge (py "Access policy: Action = Service Auth\nValidate CF-Access-Client-Id/Secret (service token)");
  ArrowStep x_edge x_client (py "If missing/invalid → 302 to /cdn-cgi/access/login");
  ArrowStep x_edge x_worker (py "Service Auth OK → Route match /api/address-lookup/* (invoke Worker)");
  ArrowStep x_client x_worker (py "OPTIONS preflight (CORS) → 204 No Content");
  AnnotationStep x_worker (py "Validate OS_PLACES_KEY • Parse + normalise postcode • Strict regex validation");
  AnnotationStep x_worker (py "Build cache key (pc/dataset/max + allow-list hash)\nCanonicalise path with trailing '/'");
  ArrowStep x_worker x_edge (py "Edge cache lookup (caches.default.match)");
  ArrowStep x_edge x_client (py "If HIT → 200 JSON (filtered)\nHeaders: x-edge-cache: HIT, x-allowlist-hash, server-timing");
  AnnotationStep x_worker (py "MISS → Build OS URL\nfq: LOGICAL_STATUS_CODE:1; LPI_LOGICAL_STATUS_CODE:1\npostal=1 → POSTAL_ADDRESS_CODE:(D L)");
  ArrowStep x_worker x_os (py "GET /search/places/v1/postcode");
  ArrowStep x_os x_worker (py "200 OK → Full JSON payload");
  AnnotationStep x_worker (py "Filter allow-list (CLASSIFICATION_CODE)\nProject to Slim (LPI/DPA) • Add LSB_PROPERTY_TYPE");
  ArrowStep x_worker x_edge (py "Store at edge (caches.default.put)");
  ArrowStep x_edge x_client (py "200 JSON (filtered, slim)\nHeaders: x-edge-cache: MISS; cache-control: s-maxage; server-timing");
  ArrowStep x_os x_worker (py "401/403 (auth error)");
  ArrowStep x_worker x_edge (py "Try STALE from edge cache");
  ArrowStep x_edge x_client (py "Serve STALE 200 or 502 os_auth_failed");
  ArrowStep x_worker x_os (py "Timeout/Other error on fetch");
  ArrowStep x_worker x_edge (py "Try STALE from edge cache");
  ArrowStep x_edge x_client (py "Serve STALE 200 or 504 os_timeout")
].

Section Steps.
Context (env : environment) (cfg : config).

(** The call a step stands for, at the height [y]. *)
Definition draw_step (s : step) (y : Q) : M unit :=
  match s with
  | ArrowStep x0 x1 text => arrow env cfg x0 x1 y text
  | AnnotationStep x text => box_text env cfg x y text
  end.

(** The statements a list of steps stands for: [y = next(ys)], then the call. *)
Fixpoint run_steps (l : list step) : M unit :=
  match l with
  | [] => ret tt
  | [s] => y <- next ;; draw_step s y
  | s :: rest => y <- next ;; draw_step s y ;; run_steps rest
  end.

(** The caption of a box as drawn. *)
Definition caption_text (text : str) : str :=
  TextWrap.fill_text (ucd env) text (wrap cfg).

(** What a step puts on the axes when its calls return. *)
Definition step_artists (s : step) (y : Q) : list artist :=
  match s with
  | ArrowStep x0 x1 text =>
    [Annotation (x1, y) (x0, y) 2.5 15;
     Text ((x0 + x1) / 2.0) (y - 0.006) (caption_text text) (label_font cfg) false true]
  | AnnotationStep x text =>
    [Text x y (caption_text text) (label_font cfg) false true]
  end.

(** What the lane loop puts on the axes. *)
Definition lane_artists : list artist :=
  flat_map (fun lane : Q * str =>
              [Line2D (fst lane, fst lane) (0.02, 0.98) 1.5;
               Text (fst lane) 0.99 (snd lane) (title_font cfg) true false])
           lanes.

(** The artists of the steps [l] drawn at the heights [heights], step by step. *)
Fixpoint rendered (l : list step) (heights : list Q) : list (list artist) :=
  match l, heights with
  | s :: l', y :: heights' => step_artists s y :: rendered l' heights'
  | _, _ => []
  end.

End Steps.

(** The heights an artist is anchored at. *)
Definition artist_ys (a : artist) : list Q :=
  match a with
  | Line2D _ (y0, y1) _ => [y0; y1]
  | Text _ y _ _ _ _ => [y]
  | Annotation (_, y1) (_, y0) _ _ => [y1; y0]
  end.

(** The heights a step is drawn at, from its slot [y]: the arrow's two ends
    and its caption, or the annotation. *)
Definition step_ys (s : step) (y : Q) : list Q :=
  match s with
  | ArrowStep _ _ _ => [y; y; y - 0.006]
  | AnnotationStep _ _ => [y]
  end.

(** The heights of the steps [l] drawn at the slots [heights]. *)
Fixpoint rendered_ys (l : list step) (heights : list Q) : list (list Q) :=
  match l, heights with
  | s :: l', y :: heights' => step_ys s y :: rendered_ys l' heights'
  | _, _ => []
  end.

(** [a < b], decided. *)
Definition Qltb (a b : Q) : bool := (Qnum a * QDen b <? Qnum b * QDen a)%Z.

Definition aboveb (upper lower : list Q) : bool :=
  forallb (fun yu => forallb (fun yl => Qltb yl yu) lower) upper.

(** Each group of heights is above the next one. *)
Fixpoint stackedb (groups : list (list Q)) : bool :=
  match groups with
  | upper :: rest =>
    match rest with
    | lower :: _ => aboveb upper lower && stackedb rest
    | [] => true
    end
  | [] => true
  end.

(** Every height of [upper] is strictly greater than every height of [lower]. *)
Definition above (upper lower : list Q) : Prop :=
  forall yu yl, In yu upper -> In yl lower -> yl < yu.

(** Each value is strictly smaller than the one before. *)
Fixpoint strictly_decreasing (l : list Q) : Prop :=
  match l with
  | a :: rest =>
    match rest with
    | b :: _ => b < a /\ strictly_decreasing rest
    | [] => True
    end
  | [] => True
  end.

(** The differences between neighbours, [l[i] - l[i+1]]. *)
Fixpoint gaps (l : list Q) : list Q :=
  match l with
  | a :: rest =>
    match rest with
    | b :: _ => (a - b) :: gaps rest
    | [] => []
    end
  | [] => []
  end.

(** [n] calls of [next(ys)], with the values they return. *)
Fixpoint next_n (n : nat) : M (list Q) :=
  match n with
  | O => ret []
  | S n' => y <- next ;; rest <- next_n n' ;; ret (y :: rest)
  end.



(** The slot list as the specification words it (sections 4.2 and 8), to be
    compared with [ys_values]: the slots start at [top] and go down by
    [spacing], and there are floor((top - bottom) / spacing) + 1 of them. *)
Definition allocator_slots (top bottom spacing : Q) : list Q :=
  map (fun i : nat => top - inject_Z (Z.of_nat i) * spacing)
      (seq 0 (Z.to_nat (Qfloor ((top - bottom) / spacing)) + 1)).

(** [st'] is [st] with the artists [new] drawn on the axes: the figure size,
    the files and the printed lines are those of [st]. *)
Definition drew (st : state) (new : list artist) (st' : state) : Prop :=
  axes (fig st') = axes (fig st) ++ new
  /\ figsize (fig st') = figsize (fig st)
  /\ files st' = files st
  /\ stdout st' = stdout st.

(** The state when the first step starts: the lanes drawn on a new figure,
    the slots untouched. *)
Definition lanes_drawn (cfg : config) (st : state) : state :=
  {| fig := {| figsize := (width cfg, height cfg); axes := lane_artists cfg |};
     ys := ys_values; files := files st; stdout := stdout st |}.

(** The artists on the axes when a run that got its figure stops: with a
    wrap width that is not positive, the lanes and the line of the first
    arrow; else the lanes and every step. *)
Definition final_axes (env : environment) (cfg : config) : list artist :=
  if (wrap cfg <=? 0)%Z
  then lane_artists cfg ++ [Annotation (x_edge, 0.96) (x_client, 0.96) 2.5 15]
  else lane_artists cfg ++ concat (rendered env cfg steps ys_values).

(** The file types matplotlib registers by default for the backends other
    than pdf ([_default_backends]). *)
Definition default_filetypes : list str :=
  [py "eps"; py "jpg"; py "jpeg"; py "pgf"; py "png"; py "ps"; py "raw";
   py "rgba"; py "svg"; py "svgz"; py "tif"; py "tiff"; py "webp"].

(** An environment where every path can be written and the default file
    types are registered, and a state with no file and no output yet. *)
Definition plain_env : environment :=
  {| ucd := TextWrap.symbols_only;
     writable := fun _ => true;
     registered := fun format => existsb (lower_is format) default_filetypes |}.

Definition fresh_state : state :=
  {| fig := {| figsize := (Finite 0, Finite 0); axes := [] |};
     ys := []; files := []; stdout := [] |}.

(** The file name [savefig] writes for a path, whether it writes the figure
    (a print method for the format, and a file name that can be written),
    and the exception it raises when it does not. *)
Definition saved_name (path : str) : str := fst (print_target path).

Definition saves (env : environment) (path : str) : bool :=
  has_print_method env (snd (print_target path)) && writable env (saved_name path).

Definition savefig_error (env : environment) (path : str) : exn :=
  if has_print_method env (snd (print_target path)) then OSError
  else ValueError_format (snd (print_target path)).

(** The arguments [main] passes when the command line gives none. *)
Definition main_defaults : config := {|
  width := 20.0; height := 14.0; title_font := 16; label_font := 12;
  wrap := 50; output := py "postcode-flow.pdf"
|}.

(** *** Positions

    What the lane loop draws for the lanes [l]: a guide line and a title each. *)
Definition guide_artists (cfg : config) (l : list (Q * str)) : list artist :=
  flat_map (fun lane : Q * str =>
              [Line2D (fst lane, fst lane) (0.02, 0.98) 1.5;
               Text (fst lane) 0.99 (snd lane) (title_font cfg) true false])
           l.

(** The points an artist is anchored at: the two ends of a line, the centre
    of a text, the tail and the head of an arrow. *)
Definition anchors (a : artist) : list (Q * Q) :=
  match a with
  | Line2D (x0, x1) (y0, y1) _ => [(x0, y0); (x1, y1)]
  | Text x y _ _ _ _ => [(x, y)]
  | Annotation head tail _ _ => [tail; head]
  end.

(** The points of a step drawn at the slot [y]. *)
Definition step_anchors (s : step) (y : Q) : list (Q * Q) :=
  match s with
  | ArrowStep x0 x1 _ => [(x0, y); (x1, y); ((x0 + x1) / 2.0, y - 0.006)]
  | AnnotationStep x _ => [(x, y)]
  end.

Fixpoint rendered_anchors (l : list step) (heights : list Q) : list (Q * Q) :=
  match l, heights with
  | s :: l', y :: heights' => step_anchors s y ++ rendered_anchors l' heights'
  | _, _ => []
  end.

(** [a <= b], decided. *)
Definition Qleb (a b : Q) : bool := (Qnum a * QDen b <=? Qnum b * QDen a)%Z.

(** The point lies between the outer lanes and strictly between the ends
    of the guide lines. *)
Definition inside_guides (p : Q * Q) : bool :=
  Qleb x_client (fst p) && Qleb (fst p) x_os
  && Qltb 0.02 (snd p) && Qltb (snd p) 0.98.

End Diagram.

(** * Facts *)

(** ** Python strings *)

Module PyStrFacts.
Import PyStr.

Lemma len_nonneg (s : str) : (0 <= len s)%Z.
Proof. unfold len. lia. Qed.

Lemma len_app (s t : str) : len (s ++ t) = (len s + len t)%Z.
Proof. unfold len. rewrite length_app. lia. Qed.

Lemma len_nil_iff (s : str) : len s = 0%Z <-> s = [].
Proof.
  unfold len. destruct s as [|c s]; simpl; split; intro H;
    try reflexivity; discriminate.
Qed.

(** A slice and its complement make up the string. *)
Lemma slice_to_from (s : str) (i : Z) : slice_to s i ++ slice_from s i = s.
Proof. unfold slice_to, slice_from. apply firstn_skipn. Qed.

Lemma len_slice_to (s : str) (i : Z) :
  (0 <= i <= len s)%Z -> len (slice_to s i) = i.
Proof.
  intros [H0 H1]. unfold slice_to.
  destruct (Z.ltb_spec i 0) as [Hneg|_]; [lia|].
  unfold len in *. rewrite length_firstn. lia.
Qed.

Lemma len_slice_from (s : str) (i : Z) :
  (0 <= i <= len s)%Z -> len (slice_from s i) = (len s - i)%Z.
Proof.
  intros [H0 H1]. unfold slice_from.
  destruct (Z.ltb_spec i 0) as [Hneg|_]; [lia|].
  unfold len in *. rewrite length_skipn. lia.
Qed.

(** [rfind] answers -1 or an index below the bound. *)
Lemma rfind_from_range (c : char) (s : str) (i found : Z) :
  let r := rfind_from c s i found in
  r = found \/ (i <= r < i + len s)%Z.
Proof.
  revert i found. induction s as [|x s IH]; intros i found; simpl.
  - left; reflexivity.
  - destruct (IH (i + 1)%Z (if (x =? c)%N then i else found)) as [E|R].
    + rewrite E. destruct (x =? c)%N; [right|left; reflexivity].
      unfold len; simpl length. lia.
    + right. unfold len in *; simpl length. lia.
Qed.

Lemma rfind_range (s : str) (c : char) (stop : Z) :
  (0 <= stop)%Z ->
  rfind s c stop = (-1)%Z \/ (0 <= rfind s c stop < stop)%Z.
Proof.
  intros Hstop. unfold rfind.
  destruct (rfind_from_range c (slice_to s stop) 0 (-1)) as [E|R]; [left; exact E|right].
  assert (len (slice_to s stop) <= stop)%Z.
  { unfold slice_to. destruct (Z.ltb_spec stop 0); [lia|].
    unfold len. rewrite length_firstn. lia. }
  lia.
Qed.

(** Whitespace-only strings. *)
Lemma strip_is_empty_app (s t : str) :
  strip_is_empty (s ++ t) = strip_is_empty s && strip_is_empty t.
Proof. unfold strip_is_empty. apply forallb_app. Qed.

(** The characters of a string that are not whitespace, in order. *)
Lemma filter_not_space_blank (s : str) :
  strip_is_empty s = true -> filter (fun c => negb (isspace c)) s = [].
Proof.
  unfold strip_is_empty. induction s as [|c s IH]; simpl; [reflexivity|].
  intros H. apply andb_prop in H as [Hc Hs]. rewrite Hc. simpl. auto.
Qed.

Lemma join_space_not_space (lines : list str) :
  filter (fun c => negb (isspace c)) (join [SPACE] lines)
  = filter (fun c => negb (isspace c)) (concat lines).
Proof.
  induction lines as [|l rest IH]; [reflexivity|].
  destruct rest as [|l' rest].
  - simpl. now rewrite app_nil_r.
  - change (join [SPACE] (l :: l' :: rest))
      with (l ++ [SPACE] ++ join [SPACE] (l' :: rest)).
    change (concat (l :: l' :: rest)) with (l ++ concat (l' :: rest)).
    rewrite !filter_app, IH. reflexivity.
Qed.

Lemma expandtabs_from_no_tab (tabsize col : N) (s : str) :
  Forall (fun c => c <> TAB) s -> expandtabs_from tabsize col s = s.
Proof.
  intros H. revert col. induction H as [|c s Hc Hs IH]; intros col; simpl.
  - reflexivity.
  - destruct (N.eqb_spec c TAB) as [E|_]; [contradiction|]. now rewrite IH.
Qed.

Lemma expandtabs_from_not_space (tabsize col : N) (s : str) :
  filter (fun c => negb (isspace c)) (expandtabs_from tabsize col s)
  = filter (fun c => negb (isspace c)) s.
Proof.
  revert col. induction s as [|c s IH]; intros col; simpl; [reflexivity|].
  destruct (N.eqb_spec c TAB) as [E|NE].
  - subst c. simpl. destruct (0 <? tabsize)%N.
    + rewrite filter_app, IH.
      assert (forall n, filter (fun c => negb (isspace c)) (repeat SPACE n) = []) as ->.
      { induction n; simpl; auto. }
      reflexivity.
    + apply IH.
  - simpl. rewrite IH. reflexivity.
Qed.

End PyStrFacts.

(** ** The chunks of a text *)

Module SplitFacts.
Import PyStr TextWrap PyStrFacts.

Section WithTables.
Context (ucd : unicode_db).

Lemma span_app (p : char -> bool) (s run after : str) :
  span p s = (run, after) -> run ++ after = s.
Proof.
  revert run after. induction s as [|c s IH]; intros run after; simpl.
  - intros [= <- <-]. reflexivity.
  - destruct (p c).
    + destruct (span p s) as [run' after'] eqn:E.
      intros [= <- <-]. simpl. f_equal. now apply IH.
    + intros [= <- <-]. reflexivity.
Qed.

Lemma span_head (p : char -> bool) (c : char) (s : str) :
  p c = true -> exists run after, span p (c :: s) = (c :: run, after).
Proof.
  intros H. simpl. rewrite H. destruct (span p s) as [run after]. eauto.
Qed.

(** What the lazy word alternative matches is a prefix of the text. *)
Lemma word_rest_app (before rest m after : str) :
  word_rest ucd before rest = (m, after) -> m ++ after = rest.
Proof.
  revert before m after. induction rest as [|c rest IH]; intros before m after.
  - cbn. intros [= <- <-]. reflexivity.
  - cbn [word_rest].
    destruct (hyphen_break ucd before (c :: rest)) eqn:Hh.
    + intros [= <- <-]. simpl.
      unfold hyphen_break in Hh.
      apply andb_prop in Hh as [Hh _]. apply andb_prop in Hh as [Hh _].
      unfold is_hyphen in Hh. apply N.eqb_eq in Hh. now subst c.
    + destruct (end_of_word (c :: rest)); [intros [= <- <-]; reflexivity|].
      destruct (after_word_punct ucd before && emdash_ahead ucd (c :: rest));
        [intros [= <- <-]; reflexivity|].
      destruct (word_rest ucd (c :: before) rest) as [m' after'] eqn:E.
      intros [= <- <-]. simpl. f_equal. now apply (IH (c :: before)).
Qed.

(** A match of [wordsep_re] is a non-empty prefix of the text. *)
Lemma wordsep_match_spec (before : str) (c : char) (rest chunk after : str) :
  wordsep_match ucd before c rest = (chunk, after) ->
  chunk ++ after = c :: rest /\ chunk <> [].
Proof.
  unfold wordsep_match.
  destruct (is_whitespace c) eqn:Hws.
  - destruct (span_head is_whitespace c rest Hws) as (run & aft & E).
    intros H. pose proof (span_app _ _ _ _ H) as Happ.
    rewrite E in H. injection H as <- <-. split; [exact Happ|discriminate].
  - destruct (after_word_punct ucd before && emdash_ahead ucd (c :: rest)) eqn:Hem.
    + apply andb_prop in Hem as [_ Hem].
      intros H. pose proof (span_app _ _ _ _ H) as Happ. split; [exact Happ|].
      unfold emdash_ahead in Hem. rewrite H in Hem.
      intros ->. simpl in Hem. discriminate.
    + destruct (word_rest ucd (c :: before) rest) as [m aft] eqn:E.
      intros [= <- <-]. split; [|discriminate].
      simpl. f_equal. now apply (word_rest_app (c :: before)).
Qed.

(** The chunks, put end to end, are the text: the split loses nothing. *)
Lemma split_from_concat (fuel : nat) (before text : str) :
  (length text <= fuel)%nat -> concat (split_from ucd fuel before text) = text.
Proof.
  revert before text. induction fuel as [|fuel IH]; intros before text Hlen.
  - destruct text; [reflexivity|simpl in Hlen; lia].
  - destruct text as [|c rest]; [reflexivity|].
    cbn [split_from].
    destruct (wordsep_match ucd before c rest) as [chunk after] eqn:E.
    destruct (wordsep_match_spec _ _ _ _ _ E) as [Happ Hne].
    simpl. rewrite IH; [exact Happ|].
    apply (f_equal (@length char)) in Happ. rewrite length_app in Happ.
    simpl in Happ, Hlen. destruct chunk; [contradiction|simpl in Happ; lia].
Qed.

Lemma split_concat (text : str) : concat (split ucd text) = text.
Proof. unfold split. apply split_from_concat. lia. Qed.

End WithTables.

(** Tab expansion and whitespace replacement change whitespace only. *)
Lemma is_whitespace_isspace (c : char) : is_whitespace c = true -> isspace c = true.
Proof.
  unfold is_whitespace, TAB, LF, VT, FF, CR, SPACE. intros H.
  repeat (apply orb_prop in H as [H|H]); apply N.eqb_eq in H; subst c; reflexivity.
Qed.

Lemma translate_whitespace_not_space (s : str) :
  filter (fun c => negb (isspace c)) (translate_whitespace s)
  = filter (fun c => negb (isspace c)) s.
Proof.
  unfold translate_whitespace. induction s as [|c s IH]; simpl; [reflexivity|].
  destruct (is_whitespace c) eqn:E.
  - rewrite (is_whitespace_isspace c E). simpl. exact IH.
  - now rewrite IH.
Qed.

Lemma munge_whitespace_not_space (text : str) :
  filter (fun c => negb (isspace c)) (munge_whitespace text)
  = filter (fun c => negb (isspace c)) text.
Proof.
  unfold munge_whitespace, expandtabs.
  rewrite translate_whitespace_not_space. apply expandtabs_from_not_space.
Qed.

(** After [_munge_whitespace] the only whitespace left is the space. *)
Lemma translate_whitespace_only_space (s : str) :
  Forall (fun c => is_whitespace c = true -> c = SPACE) (translate_whitespace s).
Proof.
  unfold translate_whitespace. induction s as [|c s IH]; simpl; constructor; auto.
  destruct (is_whitespace c) eqn:E; [reflexivity|]. intros H; congruence.
Qed.

End SplitFacts.

(** ** The lines of [_wrap_chunks] *)

Module WrapFacts.
Import PyStr TextWrap PyStrFacts.
Local Open Scope Z_scope.

Lemma sum_len_app (a b : list str) : sum_len (a ++ b) = sum_len a + sum_len b.
Proof. unfold sum_len. induction a as [|c a IH]; simpl; [reflexivity|]. rewrite IH. lia. Qed.

Lemma sum_len_nonneg (a : list str) : 0 <= sum_len a.
Proof.
  induction a as [|c a IH]; simpl; [lia|]. pose proof (len_nonneg c). lia.
Qed.

Lemma len_concat (a : list str) : len (concat a) = sum_len a.
Proof.
  induction a as [|c a IH]; simpl; [reflexivity|]. rewrite len_app, IH. reflexivity.
Qed.

Lemma turns_cons (c : str) (l : list str) :
  turns (c :: l) = (S (length c) + turns l)%nat.
Proof. unfold turns. simpl. rewrite length_app. lia. Qed.

Lemma turns_app (a b : list str) : turns (a ++ b) = (turns a + turns b)%nat.
Proof.
  induction a as [|c a IH]; [reflexivity|].
  simpl app. rewrite !turns_cons, IH. lia.
Qed.

(** The inner loop moves a prefix of the chunks to the line, and stops at
    the first chunk that does not fit. *)
Lemma take_fitting_spec (width : Z) (chunks cur_line : list str) (cur_len : Z)
      (cl : list str) (n : Z) (ch : list str) :
  take_fitting width chunks cur_line cur_len = (cl, n, ch) ->
  exists taken,
    cl = cur_line ++ taken /\ chunks = taken ++ ch
    /\ n = cur_len + sum_len taken
    /\ (cur_len <= width -> n <= width)
    /\ match ch with [] => True | c :: _ => width < n + len c end.
Proof.
  revert cur_line cur_len. induction chunks as [|c below IH]; intros cur_line cur_len; simpl.
  - intros [= <- <- <-]. exists []. rewrite app_nil_r. simpl. repeat split; lia.
  - destruct (Z.leb_spec (cur_len + len c) width) as [Hfit|Hnofit].
    + intros H. destruct (IH _ _ H) as (taken & -> & -> & -> & Hle & Hstop).
      exists (c :: taken). rewrite <- app_assoc. simpl.
      repeat split; try lia; auto.
    + intros [= <- <- <-]. exists []. rewrite app_nil_r. simpl. repeat split; lia.
Qed.

(** A chunk too long for any line gives the line a piece that fits in the
    room left, at least one character on an empty line. *)
Lemma handle_long_word_spec (top : str) (below cur_line : list str) (cur_len width : Z) :
  1 <= width -> 0 <= cur_len <= width -> width < len top ->
  exists piece rest,
    handle_long_word (top :: below) cur_line cur_len width
    = (rest :: below, cur_line ++ [piece])
    /\ piece ++ rest = top
    /\ len piece <= width - cur_len
    /\ (cur_len < width -> 1 <= len piece).
Proof.
  intros Hw Hcur Hlong. unfold handle_long_word.
  destruct (Z.ltb_spec width 1) as [?|_]; [lia|].
  set (space_left := width - cur_len).
  set (end_ := if len top >? space_left
               then if (rfind top HYPHEN space_left >? 0)
                       && existsb (fun c => negb (c =? HYPHEN)%N)
                            (slice_to top (rfind top HYPHEN space_left))
                    then rfind top HYPHEN space_left + 1 else space_left
               else space_left).
  assert (Hend : 0 <= end_ <= space_left /\ (1 <= space_left -> 1 <= end_)).
  { subst end_. destruct (len top >? space_left); [|lia].
    destruct ((rfind top HYPHEN space_left >? 0) && _) eqn:E; [|lia].
    apply andb_prop in E as [E _]. apply Z.gtb_lt in E.
    destruct (rfind_range top HYPHEN space_left) as [R|R]; subst space_left; lia. }
  exists (slice_to top end_), (slice_from top end_).
  split; [reflexivity|]. split; [apply slice_to_from|].
  rewrite len_slice_to by (subst space_left; lia).
  subst space_left. lia.
Qed.

(** Dropping the last chunk of the line, when it is blank. *)
Lemma drop_trailing_blank (cur_line : list str) :
  let kept :=
    match rev cur_line with
    | last_chunk :: _ =>
      if strip_is_empty last_chunk then removelast cur_line else cur_line
    | [] => cur_line
    end in
  exists post, concat cur_line = concat kept ++ post /\ strip_is_empty post = true.
Proof.
  destruct (rev cur_line) as [|last_chunk before] eqn:E; cbn zeta.
  - exists []. now rewrite app_nil_r.
  - destruct (strip_is_empty last_chunk) eqn:Hblank.
    + apply (f_equal (@rev str)) in E. rewrite rev_involutive in E. simpl in E.
      subst cur_line. rewrite removelast_last, concat_app. simpl.
      exists last_chunk. now rewrite app_nil_r.
    + exists []. now rewrite app_nil_r.
Qed.

(** One turn of the outer loop: the chunks are a blank, the line, a blank
    and the chunks left; the line fits the width; fewer turns remain. *)
Lemma wrap_line_spec (width : Z) (started : bool) (chunks : list str)
      (line : option str) (chunks' : list str) :
  1 <= width -> chunks <> [] ->
  wrap_line width started chunks = (line, chunks') ->
  exists pre body post,
    concat chunks = pre ++ body ++ post ++ concat chunks'
    /\ strip_is_empty pre = true /\ strip_is_empty post = true
    /\ len body <= width
    /\ (line = Some body \/ (line = None /\ body = []))
    /\ (turns chunks' < turns chunks)%nat.
Proof.
  intros Hw Hne. unfold wrap_line.
  (* the blank chunk dropped at the start of a line *)
  set (chunks1 := match chunks with
                  | top :: below => if strip_is_empty top && started then below else chunks
                  | [] => chunks end).
  assert (H1 : exists pre, concat chunks = pre ++ concat chunks1
                           /\ strip_is_empty pre = true
                           /\ (turns chunks1 <= turns chunks)%nat
                           /\ (chunks1 = chunks \/ (turns chunks1 < turns chunks)%nat)).
  { subst chunks1. destruct chunks as [|top below]; [contradiction|].
    destruct (strip_is_empty top && started) eqn:E.
    - apply andb_prop in E as [E _]. exists top. rewrite turns_cons. simpl.
      repeat split; auto; try lia; try (right; lia).
    - exists []. simpl. repeat split; auto. }
  destruct H1 as (pre & Hpre & Hblank & Hturns1 & Hsame).
  destruct (take_fitting width chunks1 [] 0) as [[cur_line cur_len] chunks2] eqn:Etake.
  destruct (take_fitting_spec _ _ _ _ _ _ _ Etake) as (taken & Hcl & Hch & Hn & Hle & Hstop).
  simpl in Hcl. subst cur_line. simpl in Hn. subst cur_len.
  specialize (Hle ltac:(lia)). pose proof (sum_len_nonneg taken) as Hnn.
  (* the long word *)
  set (r := match chunks2 with
            | top :: _ =>
              if len top >? width then
                let '(chunks', cur_line') := handle_long_word chunks2 taken (sum_len taken) width in
                (chunks', cur_line', sum_len cur_line')
              else (chunks2, taken, sum_len taken)
            | [] => (chunks2, taken, sum_len taken)
            end).
  assert (H3 : exists chunks3 cur_line3,
             r = (chunks3, cur_line3, sum_len cur_line3)
             /\ concat taken ++ concat chunks2 = concat cur_line3 ++ concat chunks3
             /\ sum_len cur_line3 <= width
             /\ (turns chunks3 <= turns chunks2)%nat
             /\ (taken = [] -> chunks2 <> [] -> (turns chunks3 < turns chunks2)%nat)).
  { subst r. destruct chunks2 as [|top below2].
    - exists [], taken. repeat split; auto. intros _ Habs; contradiction.
    - destruct (Z.gtb_spec (len top) width) as [Hlong|Hshort].
      + destruct (handle_long_word_spec top below2 taken (sum_len taken) width)
          as (piece & rest & -> & Hsplit & Hroom & Hone); try lia.
        exists (rest :: below2), (taken ++ [piece]).
        rewrite concat_app, sum_len_app. simpl. rewrite app_nil_r, <- Hsplit.
        rewrite !turns_cons, length_app.
        repeat split; try lia.
        * now rewrite <- !app_assoc.
        * intros -> _. simpl in Hone. specialize (Hone ltac:(lia)).
          unfold len in Hone. lia.
      + exists (top :: below2), taken. repeat split; auto.
        intros -> _. simpl in Hstop. lia. }
  destruct H3 as (chunks3 & cur_line3 & -> & Hsplit3 & Hfit3 & Hturns3 & Hstrict3).
  (* the blank chunk dropped at the end of the line *)
  destruct (drop_trailing_blank cur_line3) as (post & Hpost & Hpostblank).
  cbn zeta in Hpost.
  set (kept := match rev cur_line3 with
               | last_chunk :: _ =>
                 if strip_is_empty last_chunk then removelast cur_line3 else cur_line3
               | [] => cur_line3 end) in *.
  intros Hres.
  assert (Hres' : line = match kept with [] => None | _ => Some (concat kept) end
                  /\ chunks' = chunks3).
  { destruct kept; injection Hres as <- <-; split; reflexivity. }
  clear Hres. destruct Hres' as [Hline ->].
  exists pre, (concat kept), post.
  assert (Hlen : len (concat kept) <= width).
  { apply (f_equal len) in Hpost. rewrite len_app, !len_concat in Hpost.
    pose proof (len_nonneg post). rewrite len_concat. lia. }
  repeat split; auto.
  - rewrite Hpre, Hch, concat_app, Hsplit3, Hpost. now rewrite <- !app_assoc.
  - destruct kept; [right|left]; auto.
  - rewrite Hch, turns_app in *. destruct Hsame as [Hsame|Hlt].
    + destruct taken as [|t taken'].
      * simpl in *. rewrite Hsame in Hch. subst chunks2.
        specialize (Hstrict3 eq_refl Hne). lia.
      * rewrite turns_cons in *. lia.
    + lia.
Qed.

(** The loop ends within its fuel. *)
Lemma wrap_lines_total (width : Z) (fuel : nat) :
  1 <= width ->
  forall chunks lines, (turns chunks <= fuel)%nat ->
  exists ls, wrap_lines fuel width chunks lines = Some ls.
Proof.
  intros Hw. induction fuel as [|fuel IH]; intros chunks lines Hfuel.
  - destruct chunks as [|c l]; [simpl; eauto|]. rewrite turns_cons in Hfuel. lia.
  - destruct chunks as [|c l]; [simpl; eauto|].
    cbn [wrap_lines].
    destruct (wrap_line width _ (c :: l)) as [line chunks'] eqn:E.
    assert (Hne : c :: l <> []) by discriminate.
    destruct (wrap_line_spec _ _ _ _ _ Hw Hne E)
      as (_ & _ & _ & _ & _ & _ & _ & _ & Hturns).
    apply IH. lia.
Qed.

(** What the loop appends: lines that fit the width, made of the characters
    of the chunks, in order, blanks apart. *)
Lemma wrap_lines_spec (width : Z) (fuel : nat) :
  1 <= width ->
  forall chunks lines ls,
  wrap_lines fuel width chunks lines = Some ls ->
  exists new,
    ls = lines ++ new
    /\ Forall (fun l => len l <= width) new
    /\ filter (fun c => negb (isspace c)) (concat new)
       = filter (fun c => negb (isspace c)) (concat chunks)
    /\ Forall (fun l => incl l (concat chunks)) new.
Proof.
  intros Hw. induction fuel as [|fuel IH]; intros chunks lines ls.
  - destruct chunks as [|c l]; [|discriminate].
    simpl. intros [= <-]. exists []. rewrite app_nil_r. repeat split; constructor.
  - destruct chunks as [|c l].
    + simpl. intros [= <-]. exists []. rewrite app_nil_r. repeat split; constructor.
    + cbn [wrap_lines].
      destruct (wrap_line width _ (c :: l)) as [line chunks'] eqn:E.
      assert (Hne : c :: l <> []) by discriminate.
    destruct (wrap_line_spec _ _ _ _ _ Hw Hne E)
        as (pre & body & post & Hcat & Hpre & Hpost & Hfit & Hline & _).
      intros H. destruct (IH _ _ _ H) as (new & -> & Hfits & Hkeep & Hincl).
      assert (Hsub : incl (concat chunks') (concat (c :: l))).
      { rewrite Hcat. intros x Hx. rewrite !in_app_iff. auto. }
      assert (Hnew : Forall (fun l0 => incl l0 (concat (c :: l))) new).
      { eapply Forall_impl; [|exact Hincl]. intros a Ha x Hx. auto. }
      assert (Hrest : filter (fun c0 => negb (isspace c0)) (body ++ concat new)
                      = filter (fun c0 => negb (isspace c0)) (concat (c :: l))).
      { rewrite Hcat, !filter_app, Hkeep.
        rewrite (filter_not_space_blank pre Hpre), (filter_not_space_blank post Hpost).
        reflexivity. }
      destruct Hline as [->|[-> ->]].
      * exists (body :: new).
        split; [now rewrite <- app_assoc|].
        split; [constructor; auto|].
        split; [exact Hrest|].
        constructor; auto. rewrite Hcat. intros x Hx. rewrite !in_app_iff. auto.
      * exists new. repeat split; auto.
Qed.

End WrapFacts.

(** ** The wrapper *)

Module WrapperFacts.
Import PyStr TextWrap PyStrFacts SplitFacts WrapFacts.
Local Open Scope Z_scope.

Section WithTables.
Context (ucd : unicode_db).

Lemma wrap_invalid_width (text : str) (width : Z) :
  width <= 0 -> wrap ucd text width = Raise (ValueError_invalid_width width).
Proof.
  intros H. unfold wrap, wrap_chunks.
  destruct (Z.leb_spec width 0); [reflexivity|lia].
Qed.

(** With a positive width the wrapper returns, and its lines fit the width
    and keep the characters of the text, in order, whitespace apart. *)
Lemma wrap_returns (text : str) (width : Z) :
  0 < width ->
  exists lines,
    wrap ucd text width = Ok lines
    /\ Forall (fun l => len l <= width) lines
    /\ without_whitespace (concat lines) = without_whitespace text
    /\ Forall (fun l => incl l (munge_whitespace text)) lines.
Proof.
  intros Hw. unfold wrap, wrap_chunks.
  destruct (Z.leb_spec width 0) as [?|_]; [lia|].
  destruct (wrap_lines_total width (turns (split_chunks ucd text)) ltac:(lia)
              (split_chunks ucd text) [] (le_n _)) as [ls E].
  rewrite E. exists ls. split; [reflexivity|].
  destruct (wrap_lines_spec width _ ltac:(lia) _ _ _ E) as (new & -> & Hfit & Hkeep & Hincl).
  simpl. unfold split_chunks in *. rewrite split_concat in *.
  repeat split; auto.
  unfold without_whitespace. rewrite Hkeep. apply munge_whitespace_not_space.
Qed.

Lemma wrap_ok_width (text : str) (width : Z) (lines : list str) :
  wrap ucd text width = Ok lines -> 0 < width.
Proof.
  intros H. destruct (Z.ltb_spec 0 width) as [?|Hle]; [assumption|].
  rewrite (wrap_invalid_width text width Hle) in H. discriminate.
Qed.

Lemma fill_returns (text : str) (width : Z) :
  0 < width -> fill ucd text width = Ok (fill_text ucd text width).
Proof.
  intros Hw. unfold fill_text, fill.
  destruct (wrap_returns text width Hw) as (lines & -> & _). reflexivity.
Qed.

Lemma fill_invalid_width (text : str) (width : Z) :
  width <= 0 -> fill ucd text width = Raise (ValueError_invalid_width width).
Proof. intros H. unfold fill. now rewrite wrap_invalid_width. Qed.

(** A text without tabs is munged character by character. *)
Lemma munge_whitespace_no_tab (text : str) :
  Forall (fun c => c <> TAB) text ->
  munge_whitespace text = translate_whitespace text.
Proof.
  intros H. unfold munge_whitespace, expandtabs.
  now rewrite expandtabs_from_no_tab.
Qed.

Lemma translate_newlines_to_spaces (text : str) :
  translate_whitespace (newlines_to_spaces text) = translate_whitespace text.
Proof.
  unfold translate_whitespace, newlines_to_spaces. rewrite map_map.
  apply map_ext. intros c. destruct (N.eqb_spec c LF) as [->|_]; reflexivity.
Qed.

Lemma newlines_to_spaces_no_tab (text : str) :
  Forall (fun c => c <> TAB) text ->
  Forall (fun c => c <> TAB) (newlines_to_spaces text).
Proof.
  unfold newlines_to_spaces. intros H. induction H as [|c s Hc Hs IH]; simpl; constructor; auto.
  destruct (c =? LF)%N; [discriminate|assumption].
Qed.

End WithTables.

End WrapperFacts.

(** ** The wrapper against its specification *)

Module Wrapper.
Import PyStr TextWrap PyStrFacts SplitFacts WrapFacts WrapperFacts.
Local Open Scope Z_scope.

Lemma no_tab_decide (text : str) :
  forallb (fun c => negb (c =? TAB)%N) text = true -> Forall (fun c => c <> TAB) text.
Proof.
  intros H. apply Forall_forall. intros c Hc.
  rewrite forallb_forall in H. specialize (H c Hc).
  intros ->. discriminate.
Qed.

(** At the default width the caption of line 76 is broken inside CF-Access,
    after the hyphen, whatever the Unicode tables. *)
Example waf_caption_lines (ucd : unicode_db) :
  wrap ucd Diagram.waf_caption 50
  = Ok [py "WAF / Bot evaluation Skip via custom rule when CF-";
        py "Access headers present"].
Proof. vm_compute. reflexivity. Qed.

(** The example of the docstring of [_split] in textwrap.py. *)
Example split_docstring_example (ucd : unicode_db) :
  split ucd (py "Look, goof-ball -- use the -b option!")
  = map py ["Look,"; " "; "goof-"; "ball"; " "; "--"; " ";
            "use"; " "; "the"; " "; "-b"; " "; "option!"]%string.
Proof. vm_compute. reflexivity. Qed.


(** On a caption of plain short words both contracts of the specification
    hold: here the caption of lines 105 and 108 at width 10. *)
Example plain_caption_contracts (ucd : unicode_db) :
  breaks_at_whitespace_only ucd (py "Try STALE from edge cache") 10
  /\ rejoins_to_normalized ucd (py "Try STALE from edge cache") 10.
Proof.
  split.
  - exists [py "Try STALE"; py "from edge"; py "cache"].
    split; [vm_compute; reflexivity|]. split; [vm_compute; reflexivity|].
    repeat (apply Forall_cons; [left; vm_compute; discriminate|]).
    apply Forall_nil.
  - exists [py "Try STALE"; py "from edge"; py "cache"].
    split; vm_compute; reflexivity.
Qed.


(** C7, as stated, fails: the caption of line 76 at the default width 50 is
    rejoined with a space inside CF-Access, under any Unicode tables. *)
Lemma rejoined_lines_differ :
  ~ (exists ucd, forall text width, 0 < width -> rejoins_to_normalized ucd text width).
Proof.
  intros [ucd H].
  destruct (H Diagram.waf_caption 50 eq_refl) as (lines & E & Hjoin).
  rewrite waf_caption_lines in E. injection E as <-.
  vm_compute in Hjoin. discriminate.
Qed.

(** A tab after a newline: the newline sets the column the tab is expanded
    from, so replacing it by a space changes the lines. *)
Example tab_after_newline (ucd : unicode_db) :
  wrap ucd [97; LF; TAB; 98]%N 10 = Ok [[97]; [98]]%N
  /\ wrap ucd (newlines_to_spaces [97; LF; TAB; 98]%N) 10
     = Ok [[97; 32; 32; 32; 32; 32; 32; 32; 98]]%N.
Proof. split; vm_compute; reflexivity. Qed.

(** C10, as stated, fails: a tab is not replaced by one space, and with a
    tab after it a newline changes the lines. *)
Lemma newline_before_tab_counts :
  ~ (exists ucd, forall text width, line_breaks_ignored ucd text width).
Proof.
  intros [ucd H].
  destruct (H [97; LF; TAB; 98]%N 10) as [_ E].
  destruct (tab_after_newline ucd) as [E1 E2].
  rewrite E1, E2 in E. discriminate.
Qed.

(** C10, amended: no line the wrapper returns holds a newline or any
    whitespace but the space; and in a caption without tabs every whitespace
    character, the newline included, is replaced by one space before the
    wrapping, so the lines are those of the caption with its newlines
    replaced by spaces. *)
Theorem newlines_become_spaces (ucd : unicode_db) (text : str) (width : Z) :
  (0 < width ->
   exists lines,
     wrap ucd text width = Ok lines
     /\ Forall (Forall (fun c => is_whitespace c = true -> c = SPACE)) lines)
  /\ (Forall (fun c => c <> TAB) text -> line_breaks_ignored ucd text width).
Proof.
  split.
  - intros Hw. destruct (wrap_returns ucd text width Hw) as (lines & E & _ & _ & Hincl).
    exists lines. split; [exact E|].
    eapply Forall_impl; [|exact Hincl]. intros l Hl.
    apply Forall_forall. intros c Hc. apply Hl in Hc.
    pose proof (translate_whitespace_only_space (expandtabs 8 text)) as Hall.
    rewrite Forall_forall in Hall. now apply Hall.
  - intros Hnotab. unfold line_breaks_ignored.
    split; [now apply munge_whitespace_no_tab|].
    unfold wrap, split_chunks.
    rewrite (munge_whitespace_no_tab text Hnotab).
    rewrite (munge_whitespace_no_tab _ (newlines_to_spaces_no_tab text Hnotab)).
    now rewrite translate_newlines_to_spaces.
Qed.

Lemma newlines_become_spaces_witness :
  Forall (fun c => c <> TAB) Diagram.waf_caption
  /\ line_breaks_ignored symbols_only Diagram.waf_caption 50.
Proof.
  assert (Hnotab : Forall (fun c => c <> TAB) Diagram.waf_caption)
    by (apply no_tab_decide; vm_compute; reflexivity).
  split; [exact Hnotab|].
  exact (proj2 (newlines_become_spaces symbols_only Diagram.waf_caption 50) Hnotab).
Defined.

End Wrapper.

(** ** The statements of the builder *)

Module DiagramFacts.
Import PyStr Diagram.
Local Open Scope Z_scope.

Lemma drew_nothing (st : state) : drew st [] st.
Proof. unfold drew. rewrite app_nil_r. auto. Qed.

Lemma drew_more (st st1 st2 : state) (new1 new2 : list artist) :
  drew st new1 st1 -> drew st1 new2 st2 -> drew st (new1 ++ new2) st2.
Proof.
  unfold drew. intros (A1 & S1 & F1 & O1) (A2 & S2 & F2 & O2).
  rewrite A2, A1, S2, S1, F2, F1, O2, O1, app_assoc. auto.
Qed.

Section Run.
Context (env : environment) (cfg : config).

(** [next] hands out the head of the slots, or raises. *)
Lemma next_some (st : state) (y : Q) (rest : list Q) :
  ys st = y :: rest ->
  exists st', next st = (Ok y, st') /\ drew st [] st' /\ ys st' = rest.
Proof.
  intros E. unfold next. rewrite E. eexists. split; [reflexivity|].
  split; [|reflexivity]. unfold drew. simpl. rewrite app_nil_r. auto.
Qed.

Lemma next_none (st : state) :
  ys st = [] -> next st = (Raise StopIteration, st).
Proof. intros E. unfold next. now rewrite E. Qed.

(** With a positive wrap width a step draws its artists. *)
Lemma draw_step_ok (s : step) (y : Q) (st : state) :
  0 < wrap cfg ->
  exists st',
    draw_step env cfg s y st = (Ok tt, st')
    /\ drew st (step_artists env cfg s y) st' /\ ys st' = ys st.
Proof.
  intros Hw. destruct s as [x0 x1 text|x text];
    unfold draw_step, arrow, box_text, bind, lift, draw;
    rewrite (WrapperFacts.fill_returns _ _ _ Hw);
    eexists; (split; [reflexivity|]); (split; [|reflexivity]);
    unfold drew; simpl; rewrite <- ?app_assoc; auto.
Qed.

(** With a wrap width that is not positive a step raises in [fill]. *)
Lemma draw_step_invalid_width (s : step) (y : Q) (st : state) :
  wrap cfg <= 0 ->
  exists st' new,
    draw_step env cfg s y st = (Raise (ValueError_invalid_width (wrap cfg)), st')
    /\ drew st new st' /\ ys st' = ys st.
Proof.
  intros Hw. destruct s as [x0 x1 text|x text];
    unfold draw_step, arrow, box_text, bind, lift, draw;
    rewrite (WrapperFacts.fill_invalid_width _ _ _ Hw).
  - eexists. exists [Annotation (x1, y) (x0, y) 2.5 15].
    split; [reflexivity|]. split; [|reflexivity]. unfold drew; simpl; auto.
  - exists st, []. split; [reflexivity|]. split; [apply drew_nothing|reflexivity].
Qed.

(** The statements of a list of steps, one step at a time. *)
Lemma run_steps_cons (s : step) (rest : list step) (st : state) :
  run_steps env cfg (s :: rest) st
  = (y <- next ;; draw_step env cfg s y ;; run_steps env cfg rest) st.
Proof.
  destruct rest as [|s' rest]; [|reflexivity].
  simpl. unfold bind. destruct (next st) as [[y| |] st1]; try reflexivity.
  destruct (draw_step env cfg s y st1) as [[[]| |] st2]; reflexivity.
Qed.

(** The statements of [sequence_steps] are those of the list [steps]. *)
Lemma sequence_steps_run_steps (st : state) :
  sequence_steps env cfg st = run_steps env cfg steps st.
Proof. reflexivity. Qed.

(** Enough slots and a positive wrap width: every step is drawn at its slot. *)
Lemma run_steps_ok (l : list step) :
  0 < wrap cfg ->
  forall st, (length l <= length (ys st))%nat ->
  exists st',
    run_steps env cfg l st = (Ok tt, st')
    /\ drew st (concat (rendered env cfg l (ys st))) st'
    /\ ys st' = skipn (length l) (ys st).
Proof.
  intros Hw. induction l as [|s l IH]; intros st Hlen.
  - exists st. simpl. split; [reflexivity|]. split; [apply drew_nothing|reflexivity].
  - rewrite run_steps_cons. destruct (ys st) as [|y rest] eqn:Eys; [simpl in Hlen; lia|].
    destruct (next_some st y rest Eys) as (st1 & En & D1 & Y1).
    destruct (draw_step_ok s y st1 Hw) as (st2 & Ed & D2 & Y2).
    destruct (IH st2) as (st3 & Er & D3 & Y3).
    { rewrite Y2, Y1. simpl in Hlen. lia. }
    exists st3. unfold bind. rewrite En, Ed, Er. split; [reflexivity|].
    rewrite Y2, Y1 in D3, Y3. split; [|exact Y3].
    simpl. apply (drew_more st st2); [|exact D3].
    change (step_artists env cfg s y) with ([] ++ step_artists env cfg s y).
    now apply (drew_more st st1).
Qed.

(** More steps than slots: [next] raises StopIteration, nothing is saved. *)
Lemma run_steps_exhausted (l : list step) :
  0 < wrap cfg ->
  forall st, (length (ys st) < length l)%nat ->
  exists st' new,
    run_steps env cfg l st = (Raise StopIteration, st') /\ drew st new st'.
Proof.
  intros Hw. induction l as [|s l IH]; intros st Hlen; [simpl in Hlen; lia|].
  rewrite run_steps_cons. destruct (ys st) as [|y rest] eqn:Eys.
  - exists st, []. unfold bind. rewrite (next_none st Eys).
    split; [reflexivity|apply drew_nothing].
  - destruct (next_some st y rest Eys) as (st1 & En & D1 & Y1).
    destruct (draw_step_ok s y st1 Hw) as (st2 & Ed & D2 & Y2).
    destruct (IH st2) as (st3 & new & Er & D3).
    { rewrite Y2, Y1. simpl in Hlen. lia. }
    exists st3, (([] ++ step_artists env cfg s y) ++ new).
    unfold bind. rewrite En, Ed, Er. split; [reflexivity|].
    apply (drew_more st st2); [|exact D3]. now apply (drew_more st st1).
Qed.

(** A wrap width that is not positive: the first step raises ValueError
    after its slot is taken. *)
Lemma run_steps_invalid_width (s : step) (l : list step) (st : state)
      (y : Q) (rest : list Q) :
  wrap cfg <= 0 -> ys st = y :: rest ->
  exists st' new,
    run_steps env cfg (s :: l) st = (Raise (ValueError_invalid_width (wrap cfg)), st')
    /\ drew st new st' /\ ys st' = rest.
Proof.
  intros Hw Eys. rewrite run_steps_cons.
  destruct (next_some st y rest Eys) as (st1 & En & D1 & Y1).
  destruct (draw_step_invalid_width s y st1 Hw) as (st2 & new & Ed & D2 & Y2).
  exists st2, ([] ++ new). unfold bind. rewrite En, Ed.
  split; [reflexivity|]. split; [now apply (drew_more st st1)|congruence].
Qed.

(** [savefig] writes the figure under the name settled on, or raises and
    leaves the state as it was. *)
Lemma savefig_outcome (path : str) (st : state) :
  savefig env path st
  = if saves env path then
      (Ok tt,
       {| fig := fig st; ys := ys st;
          files := files st ++ [(saved_name path, fig st)]; stdout := stdout st |})
    else (Raise (savefig_error env path), st).
Proof.
  unfold savefig, saves, savefig_error, saved_name.
  destruct (print_target path) as [filename format]. cbn [fst snd].
  destruct (has_print_method env format); [|reflexivity].
  destruct (writable env filename); reflexivity.
Qed.

(** A page size the figure refuses: [plt.subplots] raises, and the state is
    left as it was. *)
Lemma build_diagram_figure_size (st : state) :
  figure_size_ok (width cfg, height cfg) = false ->
  build_diagram env cfg st = (Raise ValueError_figure_size, st).
Proof. intros H. unfold build_diagram, bind, subplots. now rewrite H. Qed.

(** [build_diagram] up to its first step. *)
Lemma build_diagram_from_lanes (st : state) :
  figure_size_ok (width cfg, height cfg) = true ->
  build_diagram env cfg st
  = (run_steps env cfg steps ;;
     savefig env (output cfg) ;;
     print (py "Saved: " ++ output cfg)) (lanes_drawn cfg st).
Proof.
  intros H. unfold build_diagram. unfold bind at 1. unfold subplots.
  rewrite H. reflexivity.
Qed.

Lemma steps_fit_slots : (length steps <= length ys_values)%nat.
Proof. simpl. lia. Qed.

(** A page size the figure accepts, a positive wrap width and a figure that
    can be saved: the figure with the lanes and every step is saved, and the
    confirmation printed. *)
Lemma build_diagram_ok (st : state) :
  figure_size_ok (width cfg, height cfg) = true ->
  0 < wrap cfg -> saves env (output cfg) = true ->
  exists st',
    build_diagram env cfg st = (Ok tt, st')
    /\ axes (fig st') = lane_artists cfg ++ concat (rendered env cfg steps ys_values)
    /\ ys st' = skipn (length steps) ys_values
    /\ files st' = files st ++ [(saved_name (output cfg), fig st')]
    /\ stdout st' = stdout st ++ [py "Saved: " ++ output cfg].
Proof.
  intros Hsize Hw Hfs. rewrite (build_diagram_from_lanes _ Hsize).
  destruct (run_steps_ok steps Hw (lanes_drawn cfg st) steps_fit_slots)
    as (st1 & Er & (A1 & S1 & F1 & O1) & Y1).
  unfold bind. rewrite Er, savefig_outcome, Hfs. unfold print.
  eexists. split; [reflexivity|]. simpl. rewrite A1, F1, O1, Y1. auto.
Qed.

(** A page size the figure accepts, a positive wrap width and a figure that
    cannot be saved: [savefig] raises after the steps; no file, no
    confirmation. *)
Lemma build_diagram_not_saved (st : state) :
  figure_size_ok (width cfg, height cfg) = true ->
  0 < wrap cfg -> saves env (output cfg) = false ->
  exists st',
    build_diagram env cfg st = (Raise (savefig_error env (output cfg)), st')
    /\ axes (fig st') = lane_artists cfg ++ concat (rendered env cfg steps ys_values)
    /\ ys st' = skipn (length steps) ys_values
    /\ files st' = files st
    /\ stdout st' = stdout st.
Proof.
  intros Hsize Hw Hfs. rewrite (build_diagram_from_lanes _ Hsize).
  destruct (run_steps_ok steps Hw (lanes_drawn cfg st) steps_fit_slots)
    as (st1 & Er & (A1 & S1 & F1 & O1) & Y1).
  unfold bind. rewrite Er, savefig_outcome, Hfs.
  exists st1. split; [reflexivity|]. rewrite A1, F1, O1, Y1. auto.
Qed.

(** A page size the figure accepts and a wrap width that is not positive:
    the first step raises ValueError with one slot taken; no file, no
    confirmation. *)
Lemma build_diagram_invalid_width (st : state) :
  figure_size_ok (width cfg, height cfg) = true ->
  wrap cfg <= 0 ->
  exists st',
    build_diagram env cfg st = (Raise (ValueError_invalid_width (wrap cfg)), st')
    /\ ys st' = skipn 1 ys_values
    /\ files st' = files st
    /\ stdout st' = stdout st.
Proof.
  intros Hsize Hw. rewrite (build_diagram_from_lanes _ Hsize).
  destruct (run_steps_invalid_width
              (ArrowStep x_client x_edge
                 (py "GET /api/address-lookup?pc=CB97XU&dataset=LPI&maxresults=100"))
              (tl steps) (lanes_drawn cfg st) 0.96%Q (skipn 1 ys_values) Hw eq_refl)
    as (st1 & new & Er & (A1 & S1 & F1 & O1) & Y1).
  change (ArrowStep _ _ _ :: tl steps) with steps in Er.
  unfold bind. rewrite Er. exists st1. split; [reflexivity|].
  rewrite F1, O1, Y1. auto.
Qed.

End Run.

End DiagramFacts.

(** ** The builder against its specification *)

Module Builder.
Import PyStr Diagram DiagramFacts.
Local Open Scope Q_scope.

(** *** Slots *)

Lemma next_n_spec (n : nat) :
  forall st,
    fst (next_n n st)
    = if (n <=? length (ys st))%nat then Ok (firstn n (ys st)) else Raise StopIteration.
Proof.
  induction n as [|n IH]; intros st; [reflexivity|].
  cbn [next_n]. unfold bind at 1.
  destruct (ys st) as [|y rest] eqn:Eys.
  - rewrite (next_none st Eys). reflexivity.
  - destruct (next_some st y rest Eys) as (st1 & -> & _ & Y1).
    unfold bind. specialize (IH st1). rewrite Y1 in IH.
    destruct (next_n n st1) as [[l| |] st2]; simpl in IH |- *;
      destruct (n <=? length rest)%nat; congruence.
Qed.

(** C1, as stated, fails: the slots are no arithmetic sequence, whatever the
    top margin, the bottom margin and the spacing.  The first two slots are
    0.03 apart, the fifth and the sixth 0.04. *)
Lemma slots_not_evenly_spaced :
  ~ (exists top bottom spacing,
        Forall2 Qeq ys_values (allocator_slots top bottom spacing)).
Proof.
  intros (top & bottom & spacing & H). unfold allocator_slots in H.
  pose proof (Forall2_length H) as Hlen.
  rewrite length_map, length_seq in Hlen. rewrite <- Hlen in H.
  simpl in H.
  inversion H as [|? ? ? ? E0 H0]; subst; clear H.
  inversion H0 as [|? ? ? ? E1 H1]; subst; clear H0.
  inversion H1 as [|? ? ? ? _ H2]; subst; clear H1.
  inversion H2 as [|? ? ? ? _ H3]; subst; clear H2.
  inversion H3 as [|? ? ? ? _ H4]; subst; clear H3.
  inversion H4 as [|? ? ? ? E5 _]; subst; clear H4.
  unfold inject_Z in *. lra.
Qed.

Lemma ys_values_decreasing : strictly_decreasing ys_values.
Proof. cbv. repeat split; reflexivity. Qed.

(** C1, amended: the slots are the literal list of the script, the same for
    every configuration: 24 values, strictly decreasing from 0.96 to 0.08,
    0.03 apart for the first four gaps and 0.04 apart for the other
    nineteen.  [next] succeeds exactly 24 times and a further call raises
    StopIteration. *)
Theorem slots_are_the_literal_list :
  length ys_values = 24%nat
  /\ strictly_decreasing ys_values
  /\ hd_error ys_values = Some 0.96
  /\ last ys_values 0 = 0.08
  /\ Forall2 Qeq (gaps ys_values) (repeat 0.03 4 ++ repeat 0.04 19)
  /\ forall (n : nat) (st : state),
       fst ((iter ys_values ;; next_n n) st)
       = if (n <=? 24)%nat then Ok (firstn n ys_values) else Raise StopIteration.
Proof.
  split; [reflexivity|]. split; [exact ys_values_decreasing|].
  split; [reflexivity|]. split; [reflexivity|].
  split; [simpl; repeat constructor|].
  intros n st. unfold bind, iter. rewrite next_n_spec. reflexivity.
Qed.

(** *** All or nothing *)


(** The run returns exactly when the figure accepts the page size, the wrap
    width is positive and the figure can be saved. *)
Lemma build_returns_iff (env : environment) (cfg : config) (st : state) :
  fst (build_diagram env cfg st) = Ok tt
  <-> figure_size_ok (width cfg, height cfg) = true
      /\ (0 < wrap cfg)%Z /\ saves env (output cfg) = true.
Proof.
  destruct (figure_size_ok (width cfg, height cfg)) eqn:Hsize.
  - destruct (Z.ltb_spec 0 (wrap cfg)) as [Hw|Hw].
    + destruct (saves env (output cfg)) eqn:Hfs.
      * destruct (build_diagram_ok env cfg st Hsize Hw Hfs) as (st' & -> & _).
        simpl. tauto.
      * destruct (build_diagram_not_saved env cfg st Hsize Hw Hfs) as (st' & -> & _).
        simpl. split; [discriminate|intros (_ & _ & ?); discriminate].
    + destruct (build_diagram_invalid_width env cfg st Hsize Hw) as (st' & -> & _).
      simpl. split; [discriminate|intros (_ & ? & _); lia].
  - rewrite (build_diagram_figure_size env cfg st Hsize).
    simpl. split; [discriminate|intros (? & _); discriminate].
Qed.

(** *** Slots used *)

(** C9, as stated, fails: with the wrap width 0 the run stops in its first
    step, with one slot taken and 23 left. *)
Lemma zero_wrap_takes_one_slot :
  ~ (forall env cfg st, length (ys (snd (build_diagram env cfg st))) = 1%nat).
Proof.
  intros H.
  specialize (H plain_env
                {| width := 40; height := 28; title_font := 16; label_font := 12;
                   wrap := 0; output := py "postcode-flow.pdf" |}
                fresh_state).
  vm_compute in H. discriminate.
Qed.

(** C9, amended: no run of [build_diagram] raises StopIteration: there are
    23 steps for 24 slots.  With a page size the figure accepts (finite and
    not negative) and a positive wrap width the run takes exactly 23 of the
    24 slots and leaves one, the last, 0.08, whether or not the figure can
    be saved afterwards.  With such a page size and a wrap width that is not
    positive it raises the ValueError of [fill] in its first step, with one
    slot taken and 23 left.  With a page size the figure refuses it raises
    ValueError in [plt.subplots], before the iterator exists: the state is
    left as it was and no slot is taken. *)
Theorem build_leaves_one_slot (env : environment) (cfg : config) (st : state) :
  let r := build_diagram env cfg st in
  let size_ok := figure_size_ok (width cfg, height cfg) in
  fst r <> Raise StopIteration
  /\ length steps = 23%nat /\ length ys_values = 24%nat
  /\ (size_ok = true -> (0 < wrap cfg)%Z ->
      ys (snd r) = skipn 23 ys_values /\ ys (snd r) = [0.08])
  /\ (size_ok = true -> (wrap cfg <= 0)%Z ->
      fst r = Raise (ValueError_invalid_width (wrap cfg))
      /\ ys (snd r) = skipn 1 ys_values /\ length (ys (snd r)) = 23%nat)
  /\ (size_ok = false -> r = (Raise ValueError_figure_size, st)).
Proof.
  cbn zeta. split; [|split; [reflexivity|split; [reflexivity|]]].
  - destruct (figure_size_ok (width cfg, height cfg)) eqn:Hsize.
    + destruct (Z.ltb_spec 0 (wrap cfg)) as [Hw|Hw].
      * destruct (saves env (output cfg)) eqn:Hfs.
        -- destruct (build_diagram_ok env cfg st Hsize Hw Hfs) as (st' & -> & _).
           discriminate.
        -- destruct (build_diagram_not_saved env cfg st Hsize Hw Hfs) as (st' & -> & _).
           simpl. unfold savefig_error.
           destruct (has_print_method env _); discriminate.
      * destruct (build_diagram_invalid_width env cfg st Hsize Hw) as (st' & -> & _).
        discriminate.
    + rewrite (build_diagram_figure_size env cfg st Hsize). discriminate.
  - split; [|split].
    + intros Hsize Hw. destruct (saves env (output cfg)) eqn:Hfs.
      * destruct (build_diagram_ok env cfg st Hsize Hw Hfs) as (st' & -> & _ & Y & _).
        simpl. rewrite Y. split; reflexivity.
      * destruct (build_diagram_not_saved env cfg st Hsize Hw Hfs)
          as (st' & -> & _ & Y & _).
        simpl. rewrite Y. split; reflexivity.
    + intros Hsize Hw.
      destruct (build_diagram_invalid_width env cfg st Hsize Hw) as (st' & -> & Y & _).
      simpl. rewrite Y. repeat split.
    + intros Hsize. exact (build_diagram_figure_size env cfg st Hsize).
Qed.

Lemma build_leaves_one_slot_witness :
  ys (snd (build_diagram plain_env default_config fresh_state)) = [0.08].
Proof.
  exact (proj2 (proj1 (proj2 (proj2 (proj2
           (build_leaves_one_slot plain_env default_config fresh_state))))
           eq_refl eq_refl)).
Defined.

(** *** Vertical order *)

Lemma Qltb_lt (a b : Q) : Qltb a b = true -> a < b.
Proof. unfold Qltb, Qlt. apply Z.ltb_lt. Qed.

Lemma aboveb_above (upper lower : list Q) :
  aboveb upper lower = true -> above upper lower.
Proof.
  unfold aboveb, above. intros H yu yl Hu Hl.
  rewrite forallb_forall in H. specialize (H yu Hu).
  rewrite forallb_forall in H. apply Qltb_lt. now apply H.
Qed.

Lemma stackedb_nth (groups : list (list Q)) :
  stackedb groups = true ->
  forall N upper lower,
    nth_error groups N = Some upper -> nth_error groups (S N) = Some lower ->
    above upper lower.
Proof.
  induction groups as [|g groups IH]; intros H N upper lower Hu Hl.
  - destruct N; discriminate.
  - destruct groups as [|g' groups]; [destruct N; discriminate|].
    cbn [stackedb] in H. apply andb_prop in H as [Hab Hrest].
    destruct N as [|N].
    + simpl in Hu, Hl. injection Hu as <-. injection Hl as <-.
      now apply aboveb_above.
    + apply (IH Hrest N); assumption.
Qed.

(** The heights of the artists a step draws are those of [step_ys]. *)
Lemma rendered_heights (env : environment) (cfg : config)
      (l : list step) (heights : list Q) :
  map (flat_map artist_ys) (rendered env cfg l heights) = rendered_ys l heights.
Proof.
  revert heights. induction l as [|s l IH]; intros [|y heights]; try reflexivity.
  cbn [rendered rendered_ys map]. rewrite IH. destruct s; reflexivity.
Qed.

Lemma rendered_length (env : environment) (cfg : config)
      (l : list step) (heights : list Q) :
  (length l <= length heights)%nat ->
  length (rendered env cfg l heights) = length l.
Proof.
  revert heights. induction l as [|s l IH]; intros [|y heights] H; simpl in *;
    try reflexivity; try lia.
  rewrite IH; [reflexivity|lia].
Qed.

(** With a positive wrap width the steps are all drawn, whether or not the
    file can be written afterwards. *)
Lemma build_diagram_drawn (env : environment) (cfg : config) (st : state) :
  figure_size_ok (width cfg, height cfg) = true ->
  (0 < wrap cfg)%Z ->
  axes (fig (snd (build_diagram env cfg st)))
  = lane_artists cfg ++ concat (rendered env cfg steps ys_values)
  /\ ys (snd (build_diagram env cfg st)) = skipn (length steps) ys_values.
Proof.
  intros Hsize Hw. destruct (saves env (output cfg)) eqn:Hfs.
  - destruct (build_diagram_ok env cfg st Hsize Hw Hfs) as (st' & -> & A & Y & _). auto.
  - destruct (build_diagram_not_saved env cfg st Hsize Hw Hfs) as (st' & -> & A & Y & _).
    auto.
Qed.

(** C4: in a run that gets to draw (a page size the figure accepts and a
    positive wrap width) the axes hold, after the lanes, the artists of
    step 1, step 2, ... in order, step N drawn at the N-th slot; the slots
    taken are strictly decreasing; and every artist of a step is strictly
    higher than every artist of the step after it. *)
Theorem steps_stack_downwards (env : environment) (cfg : config) (st : state) :
  figure_size_ok (width cfg, height cfg) = true ->
  (0 < wrap cfg)%Z ->
  let groups := rendered env cfg steps ys_values in
  axes (fig (snd (build_diagram env cfg st))) = lane_artists cfg ++ concat groups
  /\ length groups = length steps
  /\ ys (snd (build_diagram env cfg st)) = skipn (length steps) ys_values
  /\ strictly_decreasing (firstn (length steps) ys_values)
  /\ forall N upper lower,
       nth_error groups N = Some upper -> nth_error groups (S N) = Some lower ->
       above (flat_map artist_ys upper) (flat_map artist_ys lower).
Proof.
  intros Hsize Hw groups.
  destruct (build_diagram_drawn env cfg st Hsize Hw) as [A Y].
  split; [exact A|]. split; [apply rendered_length, steps_fit_slots|].
  split; [exact Y|]. split; [cbv; repeat split; reflexivity|].
  intros N upper lower Hu Hl.
  apply (stackedb_nth (rendered_ys steps ys_values)) with (N := N).
  - vm_compute. reflexivity.
  - rewrite <- (rendered_heights env cfg). now apply map_nth_error.
  - rewrite <- (rendered_heights env cfg). now apply map_nth_error.
Qed.

Lemma steps_stack_downwards_witness :
  figure_size_ok (width default_config, height default_config) = true
  /\ (0 < wrap default_config)%Z
  /\ axes (fig (snd (build_diagram plain_env default_config fresh_state)))
     = lane_artists default_config
       ++ concat (rendered plain_env default_config steps ys_values).
Proof.
  split; [reflexivity|]. split; [reflexivity|].
  apply (steps_stack_downwards plain_env default_config fresh_state); reflexivity.
Defined.

(** *** Arrows *)

Lemma Qplus_swap (a b : Q) : a + b = b + a.
Proof.
  unfold Qplus. f_equal; [apply Z.add_comm|apply Pos.mul_comm].
Qed.

(** C5: for every pair of x positions, height and caption, the arrow from
    [x0] to [x1] and the arrow from [x1] to [x0] draw lines with swapped
    ends, the head at the destination, and the same caption box: centred
    on the midpoint [(x0 + x1) / 2], 0.006 below the line.  (With a wrap
    width that is not positive neither call gets to draw a box.) *)
Theorem arrow_reversed (env : environment) (cfg : config)
        (x0 x1 y : Q) (text : str) (st : state) :
  let there := arrow env cfg x0 x1 y text st in
  let back := arrow env cfg x1 x0 y text st in
  exists box : list artist,
    fst there = fst back
    /\ axes (fig (snd there)) = axes (fig st) ++ Annotation (x1, y) (x0, y) 2.5 15 :: box
    /\ axes (fig (snd back)) = axes (fig st) ++ Annotation (x0, y) (x1, y) 2.5 15 :: box
    /\ ((0 < wrap cfg)%Z ->
        fst there = Ok tt
        /\ box = [Text ((x0 + x1) / 2.0) (y - 0.006) (caption_text env cfg text)
                       (label_font cfg) false true]).
Proof.
  cbn zeta. unfold arrow, box_text, bind, lift, draw. rewrite (Qplus_swap x1 x0).
  destruct (Z.ltb_spec 0 (wrap cfg)) as [Hw|Hw].
  - rewrite (WrapperFacts.fill_returns _ _ _ Hw). simpl.
    eexists. rewrite <- !app_assoc. simpl.
    split; [reflexivity|]. split; [reflexivity|]. split; [reflexivity|].
    intros _. split; reflexivity.
  - rewrite (WrapperFacts.fill_invalid_width _ _ _ Hw). simpl.
    exists []. repeat split; lia.
Qed.

(** *** The first three steps *)

(** C6: the lanes are at x = 0.10, 0.37, 0.65, 0.90, and in a run that gets
    to draw (a page size the figure accepts and a positive wrap width) the
    first three steps take the slots 0.96 > 0.93 > 0.90: an arrow from 0.10
    to 0.37 with its head at 0.37 and its caption, a caption box alone at
    0.37, and an arrow from 0.37 to 0.10 with its head at 0.10 and its
    caption. *)
Theorem first_three_steps (env : environment) (cfg : config) (st : state) :
  figure_size_ok (width cfg, height cfg) = true ->
  (0 < wrap cfg)%Z ->
  map fst lanes = [0.10; 0.37; 0.65; 0.90]
  /\ firstn 3 ys_values = [0.96; 0.93; 0.90]
  /\ 0.93 < 0.96 /\ 0.90 < 0.93
  /\ exists later,
      axes (fig (snd (build_diagram env cfg st)))
      = lane_artists cfg
        ++ [Annotation (0.37, 0.96) (0.10, 0.96) 2.5 15;
            Text ((0.10 + 0.37) / 2.0) (0.96 - 0.006)
              (caption_text env cfg
                 (py "GET /api/address-lookup?pc=CB97XU&dataset=LPI&maxresults=100"))
              (label_font cfg) false true;
            Text 0.37 0.93 (caption_text env cfg waf_caption) (label_font cfg) false true;
            Annotation (0.10, 0.90) (0.37, 0.90) 2.5 15;
            Text ((0.37 + 0.10) / 2.0) (0.90 - 0.006)
              (caption_text env cfg (py "If blocked → 403 Cloudflare challenge page"))
              (label_font cfg) false true]
        ++ later.
Proof.
  intros Hsize Hw. split; [reflexivity|]. split; [reflexivity|].
  split; [reflexivity|]. split; [reflexivity|].
  destruct (build_diagram_drawn env cfg st Hsize Hw) as (A & _).
  exists (concat (rendered env cfg (skipn 3 steps) (skipn 3 ys_values))).
  rewrite A. apply (f_equal (app (lane_artists cfg))).
  unfold steps, ys_values. cbn [rendered skipn concat step_artists app].
  unfold x_client, x_edge, waf_caption. reflexivity.
Qed.

Lemma first_three_steps_witness :
  figure_size_ok (width default_config, height default_config) = true
  /\ (0 < wrap default_config)%Z
  /\ firstn 3 ys_values = [0.96; 0.93; 0.90].
Proof.
  split; [reflexivity|]. split; [reflexivity|].
  apply (first_three_steps plain_env default_config fresh_state); reflexivity.
Defined.

(** *** Lanes *)






End Builder.

(** * Further properties of the caption boxes *)

Module BoxMore.
Import PyStr TextWrap PyStrFacts SplitFacts WrapFacts WrapperFacts.
Local Open Scope Z_scope.

(** ** Lines of a box *)

Lemma split_on_absent (sep : char) (l : str) :
  Forall (fun c => c <> sep) l -> split_on sep l = [l].
Proof.
  induction 1 as [|c l Hc Hl IH]; [reflexivity|].
  cbn [split_on]. destruct (N.eqb_spec c sep) as [E|_]; [contradiction|].
  now rewrite IH.
Qed.

Lemma split_on_app_sep (sep : char) (l rest : str) :
  Forall (fun c => c <> sep) l ->
  split_on sep (l ++ sep :: rest) = l :: split_on sep rest.
Proof.
  induction 1 as [|c l Hc Hl IH].
  - cbn [app split_on]. now rewrite N.eqb_refl.
  - cbn [app split_on]. destruct (N.eqb_spec c sep) as [E|_]; [contradiction|].
    now rewrite IH.
Qed.

(** Splitting at the separator undoes the join, when no piece holds it. *)
Lemma split_on_join (sep : char) (lines : list str) :
  lines <> [] ->
  Forall (Forall (fun c => c <> sep)) lines ->
  split_on sep (join [sep] lines) = lines.
Proof.
  induction lines as [|l rest IH]; [contradiction|]. intros _ Hall.
  inversion Hall as [|? ? Hl Hrest]; subst.
  destruct rest as [|l' rest].
  - cbn [join]. now apply split_on_absent.
  - change (join [sep] (l :: l' :: rest)) with (l ++ sep :: join [sep] (l' :: rest)).
    rewrite split_on_app_sep by assumption. f_equal. apply IH; [discriminate|assumption].
Qed.

Section WithTables.
Context (ucd : unicode_db).

(** No line of the wrapper holds a newline. *)
Lemma wrap_lines_no_newline (text : str) (width : Z) (lines : list str) :
  wrap ucd text width = Ok lines ->
  Forall (fun l => len l <= width) lines
  /\ Forall (Forall (fun c => c <> LF)) lines.
Proof.
  intros E. pose proof (wrap_ok_width ucd _ _ _ E) as Hw.
  destruct (wrap_returns ucd text width Hw) as (lines' & E' & Hfit & _ & Hincl).
  rewrite E in E'. injection E' as <-. split; [exact Hfit|].
  eapply Forall_impl; [|exact Hincl]. intros l Hl.
  apply Forall_forall. intros c Hc. apply Hl in Hc.
  pose proof (translate_whitespace_only_space (expandtabs 8 text)) as Hall.
  rewrite Forall_forall in Hall. specialize (Hall c Hc).
  intros ->. specialize (Hall eq_refl). discriminate.
Qed.

(** The text of a box, cut at its newlines, has no piece longer than the
    width. *)
Lemma fill_lines_fit (text : str) (width : Z) (tx : str) :
  fill ucd text width = Ok tx ->
  Forall (fun l => len l <= width) (split_on LF tx).
Proof.
  unfold fill. destruct (wrap ucd text width) as [lines| |] eqn:E; try discriminate.
  intros [= <-]. destruct (wrap_lines_no_newline _ _ _ E) as [Hfit Hnl].
  destruct lines as [|l rest].
  - cbn. constructor; [|constructor]. pose proof (wrap_ok_width ucd _ _ _ E). cbn. lia.
  - rewrite split_on_join; [exact Hfit|discriminate|exact Hnl].
Qed.

(** *** A caption that fits *)

Lemma split_from_nonempty (fuel : nat) (before text : str) :
  Forall (fun c => c <> []) (split_from ucd fuel before text).
Proof.
  revert before text. induction fuel as [|fuel IH]; intros before text; [constructor|].
  destruct text as [|c rest]; [constructor|]. cbn [split_from].
  destruct (wordsep_match ucd before c rest) as [chunk after] eqn:E.
  destruct (wordsep_match_spec _ _ _ _ _ _ E) as [_ Hne]. constructor; auto.
Qed.

Lemma take_fitting_all (width : Z) (chunks cur_line : list str) (cur_len : Z) :
  cur_len + sum_len chunks <= width ->
  take_fitting width chunks cur_line cur_len
  = (cur_line ++ chunks, cur_len + sum_len chunks, []).
Proof.
  revert cur_line cur_len. induction chunks as [|c l IH]; intros cur_line cur_len H.
  - cbn. rewrite app_nil_r, Z.add_0_r. reflexivity.
  - cbn [take_fitting sum_len fold_right] in *. fold (sum_len l) in *.
    pose proof (sum_len_nonneg l).
    destruct (Z.leb_spec (cur_len + len c) width); [|lia].
    rewrite IH by lia. rewrite <- app_assoc, Z.add_assoc. reflexivity.
Qed.

Lemma translate_whitespace_id (text : str) :
  Forall (fun c => is_whitespace c = true -> c = SPACE) text ->
  translate_whitespace text = text.
Proof.
  unfold translate_whitespace. induction 1 as [|c l Hc Hl IH]; [reflexivity|].
  cbn [map]. rewrite IH. destruct (is_whitespace c) eqn:E; [|reflexivity].
  now rewrite (Hc eq_refl).
Qed.

Lemma only_space_no_tab (text : str) :
  Forall (fun c => is_whitespace c = true -> c = SPACE) text ->
  Forall (fun c => c <> TAB) text.
Proof.
  apply Forall_impl. intros c H ->. specialize (H eq_refl). discriminate.
Qed.

(** The last chunk of a text that does not end in whitespace is no blank. *)
Lemma last_chunk_not_blank (chunks : list str) :
  chunks <> [] -> Forall (fun c => c <> []) chunks ->
  isspace (last (concat chunks) SPACE) = false ->
  exists init final, chunks = init ++ [final] /\ strip_is_empty final = false.
Proof.
  intros Hne Hall Hlast.
  destruct (exists_last Hne) as (init & final & ->). exists init, final.
  split; [reflexivity|].
  apply Forall_app in Hall as [_ Hfinal]. inversion Hfinal as [|? ? Hf _]; subst.
  rewrite concat_app in Hlast. cbn [concat] in Hlast. rewrite app_nil_r in Hlast.
  destruct (exists_last Hf) as (body & c & ->).
  rewrite app_assoc, last_last in Hlast.
  rewrite strip_is_empty_app. cbn. rewrite Hlast. now rewrite andb_false_r.
Qed.

(** A caption no longer than the width, with no whitespace but the space
    and a last character that is no whitespace, comes back as it is on one
    line. *)
Lemma fill_short_caption (text : str) (width : Z) :
  len text <= width ->
  Forall (fun c => is_whitespace c = true -> c = SPACE) text ->
  isspace (last text SPACE) = false ->
  fill ucd text width = Ok text.
Proof.
  intros Hlen Hws Hlast.
  assert (Htext : text <> []) by (intros ->; discriminate).
  assert (Hpos : 0 < width).
  { destruct text; [contradiction|]. unfold len in Hlen. cbn in Hlen. lia. }
  unfold fill, wrap, wrap_chunks, split_chunks.
  rewrite (munge_whitespace_no_tab text (only_space_no_tab text Hws)).
  rewrite (translate_whitespace_id text Hws).
  destruct (Z.leb_spec width 0) as [?|_]; [lia|].
  pose proof (split_concat ucd text) as Hcat.
  pose proof (split_from_nonempty (length text) [] text) as Hall. fold (split ucd text) in Hall.
  set (chunks := split ucd text) in *.
  assert (Hne : chunks <> []) by (intros E; rewrite E in Hcat; cbn in Hcat; congruence).
  destruct (last_chunk_not_blank chunks Hne Hall) as (init & final & Echunks & Hfinal).
  { now rewrite Hcat. }
  assert (Hline : wrap_line width false chunks = (Some text, [])).
  { unfold wrap_line.
    assert (E1 : match chunks with
                 | top :: below => if strip_is_empty top && false then below else chunks
                 | [] => chunks
                 end = chunks)
      by (destruct chunks; [reflexivity|now rewrite andb_false_r]).
    rewrite E1. rewrite take_fitting_all
      by (rewrite <- len_concat, Hcat; lia).
    assert (Hrev : rev chunks = final :: rev init)
      by (rewrite Echunks, rev_app_distr; reflexivity).
    cbn [app]. rewrite !Hrev, Hfinal, Hcat.
    destruct chunks; [contradiction|reflexivity]. }
  destruct chunks as [|c l] eqn:Ec; [contradiction|].
  unfold turns. cbn [length Nat.add wrap_lines Nat.eqb negb].
  rewrite Hline. cbn [app]. destruct (length l + _)%nat; reflexivity.
Qed.

(** *** A blank caption *)

Lemma span_all (p : char -> bool) (s : str) :
  forallb p s = true -> span p s = (s, []).
Proof.
  induction s as [|c s IH]; [reflexivity|]. cbn. intros H.
  apply andb_prop in H as [Hc Hs]. now rewrite Hc, IH.
Qed.

Lemma expandtabs_from_blank (tabsize col : N) (s : str) :
  forallb is_whitespace s = true ->
  forallb is_whitespace (expandtabs_from tabsize col s) = true.
Proof.
  revert col. induction s as [|c s IH]; intros col H; [reflexivity|].
  cbn in H. apply andb_prop in H as [Hc Hs]. cbn [expandtabs_from].
  destruct (c =? TAB)%N.
  - destruct (0 <? tabsize)%N; [|now apply IH].
    rewrite forallb_app, IH by assumption.
    assert (forall n, forallb is_whitespace (repeat SPACE n) = true) as ->
        by (induction n; cbn; auto).
    reflexivity.
  - cbn. now rewrite Hc, IH.
Qed.

Lemma translate_whitespace_blank (s : str) :
  forallb is_whitespace s = true ->
  forallb (fun c => (c =? SPACE)%N) (translate_whitespace s) = true.
Proof.
  unfold translate_whitespace. induction s as [|c s IH]; [reflexivity|].
  cbn. intros H. apply andb_prop in H as [Hc Hs]. now rewrite Hc, IH.
Qed.

Lemma spaces_blank (s : str) :
  forallb (fun c => (c =? SPACE)%N) s = true -> strip_is_empty s = true.
Proof.
  unfold strip_is_empty. induction s as [|c s IH]; [reflexivity|].
  cbn. intros H. apply andb_prop in H as [Hc Hs].
  apply N.eqb_eq in Hc. subst c. now rewrite IH.
Qed.

Lemma spaces_whitespace (s : str) :
  forallb (fun c => (c =? SPACE)%N) s = true -> forallb is_whitespace s = true.
Proof.
  induction s as [|c s IH]; [reflexivity|].
  cbn. intros H. apply andb_prop in H as [Hc Hs].
  apply N.eqb_eq in Hc. subst c. now rewrite IH.
Qed.

(** A run of spaces is one chunk. *)
Lemma split_spaces (s : str) :
  forallb (fun c => (c =? SPACE)%N) s = true ->
  split ucd s = match s with [] => [] | _ => [s] end.
Proof.
  intros H. destruct s as [|c rest]; [reflexivity|].
  unfold split. cbn [length split_from]. unfold wordsep_match.
  pose proof (spaces_whitespace _ H) as Hws.
  assert (Hc : is_whitespace c = true) by (cbn in Hws; now apply andb_prop in Hws).
  rewrite Hc, (span_all is_whitespace (c :: rest) Hws).
  destruct (length rest); reflexivity.
Qed.

(** One chunk of spaces gives no line. *)
Lemma wrap_lines_spaces (width : Z) (fuel : nat) :
  1 <= width ->
  forall s : str, forallb (fun c => (c =? SPACE)%N) s = true ->
  (turns [s] <= fuel)%nat ->
  wrap_lines fuel width [s] [] = Some [].
Proof.
  intros Hw. induction fuel as [|fuel IH]; intros s Hs Hfuel.
  - rewrite turns_cons in Hfuel. lia.
  - cbn [wrap_lines length Nat.eqb negb]. unfold wrap_line.
    rewrite andb_false_r. cbn [take_fitting].
    destruct (Z.leb_spec (0 + len s) width) as [Hfit|Hlong].
    + cbn [take_fitting app rev]. rewrite (spaces_blank s Hs). cbn [removelast].
      destruct fuel; reflexivity.
    + destruct (handle_long_word_spec s [] [] 0 width Hw ltac:(lia) ltac:(lia))
        as (piece & rest & E & Hsplit & Hroom & Hone).
      destruct (Z.gtb_spec (len s) width) as [_|?]; [|lia].
      rewrite E. cbn [app rev].
      assert (Hboth : forallb (fun c => (c =? SPACE)%N) piece = true
                      /\ forallb (fun c => (c =? SPACE)%N) rest = true).
      { rewrite <- Hsplit, forallb_app in Hs. now apply andb_prop in Hs. }
      destruct Hboth as [Hpiece Hrest].
      rewrite (spaces_blank piece Hpiece). cbn [removelast].
      apply IH; [exact Hrest|].
      rewrite turns_cons in *. specialize (Hone ltac:(lia)).
      rewrite <- Hsplit, length_app in Hfuel. unfold len in Hone. cbn [turns length concat] in *. lia.
Qed.

(** An empty caption and a caption of ASCII whitespace only give the empty
    text. *)
Lemma fill_blank_caption (text : str) (width : Z) :
  0 < width -> forallb is_whitespace text = true ->
  fill ucd text width = Ok [].
Proof.
  intros Hw Hblank.
  unfold fill, wrap, wrap_chunks, split_chunks, munge_whitespace, expandtabs.
  destruct (Z.leb_spec width 0) as [?|_]; [lia|].
  pose proof (translate_whitespace_blank _ (expandtabs_from_blank 8 0 text Hblank)) as Hs.
  rewrite (split_spaces _ Hs).
  destruct (translate_whitespace (expandtabs_from 8 0 text)) as [|c rest] eqn:E;
    [reflexivity|].
  rewrite (wrap_lines_spaces width _ ltac:(lia) _ Hs (le_n _)). reflexivity.
Qed.

End WithTables.

End BoxMore.

(** * Captions without hyphens *)

Module WordsMore.
Import PyStr TextWrap PyStrFacts SplitFacts WrapFacts WrapperFacts.
Local Open Scope Z_scope.

(** ** Words *)

Lemma words_from_nil (word : str) : words_from word [] = flush word.
Proof. reflexivity. Qed.

Lemma words_from_whitespace (word : str) (c : char) (rest : str) :
  is_whitespace c = true ->
  words_from word (c :: rest) = flush word ++ words_from [] rest.
Proof. intros H. cbn [words_from]. rewrite H. destruct word; reflexivity. Qed.

Lemma words_from_run (run : str) :
  run <> [] -> forallb is_whitespace run = true ->
  forall word rest,
    words_from word (run ++ rest) = flush word ++ words_from [] rest.
Proof.
  induction run as [|c run IH]; [contradiction|]. intros _ H word rest.
  cbn in H. apply andb_prop in H as [Hc Hrun].
  cbn [app]. rewrite (words_from_whitespace word c _ Hc).
  destruct run as [|c' run']; [reflexivity|].
  rewrite IH by (discriminate || assumption). reflexivity.
Qed.

Lemma words_from_word (piece : str) :
  forallb (fun c => negb (is_whitespace c)) piece = true ->
  forall word rest,
    words_from word (piece ++ rest) = words_from (rev piece ++ word) rest.
Proof.
  induction piece as [|c piece IH]; intros H word rest; [reflexivity|].
  cbn in H. apply andb_prop in H as [Hc Hp]. apply negb_true_iff in Hc.
  cbn [app words_from rev]. rewrite Hc, IH by assumption.
  now rewrite <- app_assoc.
Qed.

(** Tab expansion and whitespace replacement keep the words. *)
Lemma words_from_expandtabs (s : str) :
  forall word col, words_from word (expandtabs_from 8 col s) = words_from word s.
Proof.
  induction s as [|c s IH]; intros word col; [reflexivity|].
  cbn [expandtabs_from]. destruct (N.eqb_spec c TAB) as [->|Hc].
  - cbn [N.ltb N.compare]. 
    assert (Hincr : exists k, N.to_nat (8 - col mod 8) = S k).
    { pose proof (N.mod_lt col 8 ltac:(discriminate)).
      exists (pred (N.to_nat (8 - col mod 8))). lia. }
    destruct Hincr as [k ->].
    rewrite words_from_run; [|discriminate|].
    + rewrite IH. now rewrite (words_from_whitespace word TAB s eq_refl).
    + cbn. induction k; cbn; auto.
  - cbn [words_from]. destruct (is_whitespace c); [destruct word|]; now rewrite IH.
Qed.

Lemma words_from_translate (s : str) :
  forall word, words_from word (translate_whitespace s) = words_from word s.
Proof.
  unfold translate_whitespace.
  induction s as [|c s IH]; intros word; [reflexivity|].
  cbn [map words_from]. destruct (is_whitespace c) eqn:E.
  - change (is_whitespace SPACE) with true. cbn iota. destruct word; now rewrite IH.
  - rewrite E. apply IH.
Qed.

Lemma words_munge_whitespace (text : str) : words (munge_whitespace text) = words text.
Proof.
  unfold words, munge_whitespace, expandtabs.
  now rewrite words_from_translate, words_from_expandtabs.
Qed.

(** ** Chunks that are words or runs of spaces *)

Lemma blank_chunk_spec (c : str) :
  blank_chunk c = true ->
  c <> [] /\ forallb is_whitespace c = true /\ strip_is_empty c = true
  /\ word_chunk c = false.
Proof.
  unfold blank_chunk, word_chunk. intros H. apply andb_prop in H as [Hne Hall].
  destruct c as [|ch c]; [discriminate|]. split; [discriminate|].
  split; [now apply BoxMore.spaces_whitespace|].
  split; [now apply BoxMore.spaces_blank|].
  cbn in Hall |- *. apply andb_prop in Hall as [Hch _].
  apply N.eqb_eq in Hch. now subst ch.
Qed.

Lemma word_chunk_spec (c : str) :
  word_chunk c = true ->
  c <> [] /\ forallb (fun ch => negb (is_whitespace ch)) c = true
  /\ strip_is_empty c = false.
Proof.
  unfold word_chunk. intros H. apply andb_prop in H as [Hne Hall].
  destruct c as [|ch c]; [discriminate|]. split; [discriminate|]. split.
  - apply forallb_forall. intros x Hx. rewrite forallb_forall in Hall.
    specialize (Hall x Hx). apply negb_true_iff in Hall. apply negb_true_iff.
    destruct (is_whitespace x) eqn:E; [|reflexivity].
    apply is_whitespace_isspace in E. congruence.
  - cbn in Hall |- *. apply andb_prop in Hall as [Hch _].
    apply negb_true_iff in Hch. now rewrite Hch.
Qed.

Lemma blank_not_word (c : str) : strip_is_empty c = true -> word_chunk c = false.
Proof.
  intros H. destruct (word_chunk c) eqn:E; [|reflexivity].
  apply word_chunk_spec in E as (_ & _ & E). congruence.
Qed.

Lemma alternating_weaken (after_word : bool) (chunks : list str) :
  alternating after_word chunks -> alternating false chunks.
Proof.
  destruct chunks as [|c rest]; [auto|]. cbn. intros [H|(Hw & _ & Hr)]; auto.
Qed.

Lemma alternating_app (a b : list str) :
  forall after_word,
    alternating after_word (a ++ b) ->
    alternating after_word a /\ alternating false b.
Proof.
  induction a as [|c a IH]; intros aw H.
  - split; [exact I|]. now apply alternating_weaken with aw.
  - cbn [app alternating] in *. destruct H as [[Hb H]|(Hw & Haw & H)].
    + destruct (IH _ H). auto.
    + destruct (IH _ H). split; [right; auto|assumption].
Qed.

(** The words of the text of the chunks are the word chunks. *)
Lemma words_from_chunks (chunks : list str) :
  forall after_word word,
    alternating after_word chunks ->
    (after_word = false -> word = []) ->
    words_from word (concat chunks) = flush word ++ word_chunks chunks.
Proof.
  induction chunks as [|c rest IH]; intros aw word Halt Hword.
  - cbn. now rewrite app_nil_r.
  - cbn [concat alternating word_chunks filter] in *.
    destruct Halt as [[Hb Hrest]|(Hw & Haw & Hrest)].
    + destruct (blank_chunk_spec c Hb) as (Hne & Hws & _ & Hnw).
      rewrite Hnw, (words_from_run c Hne Hws).
      now rewrite (IH false [] Hrest (fun _ => eq_refl)).
    + destruct (word_chunk_spec c Hw) as (Hne & Hnws & _).
      rewrite Hw, (Hword Haw), (words_from_word c Hnws), app_nil_r.
      rewrite (IH true (rev c) Hrest) by discriminate.
      unfold flush at 1. destruct (rev c) eqn:E.
      * apply (f_equal (@rev char)) in E. rewrite rev_involutive in E. contradiction.
      * rewrite <- E, rev_involutive. reflexivity.
Qed.

Lemma words_chunks (chunks : list str) :
  alternating false chunks -> words (concat chunks) = word_chunks chunks.
Proof. intros H. unfold words. now rewrite (words_from_chunks chunks false []). Qed.

Lemma word_chunks_app (a b : list str) :
  word_chunks (a ++ b) = word_chunks a ++ word_chunks b.
Proof. apply filter_app. Qed.

Lemma word_chunks_blank (a : list str) :
  Forall (fun c => strip_is_empty c = true) a -> word_chunks a = [].
Proof.
  induction 1 as [|c a Hc Ha IH]; [reflexivity|].
  cbn. now rewrite (blank_not_word c Hc).
Qed.

(** ** The chunks of a text without hyphens *)

Section WithTables.
Context (ucd : unicode_db).

Lemma span_run (p : char -> bool) (s run after : str) :
  span p s = (run, after) ->
  forallb p run = true
  /\ match after with [] => True | c :: _ => p c = false end.
Proof.
  revert run after. induction s as [|c s IH]; intros run after.
  - cbn. intros [= <- <-]. auto.
  - cbn. destruct (p c) eqn:E.
    + destruct (span p s) as [run' after'] eqn:Es. intros [= <- <-].
      destruct (IH _ _ eq_refl) as [Hrun Hafter]. cbn. rewrite E. auto.
    + intros [= <- <-]. auto.
Qed.

Lemma munged_plain_not_hyphen (c : char) (rest : str) :
  Forall munged_plain (c :: rest) -> is_hyphen c = false.
Proof.
  intros H. inversion H as [|? ? [_ Hc] _]; subst.
  unfold is_hyphen. now apply N.eqb_neq.
Qed.

Lemma emdash_ahead_plain (text : str) :
  Forall munged_plain text -> emdash_ahead ucd text = false.
Proof.
  intros H. unfold emdash_ahead. destruct text as [|c rest]; [reflexivity|].
  cbn [span]. now rewrite (munged_plain_not_hyphen c rest H).
Qed.

Lemma hyphen_break_plain (before text : str) :
  Forall munged_plain text -> hyphen_break ucd before text = false.
Proof.
  intros H. unfold hyphen_break. destruct text as [|c rest]; [reflexivity|].
  now rewrite (munged_plain_not_hyphen c rest H).
Qed.

(** Without hyphens the lazy word alternative runs to the end of the word. *)
Lemma word_rest_plain (text : str) :
  Forall munged_plain text ->
  forall before,
    word_rest ucd before text = span (fun c => negb (is_whitespace c)) text.
Proof.
  induction text as [|c rest IH]; intros H before; [reflexivity|].
  cbn [word_rest]. rewrite (hyphen_break_plain before _ H).
  cbn [end_of_word span]. destruct (is_whitespace c); [reflexivity|].
  rewrite (emdash_ahead_plain _ H), andb_false_r. cbn [negb].
  inversion H; subst. now rewrite IH.
Qed.

Lemma munged_plain_whitespace_run (run : str) :
  Forall munged_plain run -> run <> [] -> forallb is_whitespace run = true ->
  blank_chunk run = true.
Proof.
  intros Hall Hne Hws. unfold blank_chunk.
  destruct run as [|c run]; [contradiction|]. cbn [length Nat.eqb negb andb].
  apply forallb_forall. intros x Hx.
  rewrite Forall_forall in Hall. destruct (Hall x Hx) as [[->|Hns] _]; [reflexivity|].
  rewrite forallb_forall in Hws. specialize (Hws x Hx).
  apply is_whitespace_isspace in Hws. congruence.
Qed.

Lemma munged_plain_word_run (run : str) :
  Forall munged_plain run -> run <> [] ->
  forallb (fun c => negb (is_whitespace c)) run = true ->
  word_chunk run = true.
Proof.
  intros Hall Hne Hws. unfold word_chunk.
  destruct run as [|c run]; [contradiction|]. cbn [length Nat.eqb negb andb].
  apply forallb_forall. intros x Hx.
  rewrite Forall_forall in Hall. destruct (Hall x Hx) as [[E|Hns] _].
  - subst x. rewrite forallb_forall in Hws. specialize (Hws _ Hx). discriminate.
  - now rewrite Hns.
Qed.

(** The chunks of a munged plain text are words and runs of spaces, in
    turn. *)
Lemma split_from_alternating (fuel : nat) :
  forall before text after_word,
    Forall munged_plain text ->
    (after_word = true -> end_of_word text = true) ->
    alternating after_word (split_from ucd fuel before text).
Proof.
  induction fuel as [|fuel IH]; intros before text aw Hplain Haw; [exact I|].
  destruct text as [|c rest]; [exact I|]. cbn [split_from].
  destruct (wordsep_match ucd before c rest) as [chunk after] eqn:E.
  destruct (wordsep_match_spec _ _ _ _ _ _ E) as [Happ Hne].
  assert (Hboth : Forall munged_plain chunk /\ Forall munged_plain after)
    by (apply Forall_app; now rewrite Happ).
  destruct Hboth as [Hchunk Hafter].
  unfold wordsep_match in E. cbn [alternating].
  destruct (is_whitespace c) eqn:Hc.
  - left. destruct (span_run _ _ _ _ E) as [Hrun _].
    split; [now apply munged_plain_whitespace_run|].
    apply IH; [assumption|discriminate].
  - rewrite (emdash_ahead_plain _ Hplain), andb_false_r in E.
    inversion Hplain as [|? ? _ Hrest]; subst.
    rewrite (word_rest_plain rest Hrest) in E.
    destruct (span (fun c0 => negb (is_whitespace c0)) rest) as [m aft] eqn:Es.
    injection E as <- <-. destruct (span_run _ _ _ _ Es) as [Hrun Hstop].
    right. split.
    { apply munged_plain_word_run; [assumption|discriminate|]. cbn. now rewrite Hc. }
    split.
    { destruct aw; [|reflexivity]. specialize (Haw eq_refl). cbn in Haw. congruence. }
    apply IH; [assumption|]. intros _. unfold end_of_word.
    destruct aft as [|x aft]; [reflexivity|]. now apply negb_false_iff in Hstop.
Qed.

Lemma split_alternating (text : str) :
  Forall munged_plain text -> alternating false (split ucd text).
Proof. intros H. unfold split. apply split_from_alternating; [assumption|discriminate]. Qed.

(** Munging a plain text leaves spaces and characters that are no
    whitespace. *)
Lemma expandtabs_from_plain (s : str) :
  plain_text s ->
  forall col, Forall (fun c => (is_whitespace c = true \/ isspace c = false) /\ c <> HYPHEN)
                (expandtabs_from 8 col s).
Proof.
  unfold plain_text. induction 1 as [|c s [Hc Hh] Hs IH]; intros col; [constructor|].
  cbn [expandtabs_from]. destruct (c =? TAB)%N.
  - cbn [N.ltb N.compare]. apply Forall_app. split; [|apply IH].
    apply Forall_forall. intros x Hx. apply repeat_spec in Hx. subst x.
    split; [left; reflexivity|discriminate].
  - constructor; [|apply IH]. split; [|assumption].
    destruct (isspace c) eqn:E; [left; now apply Hc|right; reflexivity].
Qed.

Lemma munge_whitespace_plain (text : str) :
  plain_text text -> Forall munged_plain (munge_whitespace text).
Proof.
  intros H. unfold munge_whitespace, expandtabs, translate_whitespace.
  apply Forall_map. eapply Forall_impl; [|apply (expandtabs_from_plain text H 0%N)].
  intros c [[Hws|Hns] Hh]; cbn beta.
  - rewrite Hws. split; [left; reflexivity|discriminate].
  - destruct (is_whitespace c) eqn:E.
    + split; [left; reflexivity|discriminate].
    + split; [right; assumption|assumption].
Qed.

(** ** Lines made of whole chunks *)

(** One turn of the outer loop when no chunk is longer than the width: the
    chunks are a blank dropped, the chunks of the line, a blank dropped and
    the chunks left. *)
Lemma wrap_line_chunks (width : Z) (started : bool) (chunks : list str)
      (line : option str) (chunks' : list str) :
  chunks <> [] -> Forall (fun c => len c <= width) chunks ->
  wrap_line width started chunks = (line, chunks') ->
  exists pre kept post,
    chunks = pre ++ kept ++ post ++ chunks'
    /\ Forall (fun c => strip_is_empty c = true) pre
    /\ Forall (fun c => strip_is_empty c = true) post
    /\ line = match kept with [] => None | _ => Some (concat kept) end.
Proof.
  intros Hne Hfit. unfold wrap_line.
  set (chunks1 := match chunks with
                  | top :: below => if strip_is_empty top && started then below else chunks
                  | [] => chunks end).
  assert (H1 : exists pre, chunks = pre ++ chunks1
                           /\ Forall (fun c => strip_is_empty c = true) pre).
  { subst chunks1. destruct chunks as [|top below]; [contradiction|].
    destruct (strip_is_empty top && started) eqn:E.
    - apply andb_prop in E as [E _]. exists [top]. split; [reflexivity|]. auto.
    - exists []. auto. }
  destruct H1 as (pre & Hpre & Hblank).
  destruct (take_fitting width chunks1 [] 0) as [[cur_line cur_len] chunks2] eqn:Etake.
  destruct (take_fitting_spec _ _ _ _ _ _ _ Etake) as (taken & Hcl & Hch & _).
  cbn [app] in Hcl. subst cur_line.
  assert (Hshort : match chunks2 with
                   | top :: _ =>
                     if len top >? width then
                       let '(chunks', cur_line') :=
                         handle_long_word chunks2 taken cur_len width in
                       (chunks', cur_line', sum_len cur_line')
                     else (chunks2, taken, cur_len)
                   | [] => (chunks2, taken, cur_len)
                   end = (chunks2, taken, cur_len)).
  { destruct chunks2 as [|top below2]; [reflexivity|].
    assert (Hin : In top chunks).
    { rewrite Hpre, Hch, !in_app_iff. right. right. now left. }
    rewrite Forall_forall in Hfit. specialize (Hfit top Hin).
    destruct (Z.gtb_spec (len top) width); [lia|reflexivity]. }
  rewrite Hshort.
  assert (H4 : exists post,
             taken = match rev taken with
                     | last_chunk :: _ =>
                       if strip_is_empty last_chunk then removelast taken else taken
                     | [] => taken
                     end ++ post
             /\ Forall (fun c => strip_is_empty c = true) post).
  { destruct (rev taken) as [|last_chunk before] eqn:E.
    - exists []. now rewrite app_nil_r.
    - destruct (strip_is_empty last_chunk) eqn:Hb.
      + apply (f_equal (@rev str)) in E. rewrite rev_involutive in E. cbn in E.
        exists [last_chunk]. rewrite E at 1. rewrite E, removelast_last. auto.
      + exists []. now rewrite app_nil_r. }
  destruct H4 as (post & Hkept & Hpost).
  set (kept := match rev taken with
               | last_chunk :: _ =>
                 if strip_is_empty last_chunk then removelast taken else taken
               | [] => taken end) in *.
  intros Hres.
  assert (Hres' : line = match kept with [] => None | _ => Some (concat kept) end
                  /\ chunks' = chunks2)
    by (destruct kept; injection Hres as <- <-; split; reflexivity).
  destruct Hres' as [Hline ->]. exists pre, kept, post.
  split; [|auto].
  rewrite Hpre, Hch. rewrite Hkept at 1. now rewrite <- !app_assoc.
Qed.

(** When no chunk is longer than the width, the words of the lines are the
    word chunks, in order: no word is split and none is lost. *)
Lemma wrap_lines_words (width : Z) (fuel : nat) :
  forall chunks lines ls,
    Forall (fun c => len c <= width) chunks ->
    alternating false chunks ->
    wrap_lines fuel width chunks lines = Some ls ->
    exists new, ls = lines ++ new /\ concat (map words new) = word_chunks chunks.
Proof.
  induction fuel as [|fuel IH]; intros chunks lines ls Hfit Halt.
  - destruct chunks as [|c l]; [|discriminate].
    cbn. intros [= <-]. exists []. now rewrite app_nil_r.
  - destruct chunks as [|c l].
    + cbn. intros [= <-]. exists []. now rewrite app_nil_r.
    + cbn [wrap_lines].
      destruct (wrap_line width _ (c :: l)) as [line chunks'] eqn:E.
      assert (Hne : c :: l <> []) by discriminate.
      destruct (wrap_line_chunks _ _ _ _ _ Hne Hfit E)
        as (pre & kept & post & Hcat & Hpre & Hpost & Hline).
      rewrite Hcat in Hfit, Halt.
      apply alternating_app in Halt as [_ Halt].
      apply alternating_app in Halt as [Hkept Halt].
      apply alternating_app in Halt as [_ Hleft].
      apply Forall_app in Hfit as [_ Hfit]. apply Forall_app in Hfit as [_ Hfit].
      apply Forall_app in Hfit as [_ Hfit].
      intros H. destruct (IH _ _ _ Hfit Hleft H) as (new & -> & Hwords).
      rewrite Hcat, !word_chunks_app, (word_chunks_blank pre Hpre),
        (word_chunks_blank post Hpost). cbn [app].
      rewrite Hline. destruct kept as [|k kept'].
      * exists new. auto.
      * exists (concat (k :: kept') :: new). rewrite <- app_assoc. split; [reflexivity|].
        cbn [map]. rewrite concat_cons, (words_chunks _ Hkept), Hwords. reflexivity.
Qed.

(** For a plain text (ASCII whitespace only, no hyphen) whose chunks are no
    longer than the width, the wrapper keeps the contract of the
    specification: the words of the lines are the words of the text, and
    every line fits the width. *)
Lemma wrap_keeps_words (text : str) (width : Z) :
  0 < width -> plain_text text ->
  Forall (fun c => len c <= width) (split_chunks ucd text) ->
  breaks_at_whitespace_only ucd text width.
Proof.
  intros Hw Hplain Hfit.
  destruct (wrap_returns ucd text width Hw) as (lines & E & Hlines & _).
  exists lines. split; [exact E|]. split.
  - unfold wrap, wrap_chunks in E. destruct (Z.leb_spec width 0) as [?|_]; [lia|].
    destruct (wrap_lines _ width (split_chunks ucd text) []) as [ls|] eqn:El;
      [|discriminate].
    injection E as ->.
    pose proof (split_alternating (munge_whitespace text)
                  (munge_whitespace_plain text Hplain)) as Halt.
    destruct (wrap_lines_words width _ _ _ _ Hfit Halt El) as (new & -> & Hwords).
    cbn [app]. rewrite Hwords. unfold split_chunks.
    rewrite <- (words_chunks _ Halt), split_concat. apply words_munge_whitespace.
  - eapply Forall_impl; [|exact Hlines]. intros l Hl. now left.
Qed.

(** The words of a text joined by newlines are the words of its lines. *)
Lemma words_from_line (line : str) :
  forall word rest,
    words_from word (line ++ LF :: rest) = words_from word line ++ words_from [] rest.
Proof.
  induction line as [|c line IH]; intros word rest.
  - cbn [app]. now rewrite (words_from_whitespace word LF rest eq_refl).
  - cbn [app words_from]. destruct (is_whitespace c).
    + destruct word; rewrite IH; reflexivity.
    + apply IH.
Qed.

Lemma words_join_lines (lines : list str) :
  words (join [LF] lines) = concat (map words lines).
Proof.
  unfold words. induction lines as [|l rest IH]; [reflexivity|].
  destruct rest as [|l' rest].
  - cbn. now rewrite app_nil_r.
  - change (join [LF] (l :: l' :: rest)) with (l ++ LF :: join [LF] (l' :: rest)).
    rewrite words_from_line, IH. reflexivity.
Qed.

End WithTables.

End WordsMore.

(** * Further properties of the builder *)

Module BuilderMore.
Import PyStr Diagram DiagramFacts.
Local Open Scope Q_scope.

(** ** The lane loop *)

(** X1: for every list of lanes the lane loop returns normally and adds, lane by
    lane in the order of the list, a guide line from (x, 0.02) to (x, 0.98)
    and then a bold title at (x, 0.99) in the title font size: two artists a
    lane.  It leaves the slots, the files and the output alone. *)
Theorem draw_lanes_draws_each_lane (cfg : config) (l : list (Q * str)) (st : state) :
  exists st',
    draw_lanes cfg l st = (Ok tt, st')
    /\ drew st (guide_artists cfg l) st'
    /\ length (guide_artists cfg l) = (2 * length l)%nat
    /\ ys st' = ys st.
Proof.
  revert st. induction l as [|[x label] l IH]; intros st.
  - exists st. split; [reflexivity|]. split; [apply drew_nothing|]. auto.
  - cbn [draw_lanes]. unfold bind at 1. unfold draw at 1.
    unfold bind at 1. unfold draw at 1.
    match goal with |- context [draw_lanes cfg l ?s] => destruct (IH s) as (st' & E & D & L & Y) end.
    exists st'. split; [exact E|].
    split; [|split; [cbn [guide_artists flat_map length app] in *; fold (guide_artists cfg l); rewrite L; lia|exact Y]].
    destruct D as (A & S & F & O). unfold drew. rewrite A, S, F, O. cbn.
    rewrite <- !app_assoc. auto.
Qed.

(** ** A wrap width that is not positive *)

(** X2: with a wrap width that is not positive, [box_text] raises the ValueError
    of [fill] before it draws anything: the state is left as it was.
    [arrow] has drawn its line by then: it raises the same error and leaves
    on the axes an arrow without its caption box. *)
Theorem invalid_width_draws_no_box (env : environment) (cfg : config)
        (x0 x1 y : Q) (text : str) (st : state) :
  (wrap cfg <= 0)%Z ->
  box_text env cfg x0 y text st = (Raise (ValueError_invalid_width (wrap cfg)), st)
  /\ fst (arrow env cfg x0 x1 y text st) = Raise (ValueError_invalid_width (wrap cfg))
  /\ drew st [Annotation (x1, y) (x0, y) 2.5 15] (snd (arrow env cfg x0 x1 y text st)).
Proof.
  intros Hw. unfold arrow, box_text, bind, lift, draw.
  rewrite !(WrapperFacts.fill_invalid_width _ _ _ Hw).
  split; [reflexivity|]. split; [reflexivity|]. unfold drew. simpl. auto.
Qed.

Lemma invalid_width_draws_no_box_witness :
  (wrap {| width := 40; height := 28; title_font := 16; label_font := 12;
           wrap := 0; output := py "postcode-flow.pdf" |} <= 0)%Z
  /\ box_text plain_env
       {| width := 40; height := 28; title_font := 16; label_font := 12;
          wrap := 0; output := py "postcode-flow.pdf" |}
       x_edge 0.93 waf_caption fresh_state
     = (Raise (ValueError_invalid_width 0), fresh_state).
Proof.
  split; [discriminate|].
  apply (invalid_width_draws_no_box plain_env
           {| width := 40; height := 28; title_font := 16; label_font := 12;
              wrap := 0; output := py "postcode-flow.pdf" |}
           x_edge x_edge 0.93 waf_caption fresh_state).
  discriminate.
Defined.

(** ** The outcome of a run *)

Lemma figure_eq (f : figure) (size : number * number) (artists : list artist) :
  figsize f = size -> axes f = artists -> f = {| figsize := size; axes := artists |}.
Proof. destruct f. simpl. intros -> ->. reflexivity. Qed.

Lemma build_diagram_invalid_width_exact (env : environment) (cfg : config) (st : state) :
  figure_size_ok (width cfg, height cfg) = true ->
  (wrap cfg <= 0)%Z ->
  build_diagram env cfg st
  = (Raise (ValueError_invalid_width (wrap cfg)),
     {| fig := {| figsize := (width cfg, height cfg);
                  axes := lane_artists cfg
                          ++ [Annotation (x_edge, 0.96) (x_client, 0.96) 2.5 15] |};
        ys := skipn 1 ys_values; files := files st; stdout := stdout st |}).
Proof.
  intros Hsize Hw. rewrite (build_diagram_from_lanes _ _ _ Hsize).
  change steps with (ArrowStep x_client x_edge
                       (py "GET /api/address-lookup?pc=CB97XU&dataset=LPI&maxresults=100")
                     :: tl steps).
  unfold bind at 1. rewrite run_steps_cons.
  unfold bind, next, lanes_drawn, draw_step, arrow, box_text, bind, lift, draw.
  cbn [ys ys_values fig figsize axes files stdout].
  rewrite (WrapperFacts.fill_invalid_width _ _ _ Hw). reflexivity.
Qed.

Lemma build_diagram_valid_width_exact (env : environment) (cfg : config) (st : state) :
  figure_size_ok (width cfg, height cfg) = true ->
  (0 < wrap cfg)%Z ->
  exists st',
    build_diagram env cfg st
    = (if saves env (output cfg) then Ok tt
       else Raise (savefig_error env (output cfg)), st')
    /\ fig st' = {| figsize := (width cfg, height cfg);
                    axes := lane_artists cfg ++ concat (rendered env cfg steps ys_values) |}
    /\ ys st' = skipn (length steps) ys_values
    /\ files st' = (if saves env (output cfg)
                    then files st ++ [(saved_name (output cfg), fig st')] else files st)
    /\ stdout st' = (if saves env (output cfg)
                     then stdout st ++ [py "Saved: " ++ output cfg] else stdout st).
Proof.
  intros Hsize Hw. rewrite (build_diagram_from_lanes _ _ _ Hsize).
  destruct (run_steps_ok env cfg steps Hw (lanes_drawn cfg st) steps_fit_slots)
    as (st1 & Er & (A1 & S1 & F1 & O1) & Y1).
  unfold bind. rewrite Er, savefig_outcome. unfold print.
  pose proof (figure_eq (fig st1) _ _ S1 A1) as Hfig.
  destruct (saves env (output cfg)); eexists; (split; [reflexivity|]);
    cbn [fst snd fig ys files stdout]; rewrite ?F1, ?O1, ?Y1; repeat split; exact Hfig.
Qed.

Lemma build_diagram_final (env : environment) (cfg : config) (st : state) :
  figure_size_ok (width cfg, height cfg) = true ->
  let r := build_diagram env cfg st in
  fst r = (if (wrap cfg <=? 0)%Z then Raise (ValueError_invalid_width (wrap cfg))
           else if saves env (output cfg) then Ok tt
                else Raise (savefig_error env (output cfg)))
  /\ fig (snd r) = {| figsize := (width cfg, height cfg); axes := final_axes env cfg |}
  /\ ys (snd r) = (if (wrap cfg <=? 0)%Z then skipn 1 ys_values
                   else skipn (length steps) ys_values)
  /\ files (snd r)
     = (if (wrap cfg <=? 0)%Z then files st
        else if saves env (output cfg)
             then files st ++ [(saved_name (output cfg), fig (snd r))] else files st)
  /\ stdout (snd r)
     = (if (wrap cfg <=? 0)%Z then stdout st
        else if saves env (output cfg)
             then stdout st ++ [py "Saved: " ++ output cfg] else stdout st).
Proof.
  intros Hsize. cbn zeta. unfold final_axes.
  destruct (Z.leb_spec (wrap cfg) 0) as [Hw|Hw].
  - rewrite (build_diagram_invalid_width_exact env cfg st Hsize Hw).
    cbn [fst snd fig ys files stdout]. repeat split.
  - destruct (build_diagram_valid_width_exact env cfg st Hsize Hw)
      as (st' & -> & G & Y & F & O).
    cbn [fst snd]. auto.
Qed.


(** Three runs off the usual path, in an environment where every file name
    can be written: a negative page width, an extension that names no
    format, and a path without extension, which is written under another
    name than the one the confirmation prints. *)
Example negative_page_size :
  build_diagram plain_env
    {| width := -1; height := 28; title_font := 16; label_font := 12;
       wrap := 50; output := py "postcode-flow.pdf" |} fresh_state
  = (Raise ValueError_figure_size, fresh_state).
Proof. vm_compute. reflexivity. Qed.

Example unknown_extension :
  let r := build_diagram plain_env
             {| width := 40; height := 28; title_font := 16; label_font := 12;
                wrap := 50; output := py "out.xyz" |} fresh_state in
  fst r = Raise (ValueError_format (py "xyz")) /\ files (snd r) = [] /\ stdout (snd r) = [].
Proof. vm_compute. repeat split. Qed.

Example no_extension :
  let r := build_diagram plain_env
             {| width := 40; height := 28; title_font := 16; label_font := 12;
                wrap := 50; output := py "out" |} fresh_state in
  fst r = Ok tt
  /\ map fst (files (snd r)) = [py "out.pdf"]
  /\ stdout (snd r) = [py "Saved: out"].
Proof. vm_compute. repeat split. Qed.

(** ** Running twice *)

(** X8: a second run, started where a first run stopped, takes a new figure and
    a new slot iterator: it ends with the same outcome, the same figure and
    the same slots left as the first (it does not run out of slots), and
    when the runs return the file has been written twice, under the same
    name, with that figure and the confirmation printed twice. *)
Theorem build_diagram_twice (env : environment) (cfg : config) (st : state) :
  let first := build_diagram env cfg st in
  let second := build_diagram env cfg (snd first) in
  fst second = fst first
  /\ fig (snd second) = fig (snd first)
  /\ ys (snd second) = ys (snd first)
  /\ (fst first = Ok tt ->
      files (snd second)
      = files st ++ [(saved_name (output cfg), fig (snd first));
                     (saved_name (output cfg), fig (snd first))]
      /\ stdout (snd second)
         = stdout st ++ [py "Saved: " ++ output cfg; py "Saved: " ++ output cfg]).
Proof.
  cbn zeta. destruct (figure_size_ok (width cfg, height cfg)) eqn:Hsize.
  - destruct (build_diagram_final env cfg st Hsize) as (R1 & G1 & Y1 & F1 & O1).
    destruct (build_diagram_final env cfg (snd (build_diagram env cfg st)) Hsize)
      as (R2 & G2 & Y2 & F2 & O2).
    cbn zeta in *.
    split; [congruence|]. split; [congruence|]. split; [congruence|].
    intros Hok. rewrite R1 in Hok.
    destruct (wrap cfg <=? 0)%Z; [discriminate|].
    destruct (saves env (output cfg)); [|discriminate].
    rewrite F2, O2, F1, O1, G2, <- G1, <- !app_assoc. split; reflexivity.
  - rewrite !(build_diagram_figure_size env cfg st Hsize). cbn [fst snd].
    rewrite (build_diagram_figure_size env cfg st Hsize). cbn [fst snd].
    split; [reflexivity|]. split; [reflexivity|]. split; [reflexivity|].
    discriminate.
Qed.

(** ** The layout does not depend on the configuration *)

Lemma rendered_anchors_spec (env : environment) (cfg : config)
      (l : list step) (heights : list Q) :
  flat_map anchors (concat (rendered env cfg l heights)) = rendered_anchors l heights.
Proof.
  revert heights. induction l as [|s l IH]; intros [|y heights]; try reflexivity.
  cbn [rendered rendered_anchors concat]. rewrite flat_map_app, IH.
  destruct s; reflexivity.
Qed.

Lemma lane_anchors (cfg : config) :
  flat_map anchors (lane_artists cfg)
  = [(x_client, 0.02); (x_client, 0.98); (x_client, 0.99);
     (x_edge, 0.02); (x_edge, 0.98); (x_edge, 0.99);
     (x_worker, 0.02); (x_worker, 0.98); (x_worker, 0.99);
     (x_os, 0.02); (x_os, 0.98); (x_os, 0.99)].
Proof. reflexivity. Qed.

(** X9: among the runs that get to draw (a page size the figure accepts and a
    positive wrap width), page size, font sizes, wrap width, output path and
    Unicode tables move nothing: any two such runs anchor their artists at
    the same points, in the same order (no reflow on a resize). *)
Theorem layout_ignores_configuration
        (env1 env2 : environment) (cfg1 cfg2 : config) (st1 st2 : state) :
  figure_size_ok (width cfg1, height cfg1) = true ->
  figure_size_ok (width cfg2, height cfg2) = true ->
  (0 < wrap cfg1)%Z -> (0 < wrap cfg2)%Z ->
  flat_map anchors (axes (fig (snd (build_diagram env1 cfg1 st1))))
  = flat_map anchors (axes (fig (snd (build_diagram env2 cfg2 st2)))).
Proof.
  intros S1 S2 H1 H2.
  destruct (build_diagram_final env1 cfg1 st1 S1) as (_ & G1 & _).
  destruct (build_diagram_final env2 cfg2 st2 S2) as (_ & G2 & _).
  cbn zeta in *. rewrite G1, G2. unfold final_axes.
  destruct (Z.leb_spec (wrap cfg1) 0); [lia|].
  destruct (Z.leb_spec (wrap cfg2) 0); [lia|].
  cbn [axes]. rewrite !flat_map_app, !rendered_anchors_spec, !lane_anchors.
  reflexivity.
Qed.

Lemma layout_ignores_configuration_witness :
  figure_size_ok (width default_config, height default_config) = true
  /\ figure_size_ok (width main_defaults, height main_defaults) = true
  /\ (0 < wrap default_config)%Z /\ (0 < wrap main_defaults)%Z
  /\ flat_map anchors (axes (fig (snd (build_diagram plain_env default_config fresh_state))))
     = flat_map anchors (axes (fig (snd (build_diagram plain_env main_defaults fresh_state)))).
Proof.
  split; [reflexivity|]. split; [reflexivity|].
  split; [reflexivity|]. split; [reflexivity|].
  apply (layout_ignores_configuration plain_env plain_env default_config main_defaults
           fresh_state fresh_state); reflexivity.
Defined.

(** ** The steps stay inside the lanes *)

Lemma Qleb_le (a b : Q) : Qleb a b = true -> a <= b.
Proof. unfold Qleb, Qle. apply Z.leb_le. Qed.

(** X10: in a run that gets to draw (a page size the figure accepts and a
    positive wrap width) every artist of a step, the caption boxes included,
    is anchored between the outer lanes (0.10 <= x <= 0.90) and strictly
    between the two ends of the guide lines (0.02 < y < 0.98), below the
    lane titles at 0.99. *)
Theorem steps_inside_guides (env : environment) (cfg : config) (st : state) :
  figure_size_ok (width cfg, height cfg) = true ->
  (0 < wrap cfg)%Z ->
  forall a p,
    In a (skipn (length (lane_artists cfg))
                (axes (fig (snd (build_diagram env cfg st))))) ->
    In p (anchors a) ->
    x_client <= fst p /\ fst p <= x_os /\ 0.02 < snd p /\ snd p < 0.98.
Proof.
  intros Hsize Hw a p Ha Hp.
  destruct (build_diagram_final env cfg st Hsize) as (_ & G & _). cbn zeta in G.
  rewrite G in Ha. unfold final_axes in Ha.
  destruct (Z.leb_spec (wrap cfg) 0); [lia|]. cbn [axes] in Ha.
  rewrite skipn_app, skipn_all, Nat.sub_diag in Ha. cbn [skipn app] in Ha.
  assert (Hin : In p (rendered_anchors steps ys_values)).
  { rewrite <- (rendered_anchors_spec env cfg). apply in_flat_map. eauto. }
  assert (Hall : forallb inside_guides (rendered_anchors steps ys_values) = true)
    by (vm_compute; reflexivity).
  rewrite forallb_forall in Hall. specialize (Hall p Hin).
  unfold inside_guides in Hall.
  apply andb_prop in Hall as [Hall H4]. apply andb_prop in Hall as [Hall H3].
  apply andb_prop in Hall as [H1 H2].
  repeat split; auto using Qleb_le, Builder.Qltb_lt.
Qed.

Lemma steps_inside_guides_witness :
  figure_size_ok (width default_config, height default_config) = true
  /\ (0 < wrap default_config)%Z
  /\ (x_client <= x_edge /\ x_edge <= x_os /\ 0.02 < 0.93 /\ 0.93 < 0.98).
Proof.
  split; [reflexivity|]. split; [reflexivity|].
  apply (steps_inside_guides plain_env default_config fresh_state eq_refl eq_refl
           (Text x_edge 0.93 (caption_text plain_env default_config waf_caption)
                 (label_font default_config) false true)
           (x_edge, 0.93)).
  - vm_compute. right. right. left. reflexivity.
  - left. reflexivity.
Defined.

(** ** What a box shows *)

Lemma only_space_decide (text : str) :
  forallb (fun c => negb (TextWrap.is_whitespace c) || (c =? SPACE)%N) text = true ->
  Forall (fun c => TextWrap.is_whitespace c = true -> c = SPACE) text.
Proof.
  intros H. apply Forall_forall. intros c Hc Hws.
  rewrite forallb_forall in H. specialize (H c Hc). rewrite Hws in H.
  now apply N.eqb_eq in H.
Qed.

(** X3: with a positive wrap width [box_text] returns normally and draws one
    boxed text at the point it is given, in the label font size; cut at its
    newlines the text has no line longer than the wrap width. *)
Theorem box_text_lines_fit (env : environment) (cfg : config)
        (x y : Q) (text : str) (st : state) :
  (0 < wrap cfg)%Z ->
  exists tx,
    box_text env cfg x y text st = draw (Text x y tx (label_font cfg) false true) st
    /\ Forall (fun l => (len l <= wrap cfg)%Z) (split_on LF tx).
Proof.
  intros Hw. exists (caption_text env cfg text).
  pose proof (WrapperFacts.fill_returns (ucd env) text (wrap cfg) Hw) as E.
  split.
  - unfold box_text, bind, lift. unfold caption_text. now rewrite E.
  - apply (BoxMore.fill_lines_fit (ucd env) text). exact E.
Qed.

Lemma box_text_lines_fit_witness :
  (0 < wrap default_config)%Z
  /\ exists tx,
       box_text plain_env default_config x_edge 0.93 waf_caption fresh_state
       = draw (Text x_edge 0.93 tx (label_font default_config) false true) fresh_state
       /\ Forall (fun l => (len l <= wrap default_config)%Z) (split_on LF tx).
Proof.
  split; [reflexivity|].
  apply (box_text_lines_fit plain_env default_config x_edge 0.93 waf_caption fresh_state).
  reflexivity.
Defined.

(** X4: a caption that is no longer than the wrap width, has no whitespace
    other than single spaces or runs of spaces (no tab, no newline) and does
    not end in whitespace is drawn as it is, on one line. *)
Theorem box_text_short_caption (env : environment) (cfg : config)
        (x y : Q) (text : str) (st : state) :
  (len text <= wrap cfg)%Z ->
  Forall (fun c => TextWrap.is_whitespace c = true -> c = SPACE) text ->
  isspace (last text SPACE) = false ->
  box_text env cfg x y text st = draw (Text x y text (label_font cfg) false true) st.
Proof.
  intros Hlen Hws Hlast. unfold box_text, bind, lift.
  now rewrite (BoxMore.fill_short_caption (ucd env) text (wrap cfg) Hlen Hws Hlast).
Qed.

Lemma box_text_short_caption_witness :
  (len (py "Try STALE from edge cache") <= wrap default_config)%Z
  /\ box_text plain_env default_config x_worker 0.16
       (py "Try STALE from edge cache") fresh_state
     = draw (Text x_worker 0.16 (py "Try STALE from edge cache")
               (label_font default_config) false true) fresh_state.
Proof.
  split; [discriminate|].
  apply (box_text_short_caption plain_env default_config x_worker 0.16
           (py "Try STALE from edge cache") fresh_state).
  - discriminate.
  - apply only_space_decide. vm_compute. reflexivity.
  - vm_compute. reflexivity.
Defined.

(** X5: with a positive wrap width a caption that is empty, or made of ASCII
    whitespace only (spaces, tabs, newlines), is no error: the box is drawn
    with the empty text. *)
Theorem box_text_blank_caption (env : environment) (cfg : config)
        (x y : Q) (text : str) (st : state) :
  (0 < wrap cfg)%Z ->
  forallb TextWrap.is_whitespace text = true ->
  box_text env cfg x y text st = draw (Text x y [] (label_font cfg) false true) st.
Proof.
  intros Hw Hblank. unfold box_text, bind, lift.
  now rewrite (BoxMore.fill_blank_caption (ucd env) text (wrap cfg) Hw Hblank).
Qed.

Lemma box_text_blank_caption_witness :
  (0 < wrap default_config)%Z
  /\ box_text plain_env default_config x_edge 0.93 [SPACE; TAB; LF; SPACE] fresh_state
     = draw (Text x_edge 0.93 [] (label_font default_config) false true) fresh_state.
Proof.
  split; [reflexivity|].
  apply (box_text_blank_caption plain_env default_config x_edge 0.93
           [SPACE; TAB; LF; SPACE] fresh_state); reflexivity.
Defined.

(** ** Captions without hyphens *)

Lemma plain_text_decide (text : str) :
  forallb (fun c => (negb (isspace c) || TextWrap.is_whitespace c)
                    && negb (c =? HYPHEN)%N) text = true ->
  TextWrap.plain_text text.
Proof.
  intros H. apply Forall_forall. intros c Hc.
  rewrite forallb_forall in H. specialize (H c Hc).
  apply andb_prop in H as [H1 H2]. split.
  - intros Hs. rewrite Hs in H1. exact H1.
  - intros ->. discriminate.
Qed.

Lemma chunks_fit_decide (width : Z) (chunks : list str) :
  forallb (fun c => (len c <=? width)%Z) chunks = true ->
  Forall (fun c => (len c <= width)%Z) chunks.
Proof.
  intros H. apply Forall_forall. intros c Hc.
  rewrite forallb_forall in H. apply Z.leb_le. now apply H.
Qed.

(** X6: for a caption with no hyphen and no whitespace outside ASCII, whose
    words and runs of whitespace are none longer than a positive wrap width,
    the box shows exactly the words of the caption, in order: no word is
    split across lines and none is lost, and no line is longer than the
    wrap width. *)
Theorem box_text_keeps_words (env : environment) (cfg : config)
        (x y : Q) (text : str) (st : state) :
  (0 < wrap cfg)%Z ->
  TextWrap.plain_text text ->
  Forall (fun c => (len c <= wrap cfg)%Z) (TextWrap.split_chunks (ucd env) text) ->
  exists tx,
    box_text env cfg x y text st = draw (Text x y tx (label_font cfg) false true) st
    /\ TextWrap.words tx = TextWrap.words text
    /\ Forall (fun l => (len l <= wrap cfg)%Z) (split_on LF tx).
Proof.
  intros Hw Hplain Hfit.
  destruct (WordsMore.wrap_keeps_words (ucd env) text (wrap cfg) Hw Hplain Hfit)
    as (lines & E & Hwords & _).
  exists (join [LF] lines).
  assert (Ef : TextWrap.fill (ucd env) text (wrap cfg) = Ok (join [LF] lines))
    by (unfold TextWrap.fill; now rewrite E).
  split; [unfold box_text, bind, lift; now rewrite Ef|].
  split; [now rewrite WordsMore.words_join_lines|].
  now apply (BoxMore.fill_lines_fit (ucd env) text).
Qed.

Lemma box_text_keeps_words_witness :
  let narrow := {| width := 40; height := 28; title_font := 16; label_font := 12;
                   wrap := 10; output := py "postcode-flow.pdf" |} in
  (0 < wrap narrow)%Z
  /\ exists tx,
       box_text plain_env narrow x_worker 0.16 (py "Try STALE from edge cache")
                fresh_state
       = draw (Text x_worker 0.16 tx (label_font narrow) false true) fresh_state
       /\ TextWrap.words tx = TextWrap.words (py "Try STALE from edge cache")
       /\ Forall (fun l => (len l <= wrap narrow)%Z) (split_on LF tx).
Proof.
  cbn zeta. split; [reflexivity|].
  apply (box_text_keeps_words plain_env
           {| width := 40; height := 28; title_font := 16; label_font := 12;
              wrap := 10; output := py "postcode-flow.pdf" |}
           x_worker 0.16 (py "Try STALE from edge cache") fresh_state).
  - reflexivity.
  - apply plain_text_decide. vm_compute. reflexivity.
  - apply chunks_fit_decide. vm_compute. reflexivity.
Defined.

End BuilderMore.

(** * Normalized captions *)

Module RoundTripMore.
Import PyStr TextWrap PyStrFacts SplitFacts WrapFacts WrapperFacts.
Local Open Scope Z_scope.

(** ** Tight lists of chunks *)

Lemma after_app (a b : list str) :
  forall aw, after aw (a ++ b) = after (after aw a) b.
Proof. induction a as [|c a IH]; intros aw; [reflexivity|]. cbn. apply IH. Qed.

Lemma tight_app (a b : list str) :
  forall aw, tight aw (a ++ b) <-> tight aw a /\ tight (after aw a) b.
Proof.
  induction a as [|c a IH]; intros aw; cbn [app tight after].
  - tauto.
  - rewrite IH. tauto.
Qed.

Lemma tight_alternating (chunks : list str) :
  forall aw, tight aw chunks -> alternating aw chunks.
Proof.
  induction chunks as [|c rest IH]; intros aw; [auto|].
  cbn [tight alternating]. intros [Hc Hrest]. destruct aw.
  - left. subst c. split; [reflexivity|]. now apply IH.
  - right. split; [assumption|]. split; [reflexivity|]. now apply IH.
Qed.

(** In a tight list a blank chunk comes after a word, and a chunk that is
    no blank is a word. *)
Lemma tight_before_blank (a : list str) (b : str) (rest : list str) :
  forall aw, tight aw (a ++ b :: rest) -> strip_is_empty b = true ->
             after aw a = true.
Proof.
  intros aw H Hb. apply tight_app in H as [_ H]. cbn [tight] in H.
  destruct (after aw a); [reflexivity|]. destruct H as [Hw _].
  apply WordsMore.word_chunk_spec in Hw as (_ & _ & Hw). congruence.
Qed.

Lemma tight_ends_with_word (a : list str) (c : str) :
  forall aw, tight aw (a ++ [c]) -> strip_is_empty c = false ->
             after aw (a ++ [c]) = true.
Proof.
  intros aw H Hc. rewrite after_app. cbn [after].
  apply tight_app in H as [_ H]. cbn [tight] in H.
  destruct (after aw a); [|reflexivity]. destruct H as [-> _]. discriminate.
Qed.

(** A tight list that starts and ends with a word reads as its words joined
    by single spaces. *)
Lemma tight_concat_from (chunks : list str) :
  forall aw, tight aw chunks -> after aw chunks = true ->
    (aw = false ->
     word_chunks chunks <> [] /\ concat chunks = join [SPACE] (word_chunks chunks))
    /\ (aw = true ->
        (chunks <> [] -> word_chunks chunks <> [])
        /\ concat chunks = match chunks with
                           | [] => []
                           | _ => SPACE :: join [SPACE] (word_chunks chunks)
                           end).
Proof.
  induction chunks as [|c rest IH]; intros aw Ht Ha.
  - cbn in Ha. subst aw. split; [discriminate|]. intros _. split; [congruence|reflexivity].
  - cbn [tight after] in Ht, Ha. destruct Ht as [Hc Hrest].
    destruct (IH _ Hrest Ha) as [IHf IHt]. destruct aw; cbn [negb] in *.
    + split; [discriminate|]. intros _. subst c.
      destruct (IHf eq_refl) as [Hne Hcat].
      change (word_chunks ([SPACE] :: rest)) with (word_chunks rest).
      split; [auto|]. cbn [concat app]. now rewrite Hcat.
    + split; [|discriminate]. intros _.
      destruct (IHt eq_refl) as [Hne Hcat].
      unfold word_chunks in *. cbn [filter]. rewrite Hc. split; [discriminate|].
      cbn [concat]. rewrite Hcat. destruct rest as [|c' rest'].
      * cbn. now rewrite app_nil_r.
      * specialize (Hne ltac:(discriminate)).
        destruct (filter word_chunk (c' :: rest')) as [|x xs]; [contradiction|].
        reflexivity.
Qed.

Lemma tight_line_spec (l : str) :
  tight_line l -> words l <> [] /\ l = join [SPACE] (words l).
Proof.
  intros (kept & -> & Ht & Ha).
  destruct (tight_concat_from kept false Ht Ha) as [H _].
  destruct (H eq_refl) as [Hne Hcat].
  rewrite (WordsMore.words_chunks kept (tight_alternating kept false Ht)). auto.
Qed.

(** ** Joining joined lists *)

Lemma join_app (sep : str) (a b : list str) :
  a <> [] -> b <> [] -> join sep (a ++ b) = join sep a ++ sep ++ join sep b.
Proof.
  induction a as [|x a IH]; [contradiction|]. intros _ Hb.
  destruct a as [|y a].
  - cbn [app]. destruct b; [contradiction|reflexivity].
  - change (join sep ((x :: y :: a) ++ b)) with (x ++ sep ++ join sep ((y :: a) ++ b)).
    rewrite IH by (discriminate || assumption).
    change (join sep (x :: y :: a)) with (x ++ sep ++ join sep (y :: a)).
    now rewrite <- !app_assoc.
Qed.

Lemma join_join (sep : str) (groups : list (list str)) :
  Forall (fun g => g <> []) groups ->
  join sep (map (join sep) groups) = join sep (concat groups).
Proof.
  induction 1 as [|g rest Hg Hrest IH]; [reflexivity|].
  destruct rest as [|g' rest].
  - cbn. now rewrite app_nil_r.
  - change (join sep (map (join sep) (g :: g' :: rest)))
      with (join sep g ++ sep ++ join sep (map (join sep) (g' :: rest))).
    rewrite IH. change (concat (g :: g' :: rest)) with (g ++ concat (g' :: rest)).
    rewrite join_app; [reflexivity|assumption|]. cbn [concat].
    inversion Hrest; subst. destruct g'; [contradiction|discriminate].
Qed.

(** ** Lines of a tight list of chunks *)

(** One turn of the outer loop when no chunk is longer than the width, in
    full: which blank is dropped at the start, which at the end, and that
    the line takes at least the first chunk. *)
Lemma wrap_line_chunks_exact (width : Z) (started : bool) (chunks : list str)
      (line : option str) (chunks' : list str) :
  chunks <> [] -> Forall (fun c => len c <= width) chunks ->
  wrap_line width started chunks = (line, chunks') ->
  exists pre kept post,
    chunks = pre ++ kept ++ post ++ chunks'
    /\ pre = match chunks with
             | top :: _ => if strip_is_empty top && started then [top] else []
             | [] => []
             end
    /\ Forall (fun c => strip_is_empty c = true) post
    /\ (post = [] ->
        kept = [] \/ exists init c, kept = init ++ [c] /\ strip_is_empty c = false)
    /\ (kept ++ post = [] -> chunks' = [])
    /\ line = match kept with [] => None | _ => Some (concat kept) end.
Proof.
  intros Hne Hfit. unfold wrap_line.
  set (chunks1 := match chunks with
                  | top :: below => if strip_is_empty top && started then below else chunks
                  | [] => chunks end).
  set (pre := match chunks with
              | top :: _ => if strip_is_empty top && started then [top] else []
              | [] => [] end).
  assert (Hpre : chunks = pre ++ chunks1).
  { subst chunks1 pre. destruct chunks as [|top below]; [contradiction|].
    destruct (strip_is_empty top && started); reflexivity. }
  destruct (take_fitting width chunks1 [] 0) as [[cur_line cur_len] chunks2] eqn:Etake.
  destruct (take_fitting_spec _ _ _ _ _ _ _ Etake) as (taken & Hcl & Hch & Hn & _ & Hstop).
  cbn [app] in Hcl. subst cur_line.
  assert (Hfit2 : Forall (fun c => len c <= width) chunks2).
  { rewrite Hpre, Hch in Hfit. apply Forall_app in Hfit as [_ Hfit].
    now apply Forall_app in Hfit as [_ Hfit]. }
  assert (Hshort : match chunks2 with
                   | top :: _ =>
                     if len top >? width then
                       let '(chunks', cur_line') :=
                         handle_long_word chunks2 taken cur_len width in
                       (chunks', cur_line', sum_len cur_line')
                     else (chunks2, taken, cur_len)
                   | [] => (chunks2, taken, cur_len)
                   end = (chunks2, taken, cur_len)).
  { destruct chunks2 as [|top below2]; [reflexivity|].
    inversion Hfit2 as [|? ? Htop _].
    destruct (Z.gtb_spec (len top) width); [lia|reflexivity]. }
  rewrite Hshort.
  assert (H4 : exists post,
             taken = match rev taken with
                     | last_chunk :: _ =>
                       if strip_is_empty last_chunk then removelast taken else taken
                     | [] => taken
                     end ++ post
             /\ Forall (fun c => strip_is_empty c = true) post
             /\ (post = [] ->
                 taken = [] \/ exists init c, taken = init ++ [c] /\ strip_is_empty c = false)).
  { destruct (rev taken) as [|last_chunk before] eqn:E.
    - exists []. rewrite app_nil_r. split; [reflexivity|]. split; [constructor|].
      intros _. left. apply (f_equal (@rev str)) in E. now rewrite rev_involutive in E.
    - apply (f_equal (@rev str)) in E. rewrite rev_involutive in E. cbn in E.
      destruct (strip_is_empty last_chunk) eqn:Hb.
      + exists [last_chunk]. rewrite E at 1. rewrite E, removelast_last.
        split; [reflexivity|]. split; [auto|discriminate].
      + exists []. rewrite app_nil_r. split; [reflexivity|]. split; [constructor|].
        intros _. right. eauto. }
  destruct H4 as (post & Hkept & Hpost & Hlast).
  set (kept := match rev taken with
               | last_chunk :: _ =>
                 if strip_is_empty last_chunk then removelast taken else taken
               | [] => taken end) in *.
  intros Hres.
  assert (Hres' : line = match kept with [] => None | _ => Some (concat kept) end
                  /\ chunks' = chunks2)
    by (destruct kept; injection Hres as <- <-; split; reflexivity).
  destruct Hres' as [Hline ->]. exists pre, kept, post.
  split; [rewrite Hpre at 1; rewrite Hch; rewrite Hkept at 1; now rewrite <- !app_assoc|].
  split; [reflexivity|]. split; [assumption|]. split.
  { intros ->. rewrite app_nil_r in Hkept. rewrite <- Hkept. now apply Hlast. }
  split; [|assumption].
  intros Hnone. rewrite <- Hkept in Hnone. rewrite Hnone in Hn. cbn in Hn.
  destruct chunks2 as [|c below2]; [reflexivity|].
  inversion Hfit2 as [|? ? Hc _]. lia.
Qed.

(** One turn on a tight list of chunks that ends with a word: the line is a
    tight line, and what is left is tight and ends with a word. *)
Lemma wrap_line_tight (width : Z) (started aw : bool) (chunks : list str)
      (line : option str) (chunks' : list str) :
  chunks <> [] -> Forall (fun c => len c <= width) chunks ->
  tight aw chunks -> after aw chunks = true ->
  (aw = true -> started = true) ->
  wrap_line width started chunks = (line, chunks') ->
  exists l aw',
    line = Some l /\ tight_line l
    /\ tight aw' chunks' /\ after aw' chunks' = true
    /\ Forall (fun c => len c <= width) chunks'.
Proof.
  intros Hne Hfit Ht Ha Hstarted E.
  destruct (wrap_line_chunks_exact _ _ _ _ _ Hne Hfit E)
    as (pre & kept & post & Hcat & Hpre & Hpost & Hlast & Hnone & Hline).
  assert (Hstart : after aw pre = false).
  { destruct chunks as [|top rest]; [contradiction|]. cbn [tight] in Ht.
    destruct Ht as [Htop _]. destruct aw.
    - subst top. rewrite (Hstarted eq_refl) in Hpre. cbn in Hpre. now subst pre.
    - apply WordsMore.word_chunk_spec in Htop as (_ & _ & Htop).
      rewrite Htop in Hpre. cbn in Hpre. now subst pre. }
  rewrite Hcat in Ht, Ha, Hfit.
  apply tight_app in Ht as [_ Ht]. rewrite Hstart in Ht.
  rewrite after_app, Hstart in Ha.
  apply Forall_app in Hfit as [_ Hfit].
  assert (Hkept : after false kept = true).
  { destruct post as [|b post'].
    - destruct (Hlast eq_refl) as [->|(init & c & -> & Hc)].
      + rewrite (Hnone eq_refl) in Ha. discriminate.
      + apply tight_app in Ht as [Ht _]. now apply tight_ends_with_word.
    - inversion Hpost as [|? ? Hb _]; subst.
      cbn [app] in Ht. now apply (tight_before_blank kept b (post' ++ chunks')). }
  assert (Hkt : tight false kept) by (now apply tight_app in Ht as [Ht _]).
  exists (concat kept), (after false (kept ++ post)).
  split.
  { rewrite Hline. destruct kept; [discriminate|reflexivity]. }
  split; [exists kept; auto|].
  rewrite app_assoc in Ht, Ha, Hfit.
  apply tight_app in Ht as [_ Ht]. rewrite after_app in Ha.
  apply Forall_app in Hfit as [_ Hfit]. auto.
Qed.

(** The lines of a tight list of chunks, none longer than the width, are
    tight lines. *)
Lemma wrap_lines_tight (width : Z) (fuel : nat) :
  forall chunks lines ls aw,
    Forall (fun c => len c <= width) chunks ->
    tight aw chunks -> (chunks <> [] -> after aw chunks = true) ->
    (aw = true -> lines <> []) ->
    wrap_lines fuel width chunks lines = Some ls ->
    exists new, ls = lines ++ new /\ Forall tight_line new.
Proof.
  induction fuel as [|fuel IH]; intros chunks lines ls aw Hfit Ht Ha Hlines.
  - destruct chunks as [|c l]; [|discriminate].
    cbn. intros [= <-]. exists []. now rewrite app_nil_r.
  - destruct chunks as [|c l].
    + cbn. intros [= <-]. exists []. now rewrite app_nil_r.
    + cbn [wrap_lines].
      destruct (wrap_line width _ (c :: l)) as [line chunks'] eqn:E.
      assert (Hne : c :: l <> []) by discriminate.
      assert (Hstarted : aw = true -> negb (Nat.eqb (length lines) 0) = true).
      { intros H. specialize (Hlines H). destruct lines; [contradiction|reflexivity]. }
      destruct (wrap_line_tight _ _ _ _ _ _ Hne Hfit Ht (Ha Hne) Hstarted E)
        as (l0 & aw' & -> & Hl0 & Ht' & Ha' & Hfit').
      intros H.
      assert (Hmore : lines ++ [l0] <> []) by (destruct lines; discriminate).
      destruct (IH _ _ _ aw' Hfit' Ht' (fun _ => Ha') (fun _ => Hmore) H)
        as (new & -> & Hnew).
      exists (l0 :: new). rewrite <- app_assoc. split; [reflexivity|]. auto.
Qed.

(** ** The chunks of a normalized text *)

Section WithTables.
Context (ucd : unicode_db).

Lemma span_exact (p : char -> bool) (a b : str) :
  forallb p a = true ->
  match b with [] => True | c :: _ => p c = false end ->
  span p (a ++ b) = (a, b).
Proof.
  intros Ha Hb. induction a as [|c a IH].
  - destruct b as [|c b]; [reflexivity|]. cbn. now rewrite Hb.
  - cbn in Ha. apply andb_prop in Ha as [Hc Ha]. cbn. now rewrite Hc, IH.
Qed.

Lemma join_head_word (w : str) (rest : list str) :
  word_chunk w = true ->
  exists c tail, join [SPACE] (w :: rest) = c :: tail /\ is_whitespace c = false.
Proof.
  intros Hw. apply WordsMore.word_chunk_spec in Hw as (Hne & Hall & _).
  destruct w as [|c w']; [contradiction|]. cbn in Hall.
  apply andb_prop in Hall as [Hc _]. apply negb_true_iff in Hc.
  destruct rest; cbn; eauto.
Qed.

Lemma split_from_interleave (ws : list str) :
  forall fuel before,
    Forall (fun w => word_chunk w = true) ws ->
    Forall munged_plain (join [SPACE] ws) ->
    (length (join [SPACE] ws) <= fuel)%nat ->
    split_from ucd fuel before (join [SPACE] ws) = interleave ws.
Proof.
  induction ws as [|w rest IH]; intros fuel before Hws Hplain Hfuel.
  - destruct fuel; reflexivity.
  - inversion Hws as [|? ? Hw Hrest]; subst.
    destruct (WordsMore.word_chunk_spec w Hw) as (Hne & Hall & _).
    destruct w as [|c w']; [contradiction|]. cbn in Hall.
    apply andb_prop in Hall as [Hc Hw']. apply negb_true_iff in Hc.
    destruct rest as [|w2 rest2].
    + cbn [join interleave] in *. destruct fuel as [|fuel]; [cbn in Hfuel; lia|].
      cbn [split_from]. unfold wordsep_match. rewrite Hc.
      rewrite (WordsMore.emdash_ahead_plain ucd _ Hplain), andb_false_r.
      inversion Hplain as [|? ? _ Hp']; subst.
      rewrite (WordsMore.word_rest_plain ucd w' Hp').
      rewrite <- (app_nil_r w') at 1. rewrite (span_exact _ w' [] Hw' I).
      destruct fuel; reflexivity.
    + change (join [SPACE] ((c :: w') :: w2 :: rest2))
        with (c :: (w' ++ SPACE :: join [SPACE] (w2 :: rest2))) in *.
      change (interleave ((c :: w') :: w2 :: rest2))
        with ((c :: w') :: [SPACE] :: interleave (w2 :: rest2)).
      inversion Hrest as [|? ? Hw2 _]; subst.
      destruct (join_head_word w2 rest2 Hw2) as (c2 & tail & Ej & Hc2).
      remember (join [SPACE] (w2 :: rest2)) as J eqn:HJ.
      remember (interleave (w2 :: rest2)) as chunks eqn:Hchunks.
      destruct fuel as [|fuel]; [cbn in Hfuel; lia|].
      cbn [split_from]. unfold wordsep_match at 1. rewrite Hc.
      rewrite (WordsMore.emdash_ahead_plain ucd _ Hplain), andb_false_r.
      inversion Hplain as [|? ? _ Hp']; subst.
      rewrite (WordsMore.word_rest_plain ucd _ Hp').
      rewrite (span_exact _ w' (SPACE :: _) Hw' eq_refl).
      apply Forall_app in Hp' as [_ Hp']. inversion Hp' as [|? ? _ Hp'']; subst.
      cbn [length] in Hfuel. rewrite length_app in Hfuel. cbn [length] in Hfuel.
      destruct fuel as [|fuel]; [lia|].
      cbn [split_from]. unfold wordsep_match at 1.
      assert (Hsp : is_whitespace SPACE = true) by reflexivity. rewrite Hsp.
      change (SPACE :: join [SPACE] (w2 :: rest2))
        with ([SPACE] ++ join [SPACE] (w2 :: rest2)).
      rewrite (span_exact is_whitespace [SPACE] (join [SPACE] (w2 :: rest2)) eq_refl)
        by (rewrite Ej; exact Hc2).
      f_equal. f_equal. apply IH; [assumption|assumption|lia].
Qed.

Lemma interleave_tight (ws : list str) :
  Forall (fun w => word_chunk w = true) ws ->
  tight false (interleave ws) /\ (ws <> [] -> after false (interleave ws) = true).
Proof.
  induction 1 as [|w rest Hw Hrest IH]; [split; [exact I|congruence]|].
  destruct IH as [IHt IHa]. destruct rest as [|w2 rest2].
  - cbn. auto.
  - cbn [interleave tight after negb]. split; [auto|].
    intros _. apply IHa. discriminate.
Qed.

Lemma interleave_fit (width : Z) (ws : list str) :
  1 <= width -> Forall (fun w => len w <= width) ws ->
  Forall (fun c => len c <= width) (interleave ws).
Proof.
  intros Hw. induction 1 as [|w rest Hfit Hrest IH]; [constructor|].
  destruct rest as [|w2 rest2]; [cbn; auto|].
  cbn [interleave]. constructor; [assumption|]. constructor; [exact Hw|assumption].
Qed.

(** For a plain text that is normalized once munged, with no word longer
    than the width, the lines rejoined with single spaces are the
    normalized text. *)
Lemma wrap_rejoins (text : str) (width : Z) :
  0 < width -> plain_text text ->
  munge_whitespace text = normalized text ->
  Forall (fun w => len w <= width) (words text) ->
  rejoins_to_normalized ucd text width.
Proof.
  intros Hw Hplain Hnorm Hfit.
  pose proof (WordsMore.munge_whitespace_plain text Hplain) as Hmp.
  pose proof (WordsMore.split_alternating ucd _ Hmp) as Halt.
  assert (Hwords : words text = word_chunks (split ucd (munge_whitespace text))).
  { rewrite <- (WordsMore.words_chunks _ Halt), split_concat.
    symmetry. apply WordsMore.words_munge_whitespace. }
  assert (Hwc : Forall (fun w => word_chunk w = true) (words text)).
  { rewrite Hwords. apply Forall_forall. intros w Hin.
    unfold word_chunks in Hin. now apply filter_In in Hin as [_ Hin]. }
  assert (Hsplit : split_chunks ucd text = interleave (words text)).
  { unfold split_chunks, split. rewrite Hnorm at 2. unfold normalized.
    rewrite Hnorm. unfold normalized. apply split_from_interleave; [assumption| |lia].
    fold (normalized text). now rewrite <- Hnorm. }
  destruct (interleave_tight _ Hwc) as [Ht Ha].
  pose proof (interleave_fit width _ ltac:(lia) Hfit) as Hcf.
  destruct (wrap_returns ucd text width Hw) as (lines & E & _).
  exists lines. split; [exact E|].
  unfold wrap, wrap_chunks in E. destruct (Z.leb_spec width 0) as [?|_]; [lia|].
  destruct (wrap_lines _ width (split_chunks ucd text) []) as [ls|] eqn:El;
    [|discriminate].
  injection E as Els. subst ls. rewrite Hsplit in El.
  assert (Ha' : interleave (words text) <> [] ->
                after false (interleave (words text)) = true).
  { intros H. apply Ha. intros E0. rewrite E0 in H. now apply H. }
  assert (Hno : false = true -> @nil str <> []) by discriminate.
  destruct (wrap_lines_tight width _ _ _ _ false Hcf Ht Ha' Hno El)
    as (new & Enew0 & Htight).
  cbn [app] in Enew0. subst new.
  destruct (WordsMore.wrap_lines_words width _ _ _ _ Hcf
              (tight_alternating _ _ Ht) El) as (new' & Enew & Hw').
  cbn [app] in Enew. subst new'.
  assert (Hlines : lines = map (join [SPACE]) (map words lines)).
  { rewrite map_map. rewrite <- (map_id lines) at 1. apply map_ext_in.
    intros l Hl. rewrite Forall_forall in Htight.
    now apply tight_line_spec, Htight. }
  rewrite Hlines, join_join.
  - rewrite Hw'. rewrite <- (WordsMore.words_chunks _ (tight_alternating _ _ Ht)).
    rewrite <- Hsplit. unfold split_chunks. rewrite split_concat, Hnorm.
    unfold normalized at 2. fold (normalized text). rewrite <- Hnorm.
    now rewrite WordsMore.words_munge_whitespace.
  - apply Forall_map. eapply Forall_impl; [|exact Htight].
    intros l Hl. now apply tight_line_spec.
Qed.

End WithTables.

(** Turning the newlines between lines into spaces rejoins the lines. *)
Lemma newlines_to_spaces_join (lines : list str) :
  Forall (Forall (fun c => c <> LF)) lines ->
  newlines_to_spaces (join [LF] lines) = join [SPACE] lines.
Proof.
  assert (Hid : forall l, Forall (fun c => c <> LF) l -> newlines_to_spaces l = l).
  { unfold newlines_to_spaces. induction 1 as [|c l Hc Hl IH]; [reflexivity|].
    cbn. rewrite IH. destruct (N.eqb_spec c LF); [contradiction|reflexivity]. }
  induction 1 as [|l rest Hl Hrest IH]; [reflexivity|].
  destruct rest as [|l' rest].
  - cbn. now apply Hid.
  - change (join [LF] (l :: l' :: rest)) with (l ++ [LF] ++ join [LF] (l' :: rest)).
    change (join [SPACE] (l :: l' :: rest)) with (l ++ [SPACE] ++ join [SPACE] (l' :: rest)).
    assert (Happ : forall a b, newlines_to_spaces (a ++ b)
                               = newlines_to_spaces a ++ newlines_to_spaces b).
    { intros a b. apply map_app. }
    rewrite !Happ, IH, (Hid l Hl). reflexivity.
Qed.

End RoundTripMore.

(** ** The caption read back from a box *)

Module BoxRoundTrip.
Import PyStr Diagram.

(** X11: for a caption with no hyphen and no whitespace outside ASCII, whose
    words are separated by single whitespace characters (the caption with its
    whitespace replaced by spaces is its normalized form) and are none longer
    than a positive wrap width, the text of the box with its newlines
    replaced by spaces is the normalized caption: the wrapper only chooses
    which spaces become line breaks. *)
Theorem box_text_reads_back (env : environment) (cfg : config)
        (x y : Q) (text : str) (st : state) :
  (0 < wrap cfg)%Z ->
  TextWrap.plain_text text ->
  TextWrap.munge_whitespace text = TextWrap.normalized text ->
  Forall (fun w => (len w <= wrap cfg)%Z) (TextWrap.words text) ->
  exists tx,
    box_text env cfg x y text st = draw (Text x y tx (label_font cfg) false true) st
    /\ TextWrap.newlines_to_spaces tx = TextWrap.normalized text.
Proof.
  intros Hw Hplain Hnorm Hfit.
  destruct (RoundTripMore.wrap_rejoins (ucd env) text (wrap cfg) Hw Hplain Hnorm Hfit)
    as (lines & E & Hjoin).
  exists (join [LF] lines).
  assert (Ef : TextWrap.fill (ucd env) text (wrap cfg) = Ok (join [LF] lines))
    by (unfold TextWrap.fill; now rewrite E).
  split; [unfold box_text, bind, lift; now rewrite Ef|].
  rewrite RoundTripMore.newlines_to_spaces_join; [exact Hjoin|].
  now apply (BoxMore.wrap_lines_no_newline (ucd env) text (wrap cfg)).
Qed.

Lemma box_text_reads_back_witness :
  let narrow := {| width := 40; height := 28; title_font := 16; label_font := 12;
                   wrap := 12; output := py "postcode-flow.pdf" |} in
  (0 < wrap narrow)%Z
  /\ exists tx,
       box_text plain_env narrow x_edge 0.12 (py "Serve STALE 200 or 504 os_timeout")
                fresh_state
       = draw (Text x_edge 0.12 tx (label_font narrow) false true) fresh_state
       /\ TextWrap.newlines_to_spaces tx
          = TextWrap.normalized (py "Serve STALE 200 or 504 os_timeout").
Proof.
  cbn zeta. split; [reflexivity|].
  apply (box_text_reads_back plain_env
           {| width := 40; height := 28; title_font := 16; label_font := 12;
              wrap := 12; output := py "postcode-flow.pdf" |}
           x_edge 0.12 (py "Serve STALE 200 or 504 os_timeout") fresh_state).
  - reflexivity.
  - apply BuilderMore.plain_text_decide. vm_compute. reflexivity.
  - vm_compute. reflexivity.
  - apply BuilderMore.chunks_fit_decide. vm_compute. reflexivity.
Defined.

End BoxRoundTrip.

(** * Where the lines break *)

Module LayoutFacts.
Import PyStr TextWrap PyStrFacts SplitFacts WrapFacts WrapperFacts.
Local Open Scope Z_scope.

Lemma pieces_app (a b : list segment) : pieces (a ++ b) = pieces a ++ pieces b.
Proof. apply flat_map_app. Qed.

Lemma lines_of_app (a b : list segment) : lines_of (a ++ b) = lines_of a ++ lines_of b.
Proof. apply flat_map_app. Qed.

(** Chunks kept whole in front of a cut. *)
Lemma cut_long_whole (width : Z) (pre chunks ps : list str) :
  cut_long width chunks ps -> cut_long width (pre ++ chunks) (pre ++ ps).
Proof.
  intros H. induction pre as [|c pre IH]; [exact H|].
  simpl. now apply cut_whole.
Qed.

Lemma line_segment_spec (kept : list str) :
  pieces (line_segment kept) = kept
  /\ Forall segment_ok (line_segment kept)
  /\ lines_of (line_segment kept)
     = match kept with [] => [] | _ => [concat kept] end.
Proof.
  destruct kept as [|c kept]; simpl.
  - repeat split. constructor.
  - rewrite app_nil_r. repeat split. constructor; [discriminate|constructor].
Qed.

(** One turn of the outer loop, as a layout: a blank chunk dropped, the
    line, a blank piece dropped; a chunk is cut only when it is longer
    than the width. *)
Lemma wrap_line_layout (width : Z) (started : bool) (chunks : list str)
      (line : option str) (chunks' : list str) :
  1 <= width -> chunks <> [] ->
  wrap_line width started chunks = (line, chunks') ->
  exists segs,
    lines_of segs = match line with Some l => [l] | None => [] end
    /\ Forall segment_ok segs
    /\ forall ps, cut_long width chunks' ps -> cut_long width chunks (pieces segs ++ ps).
Proof.
  intros Hw Hne. unfold wrap_line.
  set (chunks1 := match chunks with
                  | top :: below => if strip_is_empty top && started then below else chunks
                  | [] => chunks end).
  assert (H1 : exists pre, Forall segment_ok pre /\ lines_of pre = []
                           /\ chunks = pieces pre ++ chunks1).
  { subst chunks1. destruct chunks as [|top below]; [contradiction|].
    destruct (strip_is_empty top && started) eqn:E.
    - apply andb_prop in E as [E _]. exists [Dropped top].
      split; [constructor; [exact E|constructor]|]. split; reflexivity.
    - exists []. split; [constructor|]. split; reflexivity. }
  destruct H1 as (pre & Hpre & Lpre & Epre). clearbody chunks1.
  destruct (take_fitting width chunks1 [] 0) as [[taken n] chunks2] eqn:Et.
  destruct (take_fitting_spec _ _ _ _ _ _ _ Et) as (taken' & Etk & Ech & En & Hle & Hstop).
  simpl in Etk, En. subst taken' n chunks1.
  specialize (Hle ltac:(lia)).
  (* the long word *)
  set (r := match chunks2 with
            | top :: _ =>
              if len top >? width then
                let '(chunks', cur_line') := handle_long_word chunks2 taken (sum_len taken) width in
                (chunks', cur_line', sum_len cur_line')
              else (chunks2, taken, sum_len taken)
            | [] => (chunks2, taken, sum_len taken)
            end).
  assert (H3 : exists chunks3 cur_line3 n3 dropped,
             r = (chunks3, cur_line3, n3)
             /\ Forall segment_ok dropped /\ lines_of dropped = []
             /\ (let kept := match rev cur_line3 with
                             | last_chunk :: _ =>
                               if strip_is_empty last_chunk then removelast cur_line3
                               else cur_line3
                             | [] => cur_line3 end in
                 forall ps, cut_long width chunks3 ps ->
                            cut_long width (taken ++ chunks2)
                                     (kept ++ pieces dropped ++ ps))).
  { subst r. pose proof (sum_len_nonneg taken) as Hpos.
    assert (Hlast : forall ps, cut_long width chunks2 ps ->
              cut_long width (taken ++ chunks2)
                (match rev taken with
                 | last_chunk :: _ =>
                   if strip_is_empty last_chunk then removelast taken else taken
                 | [] => taken end
                 ++ pieces (match rev taken with
                            | last_chunk :: _ =>
                              if strip_is_empty last_chunk then [Dropped last_chunk] else []
                            | [] => [] end) ++ ps)).
    { intros ps Hps. destruct (rev taken) as [|b older] eqn:Er.
      - simpl. now apply cut_long_whole.
      - apply (f_equal (@rev str)) in Er. rewrite rev_involutive in Er. simpl in Er.
        destruct (strip_is_empty b).
        + subst taken. rewrite removelast_last. simpl. rewrite <- app_assoc.
          apply cut_long_whole. simpl. now apply cut_whole.
        + simpl. now apply cut_long_whole. }
    assert (Hdrop : forall b older, rev taken = b :: older ->
              Forall segment_ok (if strip_is_empty b then [Dropped b] else [])
              /\ lines_of (if strip_is_empty b then [Dropped b] else []) = []).
    { intros b older _. destruct (strip_is_empty b) eqn:E.
      - split; [constructor; [exact E|constructor]|reflexivity].
      - split; [constructor|reflexivity]. }
    assert (Hplain : exists dropped,
               Forall segment_ok dropped /\ lines_of dropped = []
               /\ forall ps, cut_long width chunks2 ps ->
                  cut_long width (taken ++ chunks2)
                    (match rev taken with
                     | last_chunk :: _ =>
                       if strip_is_empty last_chunk then removelast taken else taken
                     | [] => taken end ++ pieces dropped ++ ps)).
    { eexists. split; [|split; [|exact Hlast]].
      - destruct (rev taken) as [|b older] eqn:Er; [constructor|].
        apply (Hdrop b older eq_refl).
      - destruct (rev taken) as [|b older] eqn:Er; [reflexivity|].
        apply (Hdrop b older eq_refl). }
    destruct chunks2 as [|top below2].
    - destruct Hplain as (dropped & Hd1 & Hd2 & Hd3).
      exists [], taken, (sum_len taken), dropped. auto.
    - destruct (Z.gtb_spec (len top) width) as [Hlong|Hshort].
      + destruct (handle_long_word_spec top below2 taken (sum_len taken) width)
          as (piece & rest & -> & Hsplit & Hroom & Hone); try lia.
        assert (Hrest : rest <> []).
        { intros ->. rewrite app_nil_r in Hsplit. subst piece. lia. }
        destruct piece as [|p piece].
        * (* no room left: the empty piece is dropped again *)
          simpl in Hsplit. subst rest.
          exists (top :: below2), (taken ++ [[]]), (sum_len (taken ++ [[]])), [].
          split; [reflexivity|]. split; [constructor|]. split; [reflexivity|].
          cbn zeta. rewrite rev_app_distr. simpl. rewrite removelast_last.
          intros ps Hps. now apply cut_long_whole.
        * exists (rest :: below2), (taken ++ [p :: piece]),
                 (sum_len (taken ++ [p :: piece])),
                 (if strip_is_empty (p :: piece) then [Dropped (p :: piece)] else []).
          split; [reflexivity|].
          destruct (strip_is_empty (p :: piece)) eqn:E.
          -- split; [constructor; [exact E|constructor]|]. split; [reflexivity|].
             cbn zeta. rewrite rev_app_distr. cbn [rev app]. rewrite E.
             rewrite removelast_last. intros ps Hps. apply cut_long_whole.
             simpl. rewrite <- Hsplit. apply cut_piece; auto; [discriminate|].
             rewrite Hsplit. lia.
          -- split; [constructor|]. split; [reflexivity|].
             cbn zeta. rewrite rev_app_distr. cbn [rev app]. rewrite E.
             intros ps Hps. rewrite <- app_assoc. apply cut_long_whole.
             simpl. rewrite <- Hsplit. apply cut_piece; auto; [discriminate|].
             rewrite Hsplit. lia.
      + destruct Hplain as (dropped & Hd1 & Hd2 & Hd3).
        exists (top :: below2), taken, (sum_len taken), dropped. auto. }
  destruct H3 as (chunks3 & cur_line3 & n3 & dropped & -> & Hd1 & Hd2 & Hcut).
  cbn zeta in Hcut.
  set (kept := match rev cur_line3 with
               | last_chunk :: _ =>
                 if strip_is_empty last_chunk then removelast cur_line3 else cur_line3
               | [] => cur_line3 end) in *.
  clearbody kept.
  intros H.
  assert (Hline : line = match kept with [] => None | _ => Some (concat kept) end
                  /\ chunks' = chunks3).
  { destruct kept; injection H as <- <-; auto. }
  destruct Hline as [-> ->]. clear H.
  destruct (line_segment_spec kept) as (Hk1 & Hk2 & Hk3).
  exists (pre ++ line_segment kept ++ dropped).
  split; [|split].
  - rewrite !lines_of_app, Lpre, Hd2, Hk3, app_nil_r. simpl.
    destruct kept; reflexivity.
  - repeat (apply Forall_app; split); assumption.
  - intros ps Hps. rewrite Epre, !pieces_app, Hk1, <- !app_assoc.
    apply cut_long_whole. now apply Hcut.
Qed.

(** The outer loop, as a layout of the chunks. *)
Lemma wrap_lines_layout (width : Z) (fuel : nat) :
  1 <= width ->
  forall chunks lines ls,
    wrap_lines fuel width chunks lines = Some ls ->
    exists layout,
      ls = lines ++ lines_of layout
      /\ Forall segment_ok layout
      /\ cut_long width chunks (pieces layout).
Proof.
  intros Hw. induction fuel as [|fuel IH]; intros chunks lines ls.
  - destruct chunks; simpl; [|discriminate]. intros [= <-].
    exists []. rewrite app_nil_r. repeat split; constructor.
  - destruct chunks as [|c l].
    + simpl. intros [= <-]. exists []. rewrite app_nil_r. repeat split; constructor.
    + cbn [wrap_lines].
      destruct (wrap_line width _ (c :: l)) as [line chunks'] eqn:E.
      assert (Hne : c :: l <> []) by discriminate.
      destruct (wrap_line_layout _ _ _ _ _ Hw Hne E) as (segs & Hl & Hok & Hcut).
      intros H. destruct (IH _ _ _ H) as (layout & -> & Hok' & Hcut').
      exists (segs ++ layout). rewrite lines_of_app, Hl, pieces_app. split; [|split].
      * destruct line; simpl; rewrite <- ?app_assoc; reflexivity.
      * apply Forall_app. auto.
      * now apply Hcut.
Qed.

(** *** Words in a layout *)

Lemma blank_chunk_app (a b : str) :
  a <> [] -> b <> [] -> blank_chunk (a ++ b) = true ->
  blank_chunk a = true /\ blank_chunk b = true.
Proof.
  unfold blank_chunk. intros Ha Hb H. apply andb_prop in H as [_ H].
  rewrite forallb_app in H. apply andb_prop in H as [H1 H2].
  split; apply andb_true_intro; (split; [|assumption]).
  - destruct a; [contradiction|reflexivity].
  - destruct b; [contradiction|reflexivity].
Qed.

(** Cutting the chunks of a text whose words fit the width cuts runs of
    spaces only: the words are kept whole, and still no word follows a
    word. *)
Lemma cut_long_alternating (width : Z) (chunks ps : list str) :
  cut_long width chunks ps ->
  forall after_word,
    alternating after_word chunks ->
    Forall (fun c => word_chunk c = true -> len c <= width) chunks ->
    alternating after_word ps /\ word_chunks ps = word_chunks chunks.
Proof.
  induction 1 as [|c chunks ps Hcut IH|a b chunks ps Ha Hb Hlong Hcut IH];
    intros after_word Halt Hfit.
  - split; [exact I|reflexivity].
  - inversion Hfit as [|? ? _ Hfit']; subst.
    cbn [alternating] in Halt |- *. unfold word_chunks. cbn [filter].
    destruct Halt as [[Hc Halt]|(Hc & Haw & Halt)];
      destruct (IH _ Halt Hfit') as [Halt' Hw]; unfold word_chunks in Hw; rewrite Hw; auto.
  - inversion Hfit as [|? ? Hab Hfit']; subst.
    cbn [alternating] in Halt.
    destruct Halt as [[Hc Halt]|(Hc & _ & _)]; [|specialize (Hab Hc); lia].
    destruct (blank_chunk_app a b Ha Hb Hc) as [Hba Hbb].
    destruct (WordsMore.blank_chunk_spec _ Hc) as (_ & _ & _ & Hnc).
    destruct (WordsMore.blank_chunk_spec _ Hba) as (_ & _ & _ & Hna).
    destruct (WordsMore.blank_chunk_spec _ Hbb) as (_ & _ & _ & Hnb).
    destruct (IH false) as [Halt' Hw].
    { cbn [alternating]. left. auto. }
    { constructor; [intros Habs; congruence|exact Hfit']. }
    split.
    + cbn [alternating]. left. auto.
    + unfold word_chunks in *. cbn [filter] in *. rewrite Hna, Hnc.
      rewrite Hnb in Hw. exact Hw.
Qed.

(** The words of the lines of a layout whose pieces are runs of spaces and
    words in turn are the word pieces. *)
Lemma layout_words (layout : list segment) :
  Forall segment_ok layout ->
  forall after_word,
    alternating after_word (pieces layout) ->
    concat (map words (lines_of layout)) = word_chunks (pieces layout).
Proof.
  induction 1 as [|s layout Hs Hok IH]; intros after_word Halt; [reflexivity|].
  destruct s as [kept|blank].
  - change (pieces (Line kept :: layout)) with (kept ++ pieces layout) in *.
    change (lines_of (Line kept :: layout)) with (concat kept :: lines_of layout).
    destruct (WordsMore.alternating_app _ _ _ Halt) as [Hk Hrest].
    cbn [map concat]. rewrite WordsMore.word_chunks_app, (IH _ Hrest).
    rewrite (WordsMore.words_chunks _ (WordsMore.alternating_weaken _ _ Hk)).
    reflexivity.
  - change (pieces (Dropped blank :: layout)) with (blank :: pieces layout) in *.
    change (lines_of (Dropped blank :: layout)) with (lines_of layout).
    cbn [segment_ok] in Hs. pose proof (WordsMore.blank_not_word _ Hs) as Hnw.
    cbn [alternating] in Halt.
    destruct Halt as [[_ Halt]|(Hc & _ & _)]; [|congruence].
    rewrite (IH _ Halt). unfold word_chunks. cbn [filter]. now rewrite Hnw.
Qed.

Lemma words_from_space (line : str) :
  forall word rest,
    words_from word (line ++ SPACE :: rest) = words_from word line ++ words_from [] rest.
Proof.
  induction line as [|c line IH]; intros word rest.
  - cbn [app]. now rewrite (WordsMore.words_from_whitespace word SPACE rest eq_refl).
  - cbn [app words_from]. destruct (is_whitespace c).
    + destruct word; rewrite IH; reflexivity.
    + apply IH.
Qed.

(** The words of the lines rejoined with single spaces are the words of
    the lines. *)
Lemma words_join_spaces (lines : list str) :
  words (join [SPACE] lines) = concat (map words lines).
Proof.
  unfold words. induction lines as [|l rest IH]; [reflexivity|].
  destruct rest as [|l' rest].
  - cbn. now rewrite app_nil_r.
  - change (join [SPACE] (l :: l' :: rest)) with (l ++ SPACE :: join [SPACE] (l' :: rest)).
    rewrite words_from_space, IH. reflexivity.
Qed.

Section WithTables.
Context (ucd : unicode_db).

(** With a positive width the wrapper returns the lines of a layout of the
    chunks of the text. *)
Lemma wrap_layout (text : str) (width : Z) :
  0 < width ->
  exists layout,
    wrap ucd text width = Ok (lines_of layout)
    /\ Forall segment_ok layout
    /\ cut_long width (split_chunks ucd text) (pieces layout).
Proof.
  intros Hw. destruct (wrap_returns ucd text width Hw) as (lines & E & _).
  pose proof E as E'.
  unfold wrap, wrap_chunks in E'. destruct (Z.leb_spec width 0) as [?|_]; [lia|].
  destruct (wrap_lines _ width (split_chunks ucd text) []) as [ls|] eqn:El;
    [|discriminate].
  injection E' as ->.
  destruct (wrap_lines_layout width _ ltac:(lia) _ _ _ El) as (layout & -> & Hok & Hcut).
  exists layout. cbn [app] in E. auto.
Qed.

(** A hyphen-free text with ASCII whitespace whose words fit the width
    keeps its words: none is cut and none is lost, however long the runs of
    whitespace are. *)
Lemma wrap_keeps_fitting_words (text : str) (width : Z) (lines : list str) :
  plain_text text ->
  Forall (fun w => len w <= width) (words text) ->
  wrap ucd text width = Ok lines ->
  concat (map words lines) = words text.
Proof.
  intros Hplain Hfit E.
  pose proof (wrap_ok_width ucd _ _ _ E) as Hw.
  destruct (wrap_layout text width Hw) as (layout & E' & Hok & Hcut).
  rewrite E in E'. injection E' as ->.
  pose proof (WordsMore.split_alternating ucd (munge_whitespace text)
                (WordsMore.munge_whitespace_plain text Hplain)) as Halt.
  fold (split_chunks ucd text) in Halt.
  assert (Hwords : word_chunks (split_chunks ucd text) = words text).
  { rewrite <- (WordsMore.words_chunks _ Halt). unfold split_chunks.
    rewrite split_concat. apply WordsMore.words_munge_whitespace. }
  assert (Hfit' : Forall (fun c => word_chunk c = true -> len c <= width)
                         (split_chunks ucd text)).
  { apply Forall_forall. intros c Hc Hwc. rewrite Forall_forall in Hfit.
    apply Hfit. rewrite <- Hwords. unfold word_chunks. apply filter_In. auto. }
  destruct (cut_long_alternating _ _ _ Hcut false Halt Hfit') as [Halt' Hsame].
  rewrite (layout_words layout Hok false Halt'), Hsame. exact Hwords.
Qed.

(** *** Where the chunks meet *)







End WithTables.

End LayoutFacts.

(** * The wrapper against its specification: line breaks and the round trip *)

Module WrapperLayout.
Import PyStr TextWrap PyStrFacts SplitFacts WrapFacts WrapperFacts LayoutFacts.
Local Open Scope Z_scope.

(** A word may be divided before a dash, although it fits the width. *)
Example dash_lines (ucd : unicode_db) :
  split_chunks ucd (py "xx ab--cd") = [py "xx"; py " "; py "ab"; py "--"; py "cd"]
  /\ wrap ucd (py "xx ab--cd") 6 = Ok [py "xx ab"; py "--cd"].
Proof. split; vm_compute; reflexivity. Qed.

(** A line may end with a space: the space fills the line, and the piece of
    the long word that follows it on the line is empty. *)
Example full_line_keeps_space (ucd : unicode_db) :
  wrap ucd (py "ab cdefgh") 3 = Ok [py "ab "; py "cde"; py "fgh"].
Proof. vm_compute. reflexivity. Qed.



(** C7, amended: for every caption and every positive width the lines fit
    the width and, rejoined with single spaces, keep the characters of the
    caption that are not whitespace, in order.  For a caption with no
    hyphen and no whitespace but that of [textwrap], whose words are none
    longer than the width, the rejoined lines have exactly the words of the
    caption, in order, so that normalizing the whitespace of both gives the
    same text; and when the words of such a caption are separated by single
    whitespace characters (the caption after [_munge_whitespace] is its
    normalized form) the rejoined lines are the normalized caption. *)
Theorem rejoined_lines_keep_words (ucd : unicode_db) (text : str) (width : Z) :
  0 < width ->
  exists lines,
    wrap ucd text width = Ok lines
    /\ Forall (fun l => len l <= width) lines
    /\ without_whitespace (join [SPACE] lines) = without_whitespace text
    /\ (plain_text text -> Forall (fun w => len w <= width) (words text) ->
        words (join [SPACE] lines) = words text
        /\ normalized (join [SPACE] lines) = normalized text
        /\ (munge_whitespace text = normalized text ->
            join [SPACE] lines = normalized text)).
Proof.
  intros Hw. destruct (wrap_returns ucd text width Hw) as (lines & E & Hfit & Hkeep & _).
  exists lines. split; [exact E|]. split; [exact Hfit|]. split.
  { unfold without_whitespace in *. now rewrite join_space_not_space. }
  intros Hplain Hwords.
  assert (Hsame : words (join [SPACE] lines) = words text).
  { rewrite words_join_spaces.
    now apply (wrap_keeps_fitting_words ucd text width). }
  split; [exact Hsame|]. split; [unfold normalized; now rewrite Hsame|].
  intros Hnorm.
  destruct (RoundTripMore.wrap_rejoins ucd text width Hw Hplain Hnorm Hwords)
    as (lines' & E' & Hjoin).
  rewrite E in E'. injection E' as <-. exact Hjoin.
Qed.

Lemma rejoined_lines_keep_words_witness :
  0 < 12
  /\ exists lines,
       wrap symbols_only (py "Serve STALE 200 or 504 os_timeout") 12 = Ok lines
       /\ Forall (fun l => len l <= 12) lines
       /\ without_whitespace (join [SPACE] lines)
          = without_whitespace (py "Serve STALE 200 or 504 os_timeout")
       /\ join [SPACE] lines = normalized (py "Serve STALE 200 or 504 os_timeout").
Proof.
  split; [reflexivity|].
  destruct (rejoined_lines_keep_words symbols_only
              (py "Serve STALE 200 or 504 os_timeout") 12 eq_refl)
    as (lines & E & Hfit & Hkeep & Hrest).
  exists lines. split; [exact E|]. split; [exact Hfit|]. split; [exact Hkeep|].
  apply Hrest.
  - apply BuilderMore.plain_text_decide. vm_compute. reflexivity.
  - apply BuilderMore.chunks_fit_decide. vm_compute. reflexivity.
  - vm_compute. reflexivity.
Defined.

End WrapperLayout.
